(** * Pixel transforms of the bitmap filter program

    A shallow embedding of [filters2.c++]: the five top-level transforms
    ([grayscale], [sepia], [reflect], [blur], [edges]), the helper [clamp],
    the namespaced variants of [image_filters] ([grayscale], [sepia],
    [reflect], [inBounds], [blur]) and the scanline padding of [main],
    together with [bmp::RgbTriple::toGrayscale] of [helpers.h], followed by
    the properties the specification states about them and by further
    properties of the code.

    Conventions of the embedding.
    - A [BYTE] is a [Z] in [0, 255]; an [int] is a [Z] (every intermediate
      value of the transforms stays far below 2^31, so no wrap-around is
      ever taken; the conversions that could leave the range check it).
    - [std::vector<std::vector<RGBTRIPLE>>] is a list of rows.  Element
      access outside the vector is undefined in C++; the embedding returns
      [None] there, so a function that returns [Some] never went out of
      range.
    - [double] is IEEE 754 binary64 and [float] is binary32, both taken from
      the standard library's executable specification [SpecFloat]; every
      arithmetic operation is rounded once, to nearest even, as the
      standard prescribes. *)

From Stdlib Require Import ZArith Lia Bool List.
From Stdlib Require Import Floats.SpecFloat.
From stdpp Require Import base option list.

Local Open Scope Z_scope.

(* ================================================================== *)
(** ** Counted loops *)

Section Loops.
Context {St : Type}.

(** [n] iterations of [body], the counter starting at [i]. *)
Fixpoint for_loop (n : nat) (i : Z) (body : Z → St → option St) (s : St)
  : option St :=
  match n with
  | O => Some s
  | S n' => s' ← body i s; for_loop n' (i + 1) body s'
  end.

(** [for (int i = lo; i < hi; ++i) body]. *)
Definition for_range (lo hi : Z) (body : Z → St → option St) (s : St)
  : option St :=
  for_loop (Z.to_nat (hi - lo)) lo body s.
End Loops.

(** A bounded universal quantifier that computes. *)
Fixpoint all_below (n : nat) (p : Z → bool) : bool :=
  match n with
  | O => true
  | S k => p (Z.of_nat k) && all_below k p
  end.

(* ================================================================== *)
(** ** Floating point *)

(** [std::round]: the nearest integral value, halfway cases away from zero.
    The result is returned as the integer it denotes; NaN and the infinities
    have none. *)
Definition round_half_away (x : spec_float) : option Z :=
  match x with
  | S754_zero _ => Some 0
  | S754_finite s m e =>
      let mag := if decide (0 ≤ e) then Z.pos m * 2 ^ e
                 else (Z.pos m + 2 ^ (- e - 1)) / 2 ^ (- e) in
      Some (if s then - mag else mag)
  | S754_infinity _ | S754_nan => None
  end.

(** [static_cast<int>(std::round(x))]: undefined outside the range of [int]. *)
Definition round_to_int (x : spec_float) : option Z :=
  z ← round_half_away x;
  if decide (- 2 ^ 31 ≤ z < 2 ^ 31) then Some z else None.

(** [static_cast<BYTE>(std::round(x))] on a floating value: undefined unless
    the value fits a byte. *)
Definition round_to_BYTE (x : spec_float) : option Z :=
  z ← round_half_away x;
  if decide (0 ≤ z ≤ 255) then Some z else None.

(** [static_cast<BYTE>(v)] on an [int]: reduction modulo 256. *)
Definition BYTE_of_int (v : Z) : Z := v mod 256.

(** C++ [double]. *)
Module double.
Definition prec : Z := 53.
Definition emax : Z := 1024.
Definition of_int (n : Z) : spec_float := binary_normalize prec emax n 0 false.
Definition add : spec_float → spec_float → spec_float := SFadd prec emax.
Definition mul : spec_float → spec_float → spec_float := SFmul prec emax.
Definition div : spec_float → spec_float → spec_float := SFdiv prec emax.
Definition sqrt : spec_float → spec_float := SFsqrt prec emax.
(** The decimal literal [num/1000], e.g. [0.393]: the double nearest to
    it, which is the correctly rounded quotient of two exact integers. *)
Definition milli (num : Z) : spec_float := div (of_int num) (of_int 1000).
(** [std::pow(x, 2)]: the correctly rounded square. *)
Definition pow2 (x : spec_float) : spec_float := mul x x.
End double.

(** C++ [float]. *)
Module float.
Definition prec : Z := 24.
Definition emax : Z := 128.
Definition of_int (n : Z) : spec_float := binary_normalize prec emax n 0 false.
Definition add : spec_float → spec_float → spec_float := SFadd prec emax.
Definition div : spec_float → spec_float → spec_float := SFdiv prec emax.
End float.

Global Arguments double.of_int : simpl never.
Global Arguments double.add : simpl never.
Global Arguments double.mul : simpl never.
Global Arguments double.div : simpl never.
Global Arguments double.sqrt : simpl never.
Global Arguments double.milli : simpl never.
Global Arguments double.pow2 : simpl never.
Global Arguments float.of_int : simpl never.
Global Arguments float.add : simpl never.
Global Arguments float.div : simpl never.
Global Arguments round_half_away : simpl never.

(* ================================================================== *)
(** ** Pixels and grids *)

Record RGBTRIPLE : Type := mkRGB {
  rgbtBlue : Z;
  rgbtGreen : Z;
  rgbtRed : Z
}.

(** The value-initialised triple of [std::vector<RGBTRIPLE>(width)]. *)
Definition RGBTRIPLE_zero : RGBTRIPLE := mkRGB 0 0 0.

Definition set_rgbtBlue (v : Z) (p : RGBTRIPLE) : RGBTRIPLE :=
  mkRGB v (rgbtGreen p) (rgbtRed p).
Definition set_rgbtGreen (v : Z) (p : RGBTRIPLE) : RGBTRIPLE :=
  mkRGB (rgbtBlue p) v (rgbtRed p).
Definition set_rgbtRed (v : Z) (p : RGBTRIPLE) : RGBTRIPLE :=
  mkRGB (rgbtBlue p) (rgbtGreen p) v.

(** [std::vector<std::vector<RGBTRIPLE>>]: the rows, top to bottom. *)
Abbreviation grid := (list (list RGBTRIPLE)).

(** [image[y][x]] as an rvalue. *)
Definition at_ (g : grid) (y x : Z) : option RGBTRIPLE :=
  if decide (0 ≤ y ∧ 0 ≤ x)
  then row ← g !! Z.to_nat y; row !! Z.to_nat x
  else None.

(** An assignment through [image[y][x]]: the element is replaced by [f] of
    itself. *)
Definition modify (g : grid) (y x : Z) (f : RGBTRIPLE → RGBTRIPLE)
  : option grid :=
  _ ← at_ g y x;
  Some (alter (alter f (Z.to_nat x)) (Z.to_nat y) g).

(** [std::vector<T>(n, x)]: a negative [int] count converts to a size no
    allocation can satisfy, and the constructor throws. *)
Definition vector_new {A} (n : Z) (x : A) : option (list A) :=
  if decide (0 ≤ n) then Some (replicate (Z.to_nat n) x) else None.

(** [std::swap(image[y][x1], image[y][x2])]. *)
Definition swap_at (g : grid) (y x1 x2 : Z) : option grid :=
  a ← at_ g y x1;
  b ← at_ g y x2;
  g ← modify g y x1 (λ _, b);
  modify g y x2 (λ _, a).

(** [copy[i][j] = image[i][j]] for the whole [height] by [width] range. *)
Definition copy_into (height width : Z) (src dst : grid) : option grid :=
  for_range 0 height (λ i dst,
    for_range 0 width (λ j dst,
      p ← at_ src i j;
      modify dst i j (λ _, p)) dst) dst.

(* ================================================================== *)
(** ** The transforms *)

(** Helper function for clamping values. *)
Definition clamp (value min max : Z) : Z :=
  if decide (value < min) then BYTE_of_int min
  else if decide (value > max) then BYTE_of_int max
  else BYTE_of_int value.

(** Convert image to grayscale. *)
Definition grayscale (height width : Z) (image : grid) : option grid :=
  for_range 0 height (λ row image,
    for_range 0 width (λ col image,
      p ← at_ image row col;
      average ← round_to_int
        (double.div
           (double.of_int (rgbtBlue p + rgbtRed p + rgbtGreen p))
           (double.of_int 3));
      image ← modify image row col (set_rgbtBlue (BYTE_of_int average));
      image ← modify image row col (set_rgbtRed (BYTE_of_int average));
      modify image row col (set_rgbtGreen (BYTE_of_int average))) image) image.

(** One row of the sepia matrix: [k1 * red + k2 * green + k3 * blue],
    evaluated left to right in [double], then [std::round] and the
    conversion to [int]. *)
Definition sepia_channel (k1 k2 k3 : Z) (p : RGBTRIPLE) : option Z :=
  round_to_int
    (double.add
       (double.add
          (double.mul (double.milli k1) (double.of_int (rgbtRed p)))
          (double.mul (double.milli k2) (double.of_int (rgbtGreen p))))
       (double.mul (double.milli k3) (double.of_int (rgbtBlue p)))).

(** Convert image to sepia. *)
Definition sepia (height width : Z) (image : grid) : option grid :=
  for_range 0 height (λ i image,
    for_range 0 width (λ j image,
      p ← at_ image i j;
      sepiaRed ← sepia_channel 393 769 189 p;
      sepiaGreen ← sepia_channel 349 686 168 p;
      sepiaBlue ← sepia_channel 272 534 131 p;
      let sepiaRed := Z.min sepiaRed 255 in
      let sepiaGreen := Z.min sepiaGreen 255 in
      let sepiaBlue := Z.min sepiaBlue 255 in
      let sepiaRed := Z.max sepiaRed 0 in
      let sepiaGreen := Z.max sepiaGreen 0 in
      let sepiaBlue := Z.max sepiaBlue 0 in
      image ← modify image i j (set_rgbtRed (BYTE_of_int sepiaRed));
      image ← modify image i j (set_rgbtGreen (BYTE_of_int sepiaGreen));
      modify image i j (set_rgbtBlue (BYTE_of_int sepiaBlue))) image) image.

(** Reflect image horizontally. *)
Definition reflect (height width : Z) (image : grid) : option grid :=
  for_range 0 height (λ i image,
    for_range 0 (width ÷ 2) (λ j image,
      swap_at image i j (width - j - 1)) image) image.

(** The accumulators of the 3x3 box: the three [int] totals and the
    [float] sample counter. *)
Record blur_acc : Type := mkBlurAcc {
  totalRed : Z;
  totalGreen : Z;
  totalBlue : Z;
  pixelCount : spec_float
}.

Definition blur_box (height width : Z) (image : grid) (i j : Z)
  : option blur_acc :=
  for_range (-1) 2 (λ dx acc,
    for_range (-1) 2 (λ dy acc,
      let neighborX := i + dx in
      let neighborY := j + dy in
      if decide (neighborX >= 0 ∧ neighborX < height ∧
                 neighborY >= 0 ∧ neighborY < width)
      then
        p ← at_ image neighborX neighborY;
        Some (mkBlurAcc (totalRed acc + rgbtRed p)
                        (totalGreen acc + rgbtGreen p)
                        (totalBlue acc + rgbtBlue p)
                        (float.add (pixelCount acc) (float.of_int 1)))
      else Some acc) acc)
    (mkBlurAcc 0 0 0 (float.of_int 0)).

(** Blur image using box blur algorithm. *)
Definition blur (height width : Z) (image : grid) : option grid :=
  row0 ← vector_new width RGBTRIPLE_zero;
  copy ← vector_new height row0;
  copy ← copy_into height width image copy;
  copy ← for_range 0 height (λ i copy,
    for_range 0 width (λ j copy,
      acc ← blur_box height width image i j;
      r ← round_to_BYTE (float.div (float.of_int (totalRed acc)) (pixelCount acc));
      copy ← modify copy i j (set_rgbtRed r);
      g ← round_to_BYTE (float.div (float.of_int (totalGreen acc)) (pixelCount acc));
      copy ← modify copy i j (set_rgbtGreen g);
      b ← round_to_BYTE (float.div (float.of_int (totalBlue acc)) (pixelCount acc));
      modify copy i j (set_rgbtBlue b)) copy) copy;
  copy_into height width copy image.

(** The kernels of the Sobel operator, row by row. *)
Definition Gx : list Z := [-1; 0; 1; -2; 0; 2; -1; 0; 1].
Definition Gy : list Z := [-1; -2; -1; 0; 0; 0; 1; 2; 1].

Record edge_acc : Type := mkEdgeAcc {
  GxRed : Z; GxBlue : Z; GxGreen : Z;
  GyRed : Z; GyBlue : Z; GyGreen : Z;
  kernel_position : Z
}.

Definition edges_box (height width : Z) (image : grid) (i j : Z)
  : option edge_acc :=
  for_range (i - 1) (i + 1 + 1) (λ y acc,
    for_range (j - 1) (j + 1 + 1) (λ x acc,
      acc ←
        (if decide (¬ (x < 0 ∨ x >= width ∨ y < 0 ∨ y >= height))
         then
           p ← at_ image y x;
           kx ← Gx !! Z.to_nat (kernel_position acc);
           ky ← Gy !! Z.to_nat (kernel_position acc);
           Some (mkEdgeAcc (GxRed acc + rgbtRed p * kx)
                           (GxBlue acc + rgbtBlue p * kx)
                           (GxGreen acc + rgbtGreen p * kx)
                           (GyRed acc + rgbtRed p * ky)
                           (GyBlue acc + rgbtBlue p * ky)
                           (GyGreen acc + rgbtGreen p * ky)
                           (kernel_position acc))
         else Some acc);
      Some (mkEdgeAcc (GxRed acc) (GxBlue acc) (GxGreen acc)
                      (GyRed acc) (GyBlue acc) (GyGreen acc)
                      (kernel_position acc + 1))) acc)
    (mkEdgeAcc 0 0 0 0 0 0 0).

(** [round(sqrt(pow(gx, 2) + pow(gy, 2)))] converted to [int], capped at
    255. *)
Definition edge_magnitude (gx gy : Z) : option Z :=
  v ← round_to_int
         (double.sqrt
            (double.add (double.pow2 (double.of_int gx))
                        (double.pow2 (double.of_int gy))));
  Some (if decide (v > 255) then 255 else v).

(** Detect edges. *)
Definition edges (height width : Z) (image : grid) : option grid :=
  row0 ← vector_new width RGBTRIPLE_zero;
  copy ← vector_new height row0;
  copy ← copy_into height width image copy;
  copy ← for_range 0 height (λ i copy,
    for_range 0 width (λ j copy,
      acc ← edges_box height width image i j;
      newRed ← edge_magnitude (GxRed acc) (GyRed acc);
      newBlue ← edge_magnitude (GxBlue acc) (GyBlue acc);
      newGreen ← edge_magnitude (GxGreen acc) (GyGreen acc);
      copy ← modify copy i j (set_rgbtRed (BYTE_of_int newRed));
      copy ← modify copy i j (set_rgbtBlue (BYTE_of_int newBlue));
      modify copy i j (set_rgbtGreen (BYTE_of_int newGreen))) copy) copy;
  copy_into height width copy image.

Module image_filters.

(** Grayscale: every pixel of every row, in place.  The early return on an
    empty image comes first; [width] is read from the first row and not
    used again. *)
Definition grayscale (image : grid) : option grid :=
  let height := Z.of_nat (length image) in
  if decide (height = 0) then Some image
  else
    row0 ← image !! 0%nat;
    let width := Z.of_nat (length row0) in
    mapM (λ row,
      mapM (λ pixel,
        v ← round_to_int
               (double.div
                  (double.of_int (rgbtRed pixel + rgbtGreen pixel + rgbtBlue pixel))
                  (double.of_int 3));
        let gray := clamp v 0 255 in
        Some (set_rgbtRed gray (set_rgbtGreen gray (set_rgbtBlue gray pixel))))
        row) image.

(** Sepia: every pixel of every row, in place. *)
Definition sepia (image : grid) : option grid :=
  mapM (λ row,
    mapM (λ pixel,
      sepiaRed ← sepia_channel 393 769 189 pixel;
      sepiaGreen ← sepia_channel 349 686 168 pixel;
      sepiaBlue ← sepia_channel 272 534 131 pixel;
      let pixel := set_rgbtRed (clamp sepiaRed 0 255) pixel in
      let pixel := set_rgbtGreen (clamp sepiaGreen 0 255) pixel in
      Some (set_rgbtBlue (clamp sepiaBlue 0 255) pixel))
      row) image.

(** Reflect: [std::reverse] on every row. *)
Definition reflect (image : grid) : option grid :=
  Some (reverse <$> image).

(** Blur with bounds checking helper. *)
Definition inBounds (x y height width : Z) : bool :=
  bool_decide (x >= 0) && bool_decide (x < height) &&
  bool_decide (y >= 0) && bool_decide (y < width).

Record acc : Type := mkAcc {
  totalRed : Z;
  totalGreen : Z;
  totalBlue : Z;
  count : Z
}.

Definition blur_box (height width : Z) (image : grid) (i j : Z)
  : option acc :=
  for_range (-1) 2 (λ dx a,
    for_range (-1) 2 (λ dy a,
      let nx := i + dx in
      let ny := j + dy in
      if inBounds nx ny height width
      then
        p ← at_ image nx ny;
        Some (mkAcc (totalRed a + rgbtRed p)
                    (totalGreen a + rgbtGreen p)
                    (totalBlue a + rgbtBlue p)
                    (count a + 1))
      else Some a) a)
    (mkAcc 0 0 0 0).

(** [clamp(static_cast<int>(std::round(static_cast<float>(total) / count)), 0, 255)] *)
Definition mean_byte (total count : Z) : option Z :=
  v ← round_to_int (float.div (float.of_int total) (float.of_int count));
  Some (clamp v 0 255).

Definition blur (image : grid) : option grid :=
  let height := Z.of_nat (length image) in
  if decide (height = 0) then Some image
  else
    row0 ← image !! 0%nat;
    let width := Z.of_nat (length row0) in
    let copy := image in
    copy ← for_range 0 height (λ i copy,
      for_range 0 width (λ j copy,
        a ← blur_box height width image i j;
        r ← mean_byte (totalRed a) (count a);
        copy ← modify copy i j (set_rgbtRed r);
        g ← mean_byte (totalGreen a) (count a);
        copy ← modify copy i j (set_rgbtGreen g);
        b ← mean_byte (totalBlue a) (count a);
        modify copy i j (set_rgbtBlue b)) copy) copy;
    Some copy.

End image_filters.

(* ================================================================== *)
(** ** Well-formed grids *)

(** The grid has [h] rows of [w] pixels each. *)
Definition dims (h w : Z) (g : grid) : Prop :=
  0 ≤ w ∧ Z.of_nat (length g) = h ∧
  Forall (λ row, Z.of_nat (length row) = w) g.

Definition is_BYTE (v : Z) : Prop := 0 ≤ v ≤ 255.

Definition pixel_ok (p : RGBTRIPLE) : Prop :=
  is_BYTE (rgbtBlue p) ∧ is_BYTE (rgbtGreen p) ∧ is_BYTE (rgbtRed p).

(** A structurally valid grid: rectangular, every channel a byte. *)
Definition valid (h w : Z) (g : grid) : Prop :=
  dims h w g ∧ Forall (Forall pixel_ok) g.

(** Every pixel of the grid is [c]. *)
Definition uniform (c : RGBTRIPLE) (g : grid) : Prop :=
  Forall (Forall (λ p, p = c)) g.


(* ================================================================== *)
(** ** The scanline padding of [main] *)

(** The conversion of an [int] to [size_t] (64 bits). *)
Definition size_t_of_int (v : Z) : Z := v mod 2 ^ 64.

(** [int padding = (4 - (width * sizeof(RGBTRIPLE)) % 4) % 4], computed in
    [size_t] with its wrap-around; the result is below 4 and converts to
    [int] unchanged. *)
Definition padding (width : Z) : Z :=
  let row_bytes := (size_t_of_int width * 3) mod 2 ^ 64 in
  ((4 - row_bytes mod 4) mod 2 ^ 64) mod 4.

(* ================================================================== *)
(** ** The alternative pixel type of [helpers.h] *)

(** The conversion of a [double] to an integer type: truncation toward
    zero. *)
Definition truncate (x : spec_float) : option Z :=
  match x with
  | S754_zero _ => Some 0
  | S754_finite s m e =>
      let mag := if decide (0 ≤ e) then Z.pos m * 2 ^ e
                 else Z.pos m / 2 ^ (- e) in
      Some (if s then - mag else mag)
  | S754_infinity _ | S754_nan => None
  end.

(** [static_cast<byte>(x)] on a [double]: undefined unless the truncated
    value fits a byte. *)
Definition double_to_BYTE (x : spec_float) : option Z :=
  z ← truncate x;
  if decide (0 ≤ z ≤ 255) then Some z else None.

Module bmp.

Record RgbTriple : Type := mkRgbTriple {
  blue : Z;
  green : Z;
  red : Z
}.

(** Conversion to grayscale: the weighted sum in [double], truncated. *)
Definition toGrayscale (p : RgbTriple) : option Z :=
  double_to_BYTE
    (double.add
       (double.add
          (double.mul (double.milli 299) (double.of_int (red p)))
          (double.mul (double.milli 587) (double.of_int (green p))))
       (double.mul (double.milli 114) (double.of_int (blue p)))).

End bmp.

Global Arguments truncate : simpl never.

(* ================================================================== *)
(** ** Vocabulary of the specification *)

(** The quotient [num / den] rounded to the nearest integer, a tie going
    upward. *)
Definition round_half_up_div (num den : Z) : Z := (2 * num + den) / (2 * den).

(** [v] is an integer nearest to the rational [num / den]; on a tie both
    neighbours qualify. *)
Definition nearest_to (num den v : Z) : Prop :=
  2 * Z.abs (den * v - num) ≤ den.

(** [v] is the integer nearest to the square root of [n]: the root lies
    strictly between [v - 1/2] and [v + 1/2] (it is never halfway). *)
Definition nearest_to_sqrt (n v : Z) : Prop :=
  0 ≤ v ∧
  (0 < v → (2 * v - 1) * (2 * v - 1) < 4 * n) ∧
  4 * n < (2 * v + 1) * (2 * v + 1).

(** Clamping to the byte range. *)
Definition clamp_byte (v : Z) : Z := Z.max 0 (Z.min v 255).

(** The nine positions of the 3x3 window around [(i, j)], row by row. *)
Definition positions (i j : Z) : list (Z * Z) :=
  y ← [i - 1; i; i + 1]; x ← [j - 1; j; j + 1]; [(y, x)].

(** A position that lies inside an [h] by [w] grid. *)
Definition inside (h w : Z) (yx : Z * Z) : Prop :=
  0 ≤ yx.1 < h ∧ 0 ≤ yx.2 < w.

(** The positions of the window that lie inside the grid: the samples
    [blur] averages. *)
Definition window (h w i j : Z) : list (Z * Z) :=
  filter (inside h w) (positions i j).

(** The sum of one channel over a list of positions. *)
Definition channel_sum (chan : RGBTRIPLE → Z) (g : grid) (ps : list (Z * Z)) : Z :=
  foldr (λ yx acc, from_option chan 0 (at_ g yx.1 yx.2) + acc) 0 ps.

(** One channel at [(y, x)], a position outside the grid reading as 0. *)
Definition channel_or_0 (chan : RGBTRIPLE → Z) (g : grid) (y x : Z) : Z :=
  from_option chan 0 (at_ g y x).

(** The Sobel sums written out: the horizontal and the vertical kernel
    applied to the values [v y x] around [(i, j)]. *)
Definition sobel_x (v : Z → Z → Z) (i j : Z) : Z :=
  - v (i - 1) (j - 1) + v (i - 1) (j + 1)
  - 2 * v i (j - 1) + 2 * v i (j + 1)
  - v (i + 1) (j - 1) + v (i + 1) (j + 1).

Definition sobel_y (v : Z → Z → Z) (i j : Z) : Z :=
  - v (i - 1) (j - 1) - 2 * v (i - 1) j - v (i - 1) (j + 1)
  + v (i + 1) (j - 1) + 2 * v (i + 1) j + v (i + 1) (j + 1).

(* ================================================================== *)
(** ** Checkers evaluated once over a finite range *)

Global Instance spec_float_eq_dec : EqDecision spec_float.
Proof. solve_decision. Defined.

(** [round(s / 3.0)] agrees with the half-up quotient. *)
Definition gray_check (s : Z) : bool :=
  bool_decide (round_to_int (double.div (double.of_int s) (double.of_int 3))
               = Some (round_half_up_div s 3)).

(** One more sample in the [float] counter. *)
Definition count_check (k : Z) : bool :=
  bool_decide (float.add (float.of_int k) (float.of_int 1) = float.of_int (k + 1)).

(** [round(t / k)] in [float] agrees with the half-up quotient, for a
    total [t] of at most [k] bytes. *)
Definition mean_check (k' : Z) : bool :=
  let k := k' + 1 in
  all_below (Z.to_nat (255 * k + 1)) (λ t,
    bool_decide (round_half_away (float.div (float.of_int t) (float.of_int k))
                 = Some (round_half_up_div t k))).

(* ================================================================== *)
(** ** Auxiliary views of the loop bodies *)

(** The gray level of a pixel. *)
Definition gray_value (p : RGBTRIPLE) : Z :=
  round_half_up_div (rgbtBlue p + rgbtRed p + rgbtGreen p) 3.

(** One visit of [blur]'s inner loop, as a total function. *)
Definition blur_add (h w : Z) (g : grid) (acc : blur_acc) (yx : Z * Z)
  : blur_acc :=
  if decide (inside h w yx) then
    let p := default RGBTRIPLE_zero (at_ g yx.1 yx.2) in
    mkBlurAcc (totalRed acc + rgbtRed p) (totalGreen acc + rgbtGreen p)
              (totalBlue acc + rgbtBlue p)
              (float.add (pixelCount acc) (float.of_int 1))
  else acc.

(** The same for [image_filters::blur]. *)
Definition ns_blur_add (h w : Z) (g : grid) (a : image_filters.acc)
    (yx : Z * Z) : image_filters.acc :=
  if decide (inside h w yx) then
    let p := default RGBTRIPLE_zero (at_ g yx.1 yx.2) in
    image_filters.mkAcc
      (image_filters.totalRed a + rgbtRed p)
      (image_filters.totalGreen a + rgbtGreen p)
      (image_filters.totalBlue a + rgbtBlue p)
      (image_filters.count a + 1)
  else a.

(** The mean of one channel over the window of [(i, j)], rounded. *)
Definition window_mean (chan : RGBTRIPLE → Z) (h w : Z) (g : grid) (i j : Z)
  : Z :=
  round_half_up_div (channel_sum chan g (window h w i j))
                    (Z.of_nat (length (window h w i j))).

(** The pixel [blur] writes at [(i, j)]. *)
Definition blur_pixel (h w : Z) (g : grid) (i j : Z) : RGBTRIPLE :=
  mkRGB (window_mean rgbtBlue h w g i j)
        (window_mean rgbtGreen h w g i j)
        (window_mean rgbtRed h w g i j).

(* ================================================================== *)
(** ** Doubles on a fixed-point scale *)

(** The value of a non-negative double in units of [2^-60]. *)
Definition sv60 (x : spec_float) : Z :=
  match x with
  | S754_finite false m e => Z.pos m * 2 ^ (e + 60)
  | _ => 0
  end.

(** A non-negative double below 1024 that is a multiple of [2^-60]: zero,
    or a full 53-bit mantissa with a small negative exponent. *)
Definition canon60 (x : spec_float) : Prop :=
  x = S754_zero false ∨
  ∃ m e, x = S754_finite false m e ∧
         2 ^ 52 ≤ Z.pos m < 2 ^ 53 ∧ -60 ≤ e ≤ -43.

(** The product [0.nnn * r] is within [2^-33 / 1000] of [n * r / 1000]. *)
Definition product_check (n r : Z) : bool :=
  match double.mul (double.milli n) (double.of_int r) with
  | S754_zero false => bool_decide (r = 0)
  | S754_finite false m e =>
      bool_decide (2 ^ 52 ≤ Z.pos m < 2 ^ 53 ∧ -60 ≤ e ≤ -43 ∧
                   Z.abs (1000 * (Z.pos m * 2 ^ (e + 60)) - n * r * 2 ^ 60)
                   ≤ 2 ^ 27)
  | _ => false
  end.

Definition sepia_coefficients : list Z :=
  [393; 769; 189; 349; 686; 168; 272; 534; 131].

(** The square of a Sobel sum is computed exactly. *)
Definition square_check (k : Z) : bool :=
  let a := k - 1020 in
  bool_decide (double.pow2 (double.of_int a) = double.of_int (a * a)).

(** The byte [sepia] stores for one row of the matrix. *)
Definition sepia_value (k1 k2 k3 : Z) (p : RGBTRIPLE) : Z :=
  clamp_byte (default 0 (sepia_channel k1 k2 k3 p)).

(** The pixel [sepia] writes in place of [p]. *)
Definition sepia_pixel (p : RGBTRIPLE) : RGBTRIPLE :=
  mkRGB (sepia_value 272 534 131 p)
        (sepia_value 349 686 168 p)
        (sepia_value 393 769 189 p).

(** One visit of [edges]'s inner loop with kernel weights [kx], [ky], as a
    total function: a position outside the grid contributes a zero term. *)
Definition edge_step (g : grid) (kx ky y x : Z) (acc : edge_acc) : edge_acc :=
  mkEdgeAcc (GxRed acc + channel_or_0 rgbtRed g y x * kx)
            (GxBlue acc + channel_or_0 rgbtBlue g y x * kx)
            (GxGreen acc + channel_or_0 rgbtGreen g y x * kx)
            (GyRed acc + channel_or_0 rgbtRed g y x * ky)
            (GyBlue acc + channel_or_0 rgbtBlue g y x * ky)
            (GyGreen acc + channel_or_0 rgbtGreen g y x * ky)
            (kernel_position acc + 1).

(** The byte [edges] stores for one channel at [(i, j)]. *)
Definition edge_value (chan : RGBTRIPLE → Z) (g : grid) (i j : Z) : Z :=
  default 0 (edge_magnitude (sobel_x (channel_or_0 chan g) i j)
                            (sobel_y (channel_or_0 chan g) i j)).

(** The pixel [edges] writes at [(i, j)]. *)
Definition edges_pixel (g : grid) (i j : Z) : RGBTRIPLE :=
  mkRGB (edge_value rgbtBlue g i j)
        (edge_value rgbtGreen g i j)
        (edge_value rgbtRed g i j).

(** [v] is the byte stored for the mean [num / den]: the quotient rounded
    to nearest (a tie upward), clamped to [0, 255]. *)
Definition rounded_mean (num den v : Z) : Prop :=
  v = clamp_byte (round_half_up_div num den) ∧
  nearest_to num den (round_half_up_div num den).

(* ================================================================== *)
(** ** Sample grids *)

(** A 2x2 grid of four different pixels. *)
Definition sample_grid : grid :=
  [[mkRGB 30 20 10; mkRGB 60 50 40]; [mkRGB 90 80 70; mkRGB 120 110 100]].

(** A 1x2 grid of one colour. *)
Definition flat_grid : grid := [[mkRGB 1 1 1; mkRGB 1 1 1]].

(* ================================================================== *)
(** ** Further auxiliary views *)

(** The coefficients of [toGrayscale], in thousandths. *)
Definition gray_coefficients : list Z := [299; 587; 114].

(** The pixel [grayscale] writes in place of [p]. *)
Definition gray_pixel (p : RGBTRIPLE) : RGBTRIPLE :=
  let v := round_half_up_div (rgbtBlue p + rgbtRed p + rgbtGreen p) 3 in
  mkRGB v v v.

(** The sum of the nine values [v y x] around [(i, j)]. *)
Definition sum9 (v : Z → Z → Z) (i j : Z) : Z :=
  v (i - 1) (j - 1) + v (i - 1) j + v (i - 1) (j + 1)
  + v i (j - 1) + v i j + v i (j + 1)
  + v (i + 1) (j - 1) + v (i + 1) j + v (i + 1) (j + 1).

(** Applying a pixel function at every position of a grid. *)
Definition map_pixels (F : RGBTRIPLE → RGBTRIPLE) (g : grid) : grid :=
  (λ row : list RGBTRIPLE, F <$> row) <$> g.

(** A pixel whose three channels are equal. *)
Definition is_gray (p : RGBTRIPLE) : Prop :=
  rgbtBlue p = rgbtGreen p ∧ rgbtGreen p = rgbtRed p.

(** The number of the indices [k - 1], [k], [k + 1] that lie in [0, n),
    for an index [k] of that range. *)
Definition span (n k : Z) : Z :=
  (if decide (0 < k) then 1 else 0) + 1 + (if decide (k < n - 1) then 1 else 0).


(** A 3x3 grid of nine different pixels. *)
Definition sample_grid3 : grid :=
  [[mkRGB 30 20 10; mkRGB 60 50 40; mkRGB 90 80 70];
   [mkRGB 120 110 100; mkRGB 150 140 130; mkRGB 180 170 160];
   [mkRGB 210 200 190; mkRGB 240 230 220; mkRGB 255 250 245]].


(** A grid of a single row of three pixels. *)
Definition row_grid : grid :=
  [[mkRGB 0 0 0; mkRGB 30 60 90; mkRGB 90 120 150]].
(* ================================================================== *)
(** ** Loop rules *)

Section LoopFacts.
Context {St : Type}.
Implicit Types (body : Z → St → option St) (I : Z → St → Prop).

Lemma for_loop_inv I body n lo s :
  I lo s →
  (∀ i t, lo ≤ i < lo + Z.of_nat n → I i t →
          ∃ t', body i t = Some t' ∧ I (i + 1) t') →
  ∃ s', for_loop n lo body s = Some s' ∧ I (lo + Z.of_nat n) s'.
Proof.
  revert lo s. induction n as [|n IH]; intros lo s HI Hstep.
  - exists s. split; [done|]. by replace (lo + Z.of_nat 0) with lo by lia.
  - destruct (Hstep lo s) as (s1 & Hb & HI1); [lia|done|].
    destruct (IH (lo + 1) s1) as (s2 & Hl & HI2); [done| |].
    + intros i t ? ?. apply Hstep; [lia|done].
    + exists s2. simpl. rewrite Hb. simpl. split; [done|].
      by replace (lo + Z.of_nat (S n)) with (lo + 1 + Z.of_nat n) by lia.
Qed.

(** Total correctness of a counted loop from an invariant. *)
Lemma for_range_inv I body lo hi s :
  lo ≤ hi → I lo s →
  (∀ i t, lo ≤ i < hi → I i t → ∃ t', body i t = Some t' ∧ I (i + 1) t') →
  ∃ s', for_range lo hi body s = Some s' ∧ I hi s'.
Proof.
  intros Hle HI Hstep. unfold for_range.
  destruct (for_loop_inv I body (Z.to_nat (hi - lo)) lo s) as (s' & ? & Hs');
    [done| |].
  - intros i t ? ?. apply Hstep; [lia|done].
  - exists s'. split; [done|].
    by replace (lo + Z.of_nat (Z.to_nat (hi - lo))) with hi in Hs' by lia.
Qed.

End LoopFacts.

(* ================================================================== *)
(** ** Grid access *)

Lemma dims_row h w g y row :
  dims h w g → g !! y = Some row → Z.of_nat (length row) = w.
Proof.
  intros (_ & _ & Hrows) Hy. rewrite Forall_lookup in Hrows. by eapply Hrows.
Qed.

Lemma at_Some h w g y x :
  dims h w g → 0 ≤ y < h → 0 ≤ x < w → is_Some (at_ g y x).
Proof.
  intros Hd Hy Hx. unfold at_. rewrite decide_True by lia.
  destruct (lookup_lt_is_Some_2 g (Z.to_nat y)) as [row Hrow].
  { destruct Hd as (_ & ? & _). lia. }
  rewrite Hrow. simpl. apply lookup_lt_is_Some_2.
  pose proof (dims_row _ _ _ _ _ Hd Hrow). lia.
Qed.

Lemma at_inv h w g y x p :
  dims h w g → at_ g y x = Some p → 0 ≤ y < h ∧ 0 ≤ x < w.
Proof.
  intros Hd. unfold at_. case_decide; [|done].
  destruct (g !! Z.to_nat y) as [row|] eqn:Hrow; [simpl|done]. intros Hx.
  pose proof (dims_row _ _ _ _ _ Hd Hrow).
  apply lookup_lt_Some in Hrow, Hx. destruct Hd as (_ & ? & _). lia.
Qed.

(** Two grids of the same shape with the same pixels are equal. *)
Lemma grid_ext h w (a b : grid) :
  dims h w a → dims h w b →
  (∀ y x, 0 ≤ y < h → 0 ≤ x < w → at_ a y x = at_ b y x) →
  a = b.
Proof.
  intros Ha Hb Heq. apply list_eq. intros y.
  destruct (a !! y) as [ra|] eqn:Hra, (b !! y) as [rb|] eqn:Hrb.
  - f_equal. apply list_eq. intros x.
    pose proof (dims_row _ _ _ _ _ Ha Hra) as Hla.
    pose proof (dims_row _ _ _ _ _ Hb Hrb) as Hlb.
    pose proof (lookup_lt_Some _ _ _ Hra) as Hy.
    destruct Ha as (_ & Hh & _).
    destruct (decide (x < length ra)%nat) as [Hx|Hx].
    + specialize (Heq (Z.of_nat y) (Z.of_nat x)). unfold at_ in Heq.
      rewrite !decide_True, !Nat2Z.id, Hra, Hrb in Heq by lia.
      simpl in Heq. apply Heq; lia.
    + rewrite !lookup_ge_None_2 by lia. done.
  - apply lookup_lt_Some in Hra. apply lookup_ge_None in Hrb.
    destruct Ha as (_ & ? & _), Hb as (_ & ? & _). lia.
  - apply lookup_lt_Some in Hrb. apply lookup_ge_None in Hra.
    destruct Ha as (_ & ? & _), Hb as (_ & ? & _). lia.
  - done.
Qed.

Lemma dims_alter h w g y x f :
  dims h w g → dims h w (alter (alter f x) y g).
Proof.
  intros (Hw & Hh & Hrows). split; [done|]. split.
  - by rewrite length_alter.
  - apply Forall_alter; [done|]. intros row _ Hrow. by rewrite length_alter.
Qed.

Lemma at_alter g y x f y' x' :
  0 ≤ y → 0 ≤ x →
  at_ (alter (alter f (Z.to_nat x)) (Z.to_nat y) g) y' x' =
  if decide (y' = y ∧ x' = x) then f <$> at_ g y' x' else at_ g y' x'.
Proof.
  intros Hy Hx. unfold at_. case_decide as Hpos.
  - destruct (decide (y' = y)) as [->|Hny].
    + rewrite list_lookup_alter_eq. destruct (g !! Z.to_nat y) as [row|]; simpl.
      * destruct (decide (x' = x)) as [->|Hnx].
        -- rewrite list_lookup_alter_eq. by rewrite decide_True.
        -- rewrite list_lookup_alter_ne by lia. by rewrite decide_False by tauto.
      * by case_decide.
    + rewrite list_lookup_alter_ne by lia. by rewrite decide_False by tauto.
  - by case_decide.
Qed.

(** What an assignment through [g[y][x]] does. *)
Lemma modify_Some h w g y x f p :
  dims h w g → at_ g y x = Some p →
  ∃ g', modify g y x f = Some g' ∧ dims h w g' ∧
        at_ g' y x = Some (f p) ∧
        ∀ y' x', ¬ (y' = y ∧ x' = x) → at_ g' y' x' = at_ g y' x'.
Proof.
  intros Hd Hat. pose proof (at_inv _ _ _ _ _ _ Hd Hat) as [? ?].
  eexists. unfold modify. rewrite Hat. simpl. split; [done|].
  split; [by apply dims_alter|]. split.
  - rewrite at_alter by lia. rewrite decide_True by done. by rewrite Hat.
  - intros y' x' Hne. rewrite at_alter by lia. by rewrite decide_False.
Qed.

(** Consecutive assignments to the fields of one element compose. *)
Lemma modify_modify g y x f1 f2 :
  (g' ← modify g y x f1; modify g' y x f2) = modify g y x (f2 ∘ f1).
Proof.
  unfold modify. destruct (at_ g y x) as [p|] eqn:Hat; [simpl|done].
  assert (0 ≤ y ∧ 0 ≤ x) as [? ?].
  { unfold at_ in Hat. by case_decide. }
  rewrite at_alter by lia. rewrite decide_True by done. rewrite Hat. simpl.
  f_equal. rewrite list_alter_alter_eq. apply list_alter_ext; [|done].
  intros row _. simpl. by rewrite list_alter_alter_eq.
Qed.

(* ================================================================== *)
(** ** Pixel-by-pixel passes over a grid *)

Lemma fmap_if_ext (A B : Prop) `{!Decision A, !Decision B}
    (u v : RGBTRIPLE → RGBTRIPLE) (o : option RGBTRIPLE) :
  (is_Some o → (A ↔ B)) →
  (if decide A then u else v) <$> o = (if decide B then u else v) <$> o.
Proof.
  intros Hiff. destruct o as [p|]; [|done].
  destruct (Hiff (ltac:(eauto))) as [? ?]. by repeat case_decide; try tauto.
Qed.

Section GridLoop.
Variables (h w : Z).
Variable body : Z → Z → grid → option grid.
Variable f : Z → Z → RGBTRIPLE → RGBTRIPLE.
Variable g0 : grid.
Hypothesis Hd0 : dims h w g0.
Hypothesis Hbody : ∀ i j g,
  0 ≤ i < h → 0 ≤ j < w → dims h w g → at_ g i j = at_ g0 i j →
  body i j g = modify g i j (f i j).

Let row_inv (i j : Z) (g : grid) : Prop :=
  dims h w g ∧
  ∀ y x, at_ g y x =
         (if decide (y < i ∨ (y = i ∧ x < j)) then f y x else id)
           <$> at_ g0 y x.

Let grid_inv (i : Z) (g : grid) : Prop :=
  dims h w g ∧
  ∀ y x, at_ g y x = (if decide (y < i) then f y x else id) <$> at_ g0 y x.

Lemma grid_loop_row i g :
  0 ≤ i < h → grid_inv i g →
  ∃ g', for_range 0 w (λ j g, body i j g) g = Some g' ∧ grid_inv (i + 1) g'.
Proof using Hd0 Hbody.
  intros Hi [Hd Hg].
  destruct (for_range_inv (row_inv i) (λ j g, body i j g) 0 w g)
    as (g' & Hrun & Hd' & Hg').
  - by destruct Hd.
  - split; [done|]. intros y x. rewrite Hg. apply fmap_if_ext.
    intros [p Hp]. apply (at_inv _ _ _ _ _ _ Hd0) in Hp. lia.
  - intros j t Hj [Hdt Ht].
    destruct (at_Some _ _ _ i j Hd0) as [p Hp]; [done..|].
    assert (at_ t i j = at_ g0 i j) as Hsame.
    { rewrite Ht, decide_False by lia. by destruct (at_ g0 i j). }
    rewrite Hbody by done.
    destruct (modify_Some h w t i j (f i j) p) as (t' & Hm & Hdt' & Hnew & Hold);
      [done|by rewrite Hsame|].
    exists t'. split; [done|]. split; [done|]. intros y x.
    destruct (decide (y = i ∧ x = j)) as [[-> ->]|Hne].
    + rewrite Hnew, Hp, decide_True by lia. done.
    + rewrite Hold, Ht by done. apply fmap_if_ext. intros _. lia.
  - exists g'. split; [done|]. split; [done|]. intros y x. rewrite Hg'.
    apply fmap_if_ext. intros [p Hp].
    apply (at_inv _ _ _ _ _ _ Hd0) in Hp. lia.
Qed.

(** A double loop whose body assigns [f i j] of the element to
    [g[i][j]] runs to completion on a well-shaped grid and maps [f] over
    it. *)
Lemma grid_loop :
  ∃ g', for_range 0 h (λ i g, for_range 0 w (λ j g, body i j g) g) g0
        = Some g' ∧
        dims h w g' ∧
        ∀ i j p, at_ g0 i j = Some p → at_ g' i j = Some (f i j p).
Proof using Hd0 Hbody.
  destruct (for_range_inv grid_inv
              (λ i g, for_range 0 w (λ j g, body i j g) g) 0 h g0)
    as (g' & Hrun & Hd' & Hg').
  - destruct Hd0 as (_ & ? & _). lia.
  - split; [done|]. intros y x.
    destruct (at_ g0 y x) as [p|] eqn:Hp; [|done].
    apply (at_inv _ _ _ _ _ _ Hd0) in Hp. by rewrite decide_False by lia.
  - intros i t Hi Hinv. by apply grid_loop_row.
  - exists g'. split; [done|]. split; [done|]. intros i j p Hp.
    rewrite Hg', Hp. apply (at_inv _ _ _ _ _ _ Hd0) in Hp.
    by rewrite decide_True by lia.
Qed.
End GridLoop.

Lemma at_default h w g y x :
  dims h w g → 0 ≤ y < h → 0 ≤ x < w →
  at_ g y x = Some (default RGBTRIPLE_zero (at_ g y x)).
Proof. intros Hd Hy Hx. by destruct (at_Some _ _ _ y x Hd Hy Hx) as [p ->]. Qed.

(** The element-wise copy loop leaves the destination equal to the
    source. *)
Lemma copy_into_spec h w src dst :
  dims h w src → dims h w dst → copy_into h w src dst = Some src.
Proof.
  intros Hs Hd. unfold copy_into.
  destruct (grid_loop h w (λ i j dst, p ← at_ src i j; modify dst i j (λ _, p))
              (λ i j _, default RGBTRIPLE_zero (at_ src i j)) dst Hd)
    as (g' & Hrun & Hd' & Hg').
  - intros i j g Hi Hj _ _. by rewrite (at_default h w src i j).
  - rewrite Hrun. f_equal. apply (grid_ext h w); [done..|].
    intros y x Hy Hx. destruct (at_Some _ _ _ y x Hd Hy Hx) as [p Hp].
    rewrite (Hg' _ _ _ Hp). symmetry. by apply (at_default h w).
Qed.

Lemma dims_replicate h w (p : RGBTRIPLE) :
  0 ≤ h → 0 ≤ w →
  dims h w (replicate (Z.to_nat h) (replicate (Z.to_nat w) p)).
Proof.
  intros Hh Hw. split; [done|]. split.
  - rewrite length_replicate. lia.
  - apply Forall_replicate. rewrite length_replicate. lia.
Qed.

(* ================================================================== *)
(** ** Reflect *)

Lemma swap_at_Some h w g y x1 x2 a b :
  dims h w g → x1 ≠ x2 → at_ g y x1 = Some a → at_ g y x2 = Some b →
  ∃ g', swap_at g y x1 x2 = Some g' ∧ dims h w g' ∧
        at_ g' y x1 = Some b ∧ at_ g' y x2 = Some a ∧
        ∀ y' x', ¬ (y' = y ∧ (x' = x1 ∨ x' = x2)) → at_ g' y' x' = at_ g y' x'.
Proof.
  intros Hd Hne Ha Hb. unfold swap_at. rewrite Ha, Hb. simpl.
  destruct (modify_Some h w g y x1 (λ _, b) a Hd Ha)
    as (g1 & -> & Hd1 & Hn1 & Ho1). simpl.
  assert (at_ g1 y x2 = Some b) as Hb1 by (rewrite Ho1; [done|lia]).
  destruct (modify_Some h w g1 y x2 (λ _, a) b Hd1 Hb1)
    as (g2 & -> & Hd2 & Hn2 & Ho2).
  exists g2. split; [done|]. split; [done|]. split.
  - rewrite Ho2; [done|lia].
  - split; [done|]. intros y' x' Hn. rewrite Ho2, Ho1; [done|lia..].
Qed.

Section ReflectLoop.
Variables (h w : Z) (g0 : grid).
Hypothesis Hd0 : dims h w g0.

Let mirror (y x : Z) : option RGBTRIPLE := at_ g0 y (w - 1 - x).

Let row_inv (i j : Z) (g : grid) : Prop :=
  dims h w g ∧
  ∀ y x, at_ g y x =
         if decide (y < i ∨ (y = i ∧ (x < j ∨ w - j ≤ x)))
         then mirror y x else at_ g0 y x.

Let grid_inv (i : Z) (g : grid) : Prop :=
  dims h w g ∧
  ∀ y x, at_ g y x = if decide (y < i) then mirror y x else at_ g0 y x.

Lemma mirror_fixed y x : 2 * x = w - 1 → mirror y x = at_ g0 y x.
Proof. intros Hx. unfold mirror. f_equal. lia. Qed.

Lemma mirror_outside y x : ¬ (0 ≤ x < w) → mirror y x = at_ g0 y x.
Proof using Hd0.
  intros Hx. unfold mirror.
  destruct (at_ g0 y (w - 1 - x)) as [p|] eqn:Hp.
  { apply (at_inv _ _ _ _ _ _ Hd0) in Hp. lia. }
  destruct (at_ g0 y x) as [p|] eqn:Hq; [|done].
  apply (at_inv _ _ _ _ _ _ Hd0) in Hq. lia.
Qed.

Lemma reflect_row i g :
  0 ≤ i < h → grid_inv i g →
  ∃ g', for_range 0 (w ÷ 2) (λ j g, swap_at g i j (w - j - 1)) g = Some g' ∧
        grid_inv (i + 1) g'.
Proof using Hd0.
  intros Hi [Hd Hg]. pose proof Hd0 as (Hw & _ & _).
  assert (w ÷ 2 = w / 2) as Hq by (by rewrite Z.quot_div_nonneg by lia).
  assert (2 * (w / 2) ≤ w < 2 * (w / 2) + 2) as Hhalf.
  { pose proof (Z.div_mod w 2). pose proof (Z.mod_pos_bound w 2). lia. }
  rewrite Hq.
  destruct (for_range_inv (row_inv i)
              (λ j g, swap_at g i j (w - j - 1)) 0 (w / 2) g)
    as (g' & Hrun & Hd' & Hg').
  - lia.
  - split; [done|]. intros y x. rewrite Hg.
    destruct (decide (y < i)) as [Hy|Hy].
    + by rewrite decide_True by lia.
    + destruct (decide (0 ≤ x < w)) as [Hx|Hx].
      * by rewrite decide_False by lia.
      * rewrite mirror_outside by done. by case_decide.
  - intros j t Hj [Hdt Ht].
    destruct (at_Some _ _ _ i j Hd0) as [a Ha]; [lia..|].
    destruct (at_Some _ _ _ i (w - j - 1) Hd0) as [b Hb]; [lia..|].
    destruct (swap_at_Some h w t i j (w - j - 1) a b)
      as (t' & Hs & Hdt' & Hn1 & Hn2 & Hold); [done|lia| | |].
    { rewrite Ht. by rewrite decide_False by lia. }
    { rewrite Ht. by rewrite decide_False by lia. }
    exists t'. split; [done|]. split; [done|]. intros y x.
    destruct (decide (y = i ∧ x = j)) as [[-> ->]|Hne1].
    { rewrite Hn1, decide_True by lia. unfold mirror.
      rewrite <- Hb. f_equal. lia. }
    destruct (decide (y = i ∧ x = w - j - 1)) as [[-> ->]|Hne2].
    { rewrite Hn2, decide_True by lia. unfold mirror.
      rewrite <- Ha. f_equal. lia. }
    rewrite Hold, Ht by lia.
    destruct (decide (y < i ∨ y = i ∧ (x < j ∨ w - j ≤ x))).
    + by rewrite decide_True by lia.
    + by rewrite decide_False by lia.
  - exists g'. split; [done|]. split; [done|]. intros y x. rewrite Hg'.
    destruct (decide (y < i ∨ y = i ∧ (x < w / 2 ∨ w - w / 2 ≤ x))).
    + by rewrite decide_True by lia.
    + destruct (decide (y = i)) as [->|Hy].
      * rewrite decide_True by lia. symmetry. apply mirror_fixed. lia.
      * by rewrite decide_False by lia.
Qed.

(** The swap loop mirrors every row. *)
Lemma reflect_spec :
  ∃ g', reflect h w g0 = Some g' ∧ dims h w g' ∧
        ∀ y x, at_ g' y x = at_ g0 y (w - 1 - x).
Proof using Hd0.
  unfold reflect.
  destruct (for_range_inv grid_inv
              (λ i g, for_range 0 (w ÷ 2)
                        (λ j g, swap_at g i j (w - j - 1)) g) 0 h g0)
    as (g' & Hrun & Hd' & Hg').
  - destruct Hd0 as (_ & ? & _). lia.
  - split; [done|]. intros y x. destruct (decide (y < 0)) as [Hy|Hy]; [|done].
    unfold mirror.
    destruct (at_ g0 y (w - 1 - x)) as [p|] eqn:Hp.
    { apply (at_inv _ _ _ _ _ _ Hd0) in Hp. lia. }
    destruct (at_ g0 y x) as [p|] eqn:Hp'; [|done].
    apply (at_inv _ _ _ _ _ _ Hd0) in Hp'. lia.
  - intros i t Hi Hinv. by apply reflect_row.
  - exists g'. split; [done|]. split; [done|]. intros y x. rewrite Hg'.
    destruct (decide (y < h)) as [Hy|Hy]; [done|]. unfold mirror.
    destruct (at_ g0 y (w - 1 - x)) as [p|] eqn:Hp.
    { apply (at_inv _ _ _ _ _ _ Hd0) in Hp. lia. }
    destruct (at_ g0 y x) as [p|] eqn:Hp'; [|done].
    apply (at_inv _ _ _ _ _ _ Hd0) in Hp'. lia.
Qed.
End ReflectLoop.

Lemma dims_reverse h w g : dims h w g → dims h w (reverse <$> g).
Proof.
  intros (Hw & Hh & Hrows). split; [done|]. split.
  - by rewrite length_fmap.
  - apply Forall_fmap. eapply Forall_impl; [done|].
    intros row Hrow. simpl. by rewrite length_reverse.
Qed.

Lemma at_reverse h w g y x :
  dims h w g → at_ (reverse <$> g) y x = at_ g y (w - 1 - x).
Proof.
  intros Hd. unfold at_.
  destruct (decide (0 ≤ y)) as [Hy|Hy];
    [|by rewrite !decide_False by lia].
  rewrite list_lookup_fmap.
  destruct (g !! Z.to_nat y) as [row|] eqn:Hrow; simpl;
    [|by repeat case_decide].
  pose proof (dims_row _ _ _ _ _ Hd Hrow) as Hlen.
  destruct (decide (0 ≤ x < w)) as [Hx|Hx].
  - rewrite !decide_True by lia. rewrite reverse_lookup by lia.
    f_equal. lia.
  - destruct (decide (0 ≤ y ∧ 0 ≤ x)), (decide (0 ≤ y ∧ 0 ≤ w - 1 - x));
      try done.
    + rewrite !lookup_ge_None_2; [done| |rewrite length_reverse]; lia.
    + apply lookup_ge_None_2. rewrite length_reverse. lia.
    + symmetry. apply lookup_ge_None_2. lia.
Qed.

(** The swap loop and [std::reverse] compute the same grid. *)
Lemma reflect_is_reverse h w g :
  dims h w g → reflect h w g = image_filters.reflect g.
Proof.
  intros Hd. destruct (reflect_spec h w g Hd) as (g' & -> & Hd' & Hg').
  unfold image_filters.reflect. f_equal.
  apply (grid_ext h w); [done|by apply dims_reverse|].
  intros y x _ _. by rewrite Hg', (at_reverse h w).
Qed.

Lemma reverse_rows_twice (g : grid) : reverse <$> (reverse <$> g) = g.
Proof.
  induction g as [|row g IH]; [done|].
  rewrite !fmap_cons, reverse_involutive, IH. done.
Qed.

(* ================================================================== *)
(** ** Floating-point facts obtained by evaluation *)

Lemma all_below_spec n p z :
  all_below n p = true → 0 ≤ z < Z.of_nat n → p z = true.
Proof.
  induction n as [|n IH]; [lia|]. simpl. intros Hall Hz.
  apply andb_true_iff in Hall as [Hn Hrest].
  destruct (decide (z = Z.of_nat n)) as [->|Hne]; [done|].
  apply IH; [done|lia].
Qed.

Lemma gray_round s :
  0 ≤ s ≤ 765 →
  round_to_int (double.div (double.of_int s) (double.of_int 3))
  = Some (round_half_up_div s 3).
Proof.
  intros Hs. assert (all_below 766 gray_check = true) as Hall by (by vm_compute).
  apply (all_below_spec _ _ s) in Hall; [|lia].
  by apply bool_decide_eq_true in Hall.
Qed.

Lemma count_step k :
  0 ≤ k ≤ 8 →
  float.add (float.of_int k) (float.of_int 1) = float.of_int (k + 1).
Proof.
  intros Hk. assert (all_below 9 count_check = true) as Hall by (by vm_compute).
  apply (all_below_spec _ _ k) in Hall; [|lia].
  by apply bool_decide_eq_true in Hall.
Qed.

Lemma mean_round t k :
  1 ≤ k ≤ 9 → 0 ≤ t ≤ 255 * k →
  round_half_away (float.div (float.of_int t) (float.of_int k))
  = Some (round_half_up_div t k).
Proof.
  intros Hk Ht. assert (all_below 9 mean_check = true) as Hall by (by vm_compute).
  apply (all_below_spec _ _ (k - 1)) in Hall; [|lia]. unfold mean_check in Hall.
  replace (k - 1 + 1) with k in Hall by lia.
  apply (all_below_spec _ _ t) in Hall; [|lia].
  by apply bool_decide_eq_true in Hall.
Qed.

Lemma round_half_up_div_bounds t k :
  1 ≤ k → 0 ≤ t ≤ 255 * k → 0 ≤ round_half_up_div t k ≤ 255.
Proof.
  intros Hk Ht. unfold round_half_up_div. split.
  - apply Z.div_pos; lia.
  - apply Z.lt_succ_r. apply Z.div_lt_upper_bound; lia.
Qed.

Lemma round_half_up_div_nearest t k :
  1 ≤ k → nearest_to t k (round_half_up_div t k).
Proof.
  intros Hk. unfold nearest_to, round_half_up_div.
  pose proof (Z.div_mod (2 * t + k) (2 * k)).
  pose proof (Z.mod_pos_bound (2 * t + k) (2 * k)). lia.
Qed.

Lemma round_half_up_div_exact c k :
  1 ≤ k → round_half_up_div (k * c) k = c.
Proof.
  intros Hk. unfold round_half_up_div.
  symmetry. apply (Z.div_unique _ _ _ k); lia.
Qed.

(* ================================================================== *)
(** ** Rounding in the floating-point specification

    The facts below are about [SpecFloat]'s rounding of a positive
    mantissa of at least [prec] bits in the normal range: the result is
    one of the two neighbouring [prec]-bit mantissas, and it is exact when
    the discarded bits are zero. *)

Lemma digits2_pos_size p : digits2_pos p = Pos.size p.
Proof. induction p; simpl; congruence. Qed.

Lemma digits2_pos_bounds p :
  2 ^ (Z.pos (digits2_pos p) - 1) ≤ Z.pos p < 2 ^ Z.pos (digits2_pos p).
Proof.
  assert (Z.pos (digits2_pos p) = Z.log2 (Z.pos p) + 1) as ->.
  { rewrite digits2_pos_size. destruct p; simpl; lia. }
  replace (Z.log2 (Z.pos p) + 1 - 1) with (Z.log2 (Z.pos p)) by lia.
  apply Z.log2_spec. lia.
Qed.

Lemma pow2_bounds_unique a d1 d2 :
  2 ^ (d1 - 1) ≤ a < 2 ^ d1 → 2 ^ (d2 - 1) ≤ a < 2 ^ d2 →
  0 < d1 → 0 < d2 → d1 = d2.
Proof.
  intros H1 H2 Hd1 Hd2.
  destruct (Z.lt_trichotomy d1 d2) as [Hlt|[Heq|Hgt]]; [|done|].
  - assert (2 ^ d1 ≤ 2 ^ (d2 - 1)) by (apply Z.pow_le_mono_r; lia). lia.
  - assert (2 ^ d2 ≤ 2 ^ (d1 - 1)) by (apply Z.pow_le_mono_r; lia). lia.
Qed.

Lemma Zdigits2_unique p d :
  0 < d → 2 ^ (d - 1) ≤ Z.pos p < 2 ^ d → Z.pos (digits2_pos p) = d.
Proof.
  intros Hd Hb. apply (pow2_bounds_unique (Z.pos p)); [|done|lia|done].
  apply digits2_pos_bounds.
Qed.

Lemma shr_1_m mrs : 0 ≤ shr_m mrs → shr_m (shr_1 mrs) = shr_m mrs / 2.
Proof.
  destruct mrs as [m r s]. cbn [shr_m]. intros Hm.
  destruct m as [|[p|p|]|p]; cbn [shr_1 shr_m]; try lia; try done.
  - rewrite Pos2Z.inj_xI. apply (Z.div_unique _ _ _ 1); lia.
  - rewrite Pos2Z.inj_xO. apply (Z.div_unique _ _ _ 0); lia.
Qed.

Lemma iter_shr_1_m p : ∀ mrs,
  0 ≤ shr_m mrs → shr_m (SpecFloat.iter_pos shr_1 p mrs) = shr_m mrs / 2 ^ Z.pos p.
Proof.
  assert (∀ a b c, 0 < b → 0 < c → a / b / c = a / (b * c)) as Hdd.
  { intros. by rewrite Z.div_div by lia. }
  induction p as [p IH|p IH|]; intros mrs Hm; simpl.
  - pose proof (shr_1_m mrs Hm) as H1.
    assert (0 ≤ shr_m (shr_1 mrs)) as Hm1
      by (rewrite H1; apply Z.div_pos; lia).
    pose proof (IH _ Hm1) as H2.
    assert (0 ≤ shr_m (SpecFloat.iter_pos shr_1 p (shr_1 mrs))) as Hm2
      by (rewrite H2; apply Z.div_pos; lia).
    rewrite (IH _ Hm2), H2, H1, !Hdd by lia. f_equal.
    replace (Z.pos p~1) with (Z.pos p + Z.pos p + 1) by lia.
    rewrite !Z.pow_add_r by lia. change (2 ^ 1) with 2. ring.
  - pose proof (IH _ Hm) as H2.
    assert (0 ≤ shr_m (SpecFloat.iter_pos shr_1 p mrs)) as Hm2
      by (rewrite H2; apply Z.div_pos; lia).
    rewrite (IH _ Hm2), H2, !Hdd by lia. f_equal.
    replace (Z.pos p~0) with (Z.pos p + Z.pos p) by lia.
    rewrite !Z.pow_add_r by lia. ring.
  - by rewrite shr_1_m.
Qed.

Lemma shr_1_exact c :
  0 ≤ c → shr_1 (Build_shr_record (2 * c) false false) = Build_shr_record c false false.
Proof. intros Hc. destruct c as [|p|p]; [done|done|lia]. Qed.

Lemma iter_shr_1_exact p : ∀ c,
  0 ≤ c →
  SpecFloat.iter_pos shr_1 p (Build_shr_record (c * 2 ^ Z.pos p) false false)
  = Build_shr_record c false false.
Proof.
  induction p as [p IH|p IH|]; intros c Hc; cbn [SpecFloat.iter_pos].
  - assert (0 < 2 ^ Z.pos p) as Hp by (apply Z.pow_pos_nonneg; lia).
    replace (c * 2 ^ Z.pos p~1) with (2 * (c * 2 ^ Z.pos p * 2 ^ Z.pos p)).
    + rewrite shr_1_exact by nia. rewrite IH by nia. by apply IH.
    + replace (Z.pos p~1) with (Z.pos p + Z.pos p + 1) by lia.
      rewrite !Z.pow_add_r by lia. change (2 ^ 1) with 2. ring.
  - assert (0 < 2 ^ Z.pos p) as Hp by (apply Z.pow_pos_nonneg; lia).
    replace (c * 2 ^ Z.pos p~0) with (c * 2 ^ Z.pos p * 2 ^ Z.pos p).
    + rewrite IH by nia. by apply IH.
    + replace (Z.pos p~0) with (Z.pos p + Z.pos p) by lia.
      rewrite !Z.pow_add_r by lia. ring.
  - change (2 ^ 1) with 2. rewrite Z.mul_comm. by apply shr_1_exact.
Qed.

Lemma shr_m_of_loc m l : shr_m (shr_record_of_loc m l) = m.
Proof. by destruct l as [|[]]. Qed.

Lemma round_nearest_even_cases m l :
  round_nearest_even m l = m ∨ round_nearest_even m l = m + 1.
Proof. destruct l as [|[]]; simpl; try tauto. destruct (Z.even m); tauto. Qed.

Lemma pow2_pos k : 0 ≤ k → 0 < 2 ^ k.
Proof. intros. apply Z.pow_pos_nonneg; lia. Qed.

Lemma pow2_split a b : 0 ≤ a → 0 ≤ b → 2 ^ (a + b) = 2 ^ a * 2 ^ b.
Proof. intros. by rewrite Z.pow_add_r. Qed.

Section Round.
Variables prec emax : Z.
Hypothesis Hprec : 0 < prec.
Let emin := SpecFloat.emin prec emax.

Lemma shr_fexp_spec m e l d :
  2 ^ (d - 1) ≤ m < 2 ^ d → prec ≤ d → emin ≤ e →
  ∃ mrs, shr_fexp prec emax m e l = (mrs, e + (d - prec)) ∧
         shr_m mrs = m / 2 ^ (d - prec) ∧
         (l = loc_Exact → m mod 2 ^ (d - prec) = 0 →
          loc_of_shr_record mrs = loc_Exact).
Proof using Hprec.
  intros Hm Hd He.
  pose proof (pow2_pos (d - 1) ltac:(lia)) as Hpos.
  destruct m as [|p|p]; [lia| |lia].
  unfold shr_fexp. cbn [Zdigits2].
  rewrite (Zdigits2_unique p d) by (done || lia).
  unfold fexp. rewrite Z.max_l by lia.
  replace (d + e - prec - e) with (d - prec) by lia.
  unfold shr. destruct (d - prec) as [|n|n] eqn:Hn; [| |lia].
  - eexists. split; [by rewrite Z.add_0_r|]. split.
    + rewrite shr_m_of_loc. by rewrite Z.div_1_r.
    + by intros -> _.
  - eexists. split; [done|]. split.
    + rewrite iter_shr_1_m by (rewrite shr_m_of_loc; lia).
      by rewrite shr_m_of_loc.
    + intros -> Hmod. cbn [shr_record_of_loc].
      pose proof (pow2_pos (Z.pos n) ltac:(lia)).
      pose proof (Z.div_mod (Z.pos p) (2 ^ Z.pos n) ltac:(lia)) as Hdm.
      rewrite Hmod, Z.add_0_r in Hdm. rewrite Hdm at 1.
      rewrite Z.mul_comm, iter_shr_1_exact; [done|].
      apply Z.div_pos; lia.
Qed.

Lemma binary_round_aux_spec sx mx ex lx d :
  2 ^ (d - 1) ≤ mx < 2 ^ d → prec ≤ d → emin ≤ ex → ex + d + 1 ≤ emax →
  ∃ m' n c,
    binary_round_aux prec emax sx mx ex lx = S754_finite sx m' (ex + n) ∧
    d - prec ≤ n ≤ d - prec + 1 ∧
    2 ^ (prec - 1) ≤ Z.pos m' < 2 ^ prec ∧
    (c = 0 ∨ c = 1) ∧
    Z.pos m' * 2 ^ n = (mx / 2 ^ (d - prec) + c) * 2 ^ (d - prec) ∧
    (lx = loc_Exact → mx mod 2 ^ (d - prec) = 0 → c = 0).
Proof using Hprec.
  intros Hm Hd He Hmax.
  destruct (shr_fexp_spec mx ex lx d Hm Hd He) as (mrs1 & Hs1 & Hm1 & Hex1).
  unfold binary_round_aux. rewrite Hs1. cbv beta iota. rewrite Hm1.
  set (q := mx / 2 ^ (d - prec)).
  pose proof (pow2_pos (d - prec) ltac:(lia)) as Hpn.
  pose proof (pow2_pos (prec - 1) ltac:(lia)) as Hpp.
  assert (2 ^ (prec - 1) ≤ q < 2 ^ prec) as Hq.
  { subst q. split.
    - apply Z.div_le_lower_bound; [lia|].
      rewrite <- pow2_split by lia. replace (d - prec + (prec - 1)) with (d - 1) by lia. lia.
    - apply Z.div_lt_upper_bound; [lia|].
      rewrite <- pow2_split by lia. replace (d - prec + prec) with d by lia. lia. }
  set (m1 := round_nearest_even q (loc_of_shr_record mrs1)).
  assert (∃ c, (c = 0 ∨ c = 1) ∧ m1 = q + c ∧
               (lx = loc_Exact → mx mod 2 ^ (d - prec) = 0 → c = 0))
    as (c & Hc & Hm1c & Hcex).
  { destruct (round_nearest_even_cases q (loc_of_shr_record mrs1)) as [Hr|Hr].
    - exists 0. split; [tauto|]. split; [subst m1; lia|done].
    - exists 1. split; [tauto|]. split; [subst m1; lia|].
      intros Hl Hmod. subst m1. rewrite (Hex1 Hl Hmod) in Hr. simpl in Hr. lia. }
  clearbody m1.
  assert (2 ^ prec = 2 * 2 ^ (prec - 1)) as Hpd.
  { replace prec with (1 + (prec - 1)) at 1 by lia. by rewrite pow2_split by lia. }
  destruct (decide (m1 < 2 ^ prec)) as [Hlt|Hge].
  - destruct (shr_fexp_spec m1 (ex + (d - prec)) loc_Exact prec)
      as (mrs2 & Hs2 & Hm2 & _); [lia..|].
    rewrite Hs2. cbv beta iota. rewrite Hm2, Z.sub_diag, Z.div_1_r.
    destruct m1 as [|pm|pm]; [lia| |lia].
    rewrite (proj2 (Z.leb_le _ _)) by lia.
    exists pm, (d - prec), c. split; [f_equal; lia|].
    split; [lia|]. split; [lia|]. split; [done|]. split; [|done].
    rewrite Hm1c. done.
  - assert (m1 = 2 ^ prec) as -> by lia.
    destruct (shr_fexp_spec (2 ^ prec) (ex + (d - prec)) loc_Exact (prec + 1))
      as (mrs2 & Hs2 & Hm2 & _).
    { replace (prec + 1 - 1) with prec by lia.
      replace (prec + 1) with (1 + prec) by lia. rewrite pow2_split by lia.
      change (2 ^ 1) with 2. lia. }
    { lia. } { lia. }
    rewrite Hs2. cbv beta iota. rewrite Hm2.
    replace (prec + 1 - prec) with 1 by lia. change (2 ^ 1) with 2.
    rewrite Hpd. replace (2 * 2 ^ (prec - 1)) with (2 ^ (prec - 1) * 2) by lia.
    rewrite Z.div_mul by lia.
    destruct (2 ^ (prec - 1)) as [|pm|pm] eqn:Hpm; [lia| |lia].
    rewrite (proj2 (Z.leb_le _ _)) by lia.
    exists pm, (d - prec + 1), c. split; [f_equal; lia|].
    split; [lia|]. split; [lia|]. split; [done|]. split; [|done].
    rewrite pow2_split by lia. change (2 ^ 1) with 2. rewrite <- Hm1c. lia.
Qed.
End Round.

Lemma pos_iter_xO p k : Z.pos (Pos.iter xO p k) = Z.pos p * 2 ^ Z.pos k.
Proof.
  induction k as [|k IH] using Pos.peano_ind.
  - simpl. lia.
  - rewrite Pos.iter_succ, Pos2Z.inj_xO, IH, Pos2Z.inj_succ.
    unfold Z.succ. rewrite pow2_split by lia. change (2 ^ 1) with 2. ring.
Qed.

Lemma shl_align_down mx ex ex' :
  ex' ≤ ex →
  ∃ mz, shl_align mx ex ex' = (mz, ex') ∧ Z.pos mz = Z.pos mx * 2 ^ (ex - ex').
Proof.
  intros Hle. unfold shl_align. destruct (ex' - ex) as [|k|k] eqn:Hk; [|lia|].
  - exists mx. assert (ex' = ex) as -> by lia. rewrite Z.sub_diag. split; [done|lia].
  - eexists. split; [done|]. rewrite pos_iter_xO. f_equal. f_equal. lia.
Qed.

Lemma shl_align_up mx ex ex' : ex ≤ ex' → shl_align mx ex ex' = (mx, ex).
Proof. intros Hle. unfold shl_align. by destruct (ex' - ex) as [|k|k] eqn:Hk; [| |lia]. Qed.

Section Round2.
Variables prec emax : Z.
Hypothesis Hprec : 0 < prec.
Hypothesis Hemax : prec < emax.
Let emin := SpecFloat.emin prec emax.

(** Rounding a mantissa whose discarded bits are all zero is exact. *)
Lemma binary_round_aux_exact sx mx ex d :
  2 ^ (d - 1) ≤ mx < 2 ^ d → prec ≤ d → emin ≤ ex → ex + d + 1 ≤ emax →
  mx mod 2 ^ (d - prec) = 0 →
  ∃ m', binary_round_aux prec emax sx mx ex loc_Exact
        = S754_finite sx m' (ex + (d - prec)) ∧
        Z.pos m' = mx / 2 ^ (d - prec).
Proof using Hprec.
  intros Hm Hd He Hmax Hmod.
  destruct (binary_round_aux_spec prec emax Hprec sx mx ex loc_Exact d)
    as (m' & n & c & Heq & Hn & Hm' & _ & Hval & Hc); [done..|].
  rewrite (Hc eq_refl Hmod), Z.add_0_r in Hval.
  pose proof (pow2_pos (d - prec) ltac:(lia)) as Hpn.
  assert (mx / 2 ^ (d - prec) < 2 ^ prec) as Hq.
  { apply Z.div_lt_upper_bound; [lia|]. rewrite <- pow2_split by lia.
    replace (d - prec + prec) with d by lia. lia. }
  assert (n = d - prec) as ->.
  { destruct (decide (n = d - prec)) as [|Hne]; [done|].
    assert (n = d - prec + 1) as -> by lia.
    rewrite pow2_split in Hval by lia. change (2 ^ 1) with 2 in Hval.
    assert (2 ^ prec = 2 * 2 ^ (prec - 1)) as Hpd.
    { replace prec with (1 + (prec - 1)) at 1 by lia. by rewrite pow2_split by lia. }
    nia. }
  exists m'. split; [done|]. nia.
Qed.

(** The conversion of a positive integer that fits the mantissa. *)
Lemma binary_normalize_int n d :
  2 ^ (d - 1) ≤ n < 2 ^ d → 0 < d ≤ prec → emin ≤ d - prec →
  ∃ m, binary_normalize prec emax n 0 false = S754_finite false m (d - prec) ∧
       Z.pos m = n * 2 ^ (prec - d).
Proof using Hprec Hemax.
  intros Hn Hd He.
  pose proof (pow2_pos (d - 1) ltac:(lia)) as Hpos.
  destruct n as [|p|p]; [lia| |lia].
  unfold binary_normalize, binary_round.
  rewrite (Zdigits2_unique p d) by (done || lia). rewrite Z.add_0_r.
  unfold fexp. rewrite Z.max_l by (fold emin; lia).
  destruct (shl_align_down p 0 (d - prec)) as (mz & -> & Hmz); [lia|].
  replace (0 - (d - prec)) with (prec - d) in Hmz by lia.
  destruct (binary_round_aux_exact false (Z.pos mz) (d - prec) prec)
    as (m' & Heq & Hm').
  - rewrite Hmz.
    pose proof (pow2_pos (prec - d) ltac:(lia)).
    assert (2 ^ (prec - 1) = 2 ^ (d - 1) * 2 ^ (prec - d)) as ->
      by (rewrite <- pow2_split by lia; f_equal; lia).
    assert (2 ^ prec = 2 ^ d * 2 ^ (prec - d)) as ->
      by (rewrite <- pow2_split by lia; f_equal; lia).
    nia.
  - lia.
  - done.
  - lia.
  - rewrite Z.sub_diag. apply Z.mod_1_r.
  - rewrite Heq. rewrite Z.sub_diag, Z.add_0_r, Z.div_1_r in *.
    exists m'. split; [done|]. lia.
Qed.
End Round2.

Section Add.
Variables prec emax : Z.
Hypothesis Hprec : 0 < prec.
Hypothesis Hemax : prec < emax.
Let emin := SpecFloat.emin prec emax.

(** The sum of two positive normal numbers is the rounding of the exact
    sum of the aligned mantissas. *)
Lemma SFadd_pos_unfold mx ex my ey D :
  2 ^ (prec - 1) ≤ Z.pos mx → 
  emin ≤ ex → emin ≤ ey →
  let ez := Z.min ex ey in
  let M := Z.pos mx * 2 ^ (ex - ez) + Z.pos my * 2 ^ (ey - ez) in
  2 ^ (D - 1) ≤ M < 2 ^ D →
  prec ≤ D ∧
  SFadd prec emax (S754_finite false mx ex) (S754_finite false my ey)
  = binary_round_aux prec emax false M ez loc_Exact.
Proof using Hprec Hemax.
  intros Hmx Hex Hey ez M HM.
  pose proof (pow2_pos (ex - ez) ltac:(lia)) as H1.
  pose proof (pow2_pos (ey - ez) ltac:(lia)) as H2.
  assert (prec ≤ D) as HD.
  { destruct (decide (prec ≤ D)) as [|Hn]; [done|].
    assert (2 ^ D ≤ 2 ^ (prec - 1)) by (apply Z.pow_le_mono_r; lia).
    subst M. nia. }
  split; [done|].
  unfold SFadd. cbn [cond_Zopp]. fold ez.
  destruct (shl_align_down mx ex ez) as (m1 & -> & Hm1); [lia|].
  destruct (shl_align_down my ey ez) as (m2 & -> & Hm2); [lia|].
  cbn [fst]. rewrite Hm1, Hm2. fold M.
  assert (0 < M) as HMpos by (subst M; nia).
  destruct M as [|pM|pM] eqn:HeqM; [lia| |lia].
  unfold binary_normalize, binary_round.
  rewrite (Zdigits2_unique pM D) by (done || lia).
  unfold fexp. rewrite Z.max_l by (fold emin; lia).
  rewrite shl_align_up by lia. done.
Qed.
End Add.

(* ================================================================== *)
(** ** Small helpers *)

Lemma valid_pixel h w g y x p :
  valid h w g → at_ g y x = Some p → pixel_ok p.
Proof.
  intros [_ Hok]. unfold at_. case_decide; [|done].
  destruct (g !! Z.to_nat y) as [row|] eqn:Hrow; [simpl|done]. intros Hx.
  rewrite Forall_lookup in Hok. specialize (Hok _ _ Hrow).
  rewrite Forall_lookup in Hok. by eapply Hok.
Qed.

Lemma valid_intro h w g :
  dims h w g →
  (∀ y x p, at_ g y x = Some p → pixel_ok p) →
  valid h w g.
Proof.
  intros Hd Hall. split; [done|]. apply Forall_lookup. intros y row Hrow.
  apply Forall_lookup. intros x p Hp. apply (Hall (Z.of_nat y) (Z.of_nat x)).
  unfold at_. rewrite decide_True by lia. by rewrite !Nat2Z.id, Hrow.
Qed.

Lemma modify_ext g y x f1 f2 p :
  at_ g y x = Some p → f1 p = f2 p → modify g y x f1 = modify g y x f2.
Proof.
  intros Hat Heq. unfold modify. rewrite Hat. simpl. f_equal.
  unfold at_ in Hat. case_decide; [|done].
  destruct (g !! Z.to_nat y) as [row|] eqn:Hrow; [simpl in Hat|done].
  apply list_alter_ext; [|done]. intros row' Hrow'.
  assert (row' = row) as -> by congruence.
  apply list_alter_ext; [|done]. intros p' Hp'. congruence.
Qed.

Lemma modify_modify3 g y x f1 f2 f3 :
  (g1 ← modify g y x f1; g2 ← modify g1 y x f2; modify g2 y x f3)
  = modify g y x (f3 ∘ f2 ∘ f1).
Proof.
  rewrite <- modify_modify.
  destruct (modify g y x f1) as [g1|]; [simpl|done]. apply modify_modify.
Qed.

Lemma bind_Some {A B} (x : A) (f : A → option B) : Some x ≫= f = f x.
Proof. reflexivity. Qed.

Lemma BYTE_of_int_id v : is_BYTE v → BYTE_of_int v = v.
Proof. intros Hv. apply Z.mod_small. unfold is_BYTE in Hv. lia. Qed.

Lemma for_range_m1_2 {St} (body : Z → St → option St) s :
  for_range (-1) 2 body s = (s1 ← body (-1) s; s2 ← body 0 s1; body 1 s2).
Proof.
  unfold for_range. change (Z.to_nat (2 - -1)) with 3%nat. simpl.
  change (-1 + 1 + 1) with 1. change (-1 + 1) with 0.
  destruct (body (-1) s) as [s1|]; [simpl|done].
  destruct (body 0 s1) as [s2|]; [simpl|done].
  by destruct (body 1 s2).
Qed.

Lemma for_range_around {St} (body : Z → St → option St) i s :
  for_range (i - 1) (i + 1 + 1) body s
  = (s1 ← body (i - 1) s; s2 ← body i s1; body (i + 1) s2).
Proof.
  unfold for_range. replace (i + 1 + 1 - (i - 1)) with 3 by lia. simpl.
  replace (i - 1 + 1) with i by lia.
  destruct (body (i - 1) s) as [s1|]; [simpl|done].
  destruct (body i s1) as [s2|]; [simpl|done].
  by destruct (body (i + 1) s2).
Qed.

(* ================================================================== *)
(** ** Grayscale *)

Lemma gray_value_byte p : pixel_ok p → is_BYTE (gray_value p).
Proof.
  intros (Hb & Hg & Hr). unfold gray_value, is_BYTE in *.
  apply round_half_up_div_bounds; lia.
Qed.

Lemma grayscale_spec h w g :
  valid h w g →
  ∃ g', grayscale h w g = Some g' ∧ dims h w g' ∧
        ∀ i j p, at_ g i j = Some p →
          at_ g' i j = Some (mkRGB (gray_value p) (gray_value p) (gray_value p)).
Proof.
  intros Hv. pose proof Hv as [Hd _]. unfold grayscale.
  apply (grid_loop h w _
           (λ _ _ p, mkRGB (gray_value p) (gray_value p) (gray_value p)) g Hd).
  intros i j t Hi Hj Hdt Hsame.
  destruct (at_Some _ _ _ i j Hd Hi Hj) as [p Hp].
  rewrite Hsame, Hp, bind_Some.
  pose proof (valid_pixel _ _ _ _ _ _ Hv Hp) as Hok.
  pose proof (gray_value_byte _ Hok) as Hgb.
  destruct Hok as (Hb & Hg & Hr). unfold is_BYTE in *.
  rewrite gray_round by lia. rewrite bind_Some.
  rewrite modify_modify3. apply (modify_ext _ _ _ _ _ p); [congruence|].
  fold (gray_value p). by rewrite BYTE_of_int_id.
Qed.

(* ================================================================== *)
(** ** The 3x3 box of blur *)

Section BlurBox.
Variables (h w : Z) (g : grid).
Hypothesis Hd : dims h w g.

Lemma inside_at y x :
  inside h w (y, x) → at_ g y x = Some (default RGBTRIPLE_zero (at_ g y x)).
Proof using Hd. intros [? ?]. by apply (at_default h w). Qed.

Lemma blur_step acc y x :
  (if decide (y >= 0 ∧ y < h ∧ x >= 0 ∧ x < w)
   then p ← at_ g y x;
        Some (mkBlurAcc (totalRed acc + rgbtRed p)
                        (totalGreen acc + rgbtGreen p)
                        (totalBlue acc + rgbtBlue p)
                        (float.add (pixelCount acc) (float.of_int 1)))
   else Some acc)
  = Some (blur_add h w g acc (y, x)).
Proof using Hd.
  unfold blur_add, inside. simpl. case_decide as Hin.
  - rewrite decide_True by lia.
    rewrite (inside_at y x) by (unfold inside; simpl; lia). done.
  - by rewrite decide_False by lia.
Qed.

Lemma ns_blur_step a y x :
  (if image_filters.inBounds y x h w
   then p ← at_ g y x;
        Some (image_filters.mkAcc
                (image_filters.totalRed a + rgbtRed p)
                (image_filters.totalGreen a + rgbtGreen p)
                (image_filters.totalBlue a + rgbtBlue p)
                (image_filters.count a + 1))
   else Some a)
  = Some (ns_blur_add h w g a (y, x)).
Proof using Hd.
  unfold ns_blur_add, inside, image_filters.inBounds. simpl.
  destruct (decide (0 ≤ y < h ∧ 0 ≤ x < w)) as [Hin|Hout].
  - rewrite !bool_decide_eq_true_2 by lia. simpl.
    rewrite (inside_at y x) by (unfold inside; simpl; lia). done.
  - destruct (bool_decide (y >= 0)) eqn:H1; [|done].
    destruct (bool_decide (y < h)) eqn:H2; [|done].
    destruct (bool_decide (x >= 0)) eqn:H3; [|done].
    destruct (bool_decide (x < w)) eqn:H4; [|done].
    apply bool_decide_eq_true in H1, H2, H3, H4. lia.
Qed.

Lemma blur_box_row acc y j :
  for_range (-1) 2 (λ dy acc,
    let neighborX := y in
    let neighborY := j + dy in
    if decide (neighborX >= 0 ∧ neighborX < h ∧
               neighborY >= 0 ∧ neighborY < w)
    then
      p ← at_ g neighborX neighborY;
      Some (mkBlurAcc (totalRed acc + rgbtRed p)
                      (totalGreen acc + rgbtGreen p)
                      (totalBlue acc + rgbtBlue p)
                      (float.add (pixelCount acc) (float.of_int 1)))
    else Some acc) acc
  = Some (foldl (blur_add h w g) acc [(y, j - 1); (y, j); (y, j + 1)]).
Proof using Hd.
  rewrite for_range_m1_2. cbv beta zeta.
  rewrite blur_step. cbn [mbind option_bind].
  rewrite blur_step. cbn [mbind option_bind].
  rewrite blur_step. rewrite Z.add_0_r.
  by replace (j + -1) with (j - 1) by lia.
Qed.

Lemma ns_blur_box_row a y j :
  for_range (-1) 2 (λ dy a,
    let nx := y in
    let ny := j + dy in
    if image_filters.inBounds nx ny h w
    then
      p ← at_ g nx ny;
      Some (image_filters.mkAcc
              (image_filters.totalRed a + rgbtRed p)
              (image_filters.totalGreen a + rgbtGreen p)
              (image_filters.totalBlue a + rgbtBlue p)
              (image_filters.count a + 1))
    else Some a) a
  = Some (foldl (ns_blur_add h w g) a [(y, j - 1); (y, j); (y, j + 1)]).
Proof using Hd.
  rewrite for_range_m1_2. cbv beta zeta.
  rewrite ns_blur_step. cbn [mbind option_bind].
  rewrite ns_blur_step. cbn [mbind option_bind].
  rewrite ns_blur_step. rewrite Z.add_0_r.
  by replace (j + -1) with (j - 1) by lia.
Qed.

Lemma positions_rows i j :
  positions i j
  = [(i - 1, j - 1); (i - 1, j); (i - 1, j + 1)]
    ++ [(i, j - 1); (i, j); (i, j + 1)]
    ++ [(i + 1, j - 1); (i + 1, j); (i + 1, j + 1)].
Proof. reflexivity. Qed.

(** The nested loops visit the nine positions in order. *)
Lemma blur_box_fold i j :
  blur_box h w g i j
  = Some (foldl (blur_add h w g) (mkBlurAcc 0 0 0 (float.of_int 0))
                (positions i j)).
Proof using Hd.
  unfold blur_box. rewrite for_range_m1_2. cbv beta zeta.
  rewrite blur_box_row. cbn [mbind option_bind].
  rewrite blur_box_row. cbn [mbind option_bind].
  rewrite blur_box_row. rewrite Z.add_0_r.
  replace (i + -1) with (i - 1) by lia.
  rewrite positions_rows, !foldl_app. reflexivity.
Qed.

Lemma ns_blur_box_fold i j :
  image_filters.blur_box h w g i j
  = Some (foldl (ns_blur_add h w g) (image_filters.mkAcc 0 0 0 0)
                (positions i j)).
Proof using Hd.
  unfold image_filters.blur_box. rewrite for_range_m1_2. cbv beta zeta.
  rewrite ns_blur_box_row. cbn [mbind option_bind].
  rewrite ns_blur_box_row. cbn [mbind option_bind].
  rewrite ns_blur_box_row. rewrite Z.add_0_r.
  replace (i + -1) with (i - 1) by lia.
  rewrite positions_rows, !foldl_app. reflexivity.
Qed.

Lemma blur_fold_totals ps acc :
  let r := foldl (blur_add h w g) acc ps in
  totalRed r = totalRed acc + channel_sum rgbtRed g (filter (inside h w) ps) ∧
  totalGreen r = totalGreen acc + channel_sum rgbtGreen g (filter (inside h w) ps) ∧
  totalBlue r = totalBlue acc + channel_sum rgbtBlue g (filter (inside h w) ps).
Proof using Hd.
  revert acc. induction ps as [|[y x] ps IH]; intros acc; simpl.
  { unfold channel_sum. simpl. lia. }
  destruct (IH (blur_add h w g acc (y, x))) as (Hr & Hg & Hb).
  rewrite Hr, Hg, Hb. unfold blur_add. rewrite filter_cons.
  case_decide as Hin; [|lia].
  unfold channel_sum. simpl. rewrite (inside_at y x Hin). simpl. lia.
Qed.

Lemma blur_fold_count ps acc k :
  pixelCount acc = float.of_int k → 0 ≤ k →
  k + Z.of_nat (length ps) ≤ 9 →
  pixelCount (foldl (blur_add h w g) acc ps)
  = float.of_int (k + Z.of_nat (length (filter (inside h w) ps))).
Proof.
  revert acc k. induction ps as [|yx ps IH]; intros acc k Hk Hk0 Hlen; simpl.
  { by rewrite Z.add_0_r. }
  simpl in Hlen. rewrite filter_cons. unfold blur_add at 2.
  case_decide as Hin.
  - rewrite (IH _ (k + 1)); simpl; [|rewrite Hk; apply count_step; lia|lia..].
    f_equal. lia.
  - rewrite (IH _ k); [done..|lia].
Qed.

Lemma ns_blur_fold ps a :
  let r := foldl (ns_blur_add h w g) a ps in
  image_filters.totalRed r
    = image_filters.totalRed a + channel_sum rgbtRed g (filter (inside h w) ps) ∧
  image_filters.totalGreen r
    = image_filters.totalGreen a + channel_sum rgbtGreen g (filter (inside h w) ps) ∧
  image_filters.totalBlue r
    = image_filters.totalBlue a + channel_sum rgbtBlue g (filter (inside h w) ps) ∧
  image_filters.count r
    = image_filters.count a + Z.of_nat (length (filter (inside h w) ps)).
Proof using Hd.
  revert a. induction ps as [|[y x] ps IH]; intros a; simpl.
  { unfold channel_sum. simpl. lia. }
  destruct (IH (ns_blur_add h w g a (y, x))) as (Hr & Hg & Hb & Hc).
  rewrite Hr, Hg, Hb, Hc. unfold ns_blur_add. rewrite filter_cons.
  case_decide as Hin; [|lia].
  unfold channel_sum. simpl. rewrite (inside_at y x Hin). simpl. lia.
Qed.

Lemma window_length i j :
  0 ≤ i < h → 0 ≤ j < w →
  1 ≤ Z.of_nat (length (window h w i j)) ≤ 9.
Proof.
  intros Hi Hj. split.
  - assert ((i, j) ∈ window h w i j) as Hin.
    { unfold window. apply list_elem_of_filter.
      split; [unfold inside; simpl; lia|].
      rewrite positions_rows. cbn [app]. rewrite !elem_of_cons. tauto. }
    destruct (window h w i j); [by apply elem_of_nil in Hin|simpl; lia].
  - unfold window. etrans; [apply inj_le, length_filter|].
    rewrite positions_rows. simpl. lia.
Qed.
End BlurBox.

Lemma channel_sum_bounds h w g chan ps :
  valid h w g →
  (∀ p, pixel_ok p → 0 ≤ chan p ≤ 255) →
  0 ≤ channel_sum chan g ps ≤ 255 * Z.of_nat (length ps).
Proof.
  intros Hv Hchan. induction ps as [|[y x] ps IH]; unfold channel_sum; simpl.
  { lia. }
  fold (channel_sum chan g ps).
  destruct (at_ g y x) as [p|] eqn:Hp; simpl.
  - pose proof (Hchan p (valid_pixel _ _ _ _ _ _ Hv Hp)). lia.
  - lia.
Qed.

Lemma window_mean_byte h w g chan i j :
  valid h w g → (∀ p, pixel_ok p → 0 ≤ chan p ≤ 255) →
  0 ≤ i < h → 0 ≤ j < w →
  is_BYTE (window_mean chan h w g i j).
Proof.
  intros Hv Hchan Hi Hj. unfold window_mean.
  pose proof (window_length h w i j Hi Hj).
  pose proof (channel_sum_bounds h w g chan (window h w i j) Hv Hchan).
  apply round_half_up_div_bounds; lia.
Qed.

Lemma chan_red_byte p : pixel_ok p → 0 ≤ rgbtRed p ≤ 255.
Proof. by intros (? & ? & ?). Qed.
Lemma chan_green_byte p : pixel_ok p → 0 ≤ rgbtGreen p ≤ 255.
Proof. by intros (? & ? & ?). Qed.
Lemma chan_blue_byte p : pixel_ok p → 0 ≤ rgbtBlue p ≤ 255.
Proof. by intros (? & ? & ?). Qed.

(** The float quotient of a channel total by the sample count, rounded,
    is the rounded window mean, and it fits a byte. *)
Lemma blur_mean_round h w g chan i j :
  valid h w g → (∀ p, pixel_ok p → 0 ≤ chan p ≤ 255) →
  0 ≤ i < h → 0 ≤ j < w →
  round_half_away
    (float.div (float.of_int (channel_sum chan g (window h w i j)))
               (float.of_int (Z.of_nat (length (window h w i j)))))
  = Some (window_mean chan h w g i j).
Proof.
  intros Hv Hchan Hi Hj.
  pose proof (window_length h w i j Hi Hj).
  pose proof (channel_sum_bounds h w g chan (window h w i j) Hv Hchan).
  by apply mean_round.
Qed.

(* ================================================================== *)
(** ** Blur, pixel by pixel *)

Section BlurSpec.
Variables (h w : Z) (g : grid).
Hypothesis Hv : valid h w g.

Lemma blur_box_result i j :
  let acc := foldl (blur_add h w g) (mkBlurAcc 0 0 0 (float.of_int 0))
                   (positions i j) in
  totalRed acc = channel_sum rgbtRed g (window h w i j) ∧
  totalGreen acc = channel_sum rgbtGreen g (window h w i j) ∧
  totalBlue acc = channel_sum rgbtBlue g (window h w i j) ∧
  pixelCount acc = float.of_int (Z.of_nat (length (window h w i j))).
Proof using Hv.
  destruct Hv as [Hd _].
  destruct (blur_fold_totals h w g Hd (positions i j)
              (mkBlurAcc 0 0 0 (float.of_int 0))) as (Hr & Hg & Hb).
  cbv zeta. rewrite Hr, Hg, Hb. repeat split.
  rewrite (blur_fold_count h w g (positions i j) _ 0); [done..|].
  rewrite positions_rows. simpl. lia.
Qed.

Lemma ns_blur_box_result i j :
  let a := foldl (ns_blur_add h w g) (image_filters.mkAcc 0 0 0 0)
                 (positions i j) in
  image_filters.totalRed a = channel_sum rgbtRed g (window h w i j) ∧
  image_filters.totalGreen a = channel_sum rgbtGreen g (window h w i j) ∧
  image_filters.totalBlue a = channel_sum rgbtBlue g (window h w i j) ∧
  image_filters.count a = Z.of_nat (length (window h w i j)).
Proof using Hv.
  destruct Hv as [Hd _].
  destruct (ns_blur_fold h w g Hd (positions i j)
              (image_filters.mkAcc 0 0 0 0)) as (Hr & Hg & Hb & Hc).
  cbv zeta. rewrite Hr, Hg, Hb, Hc. done.
Qed.

Lemma blur_byte chan i j :
  (∀ p, pixel_ok p → 0 ≤ chan p ≤ 255) →
  0 ≤ i < h → 0 ≤ j < w →
  round_to_BYTE
    (float.div (float.of_int (channel_sum chan g (window h w i j)))
               (float.of_int (Z.of_nat (length (window h w i j)))))
  = Some (window_mean chan h w g i j).
Proof using Hv.
  intros Hchan Hi Hj. unfold round_to_BYTE.
  rewrite (blur_mean_round h w g) by done. rewrite bind_Some.
  pose proof (window_mean_byte h w g chan i j Hv Hchan Hi Hj).
  by rewrite decide_True.
Qed.

Lemma ns_blur_byte chan i j :
  (∀ p, pixel_ok p → 0 ≤ chan p ≤ 255) →
  0 ≤ i < h → 0 ≤ j < w →
  image_filters.mean_byte (channel_sum chan g (window h w i j))
                          (Z.of_nat (length (window h w i j)))
  = Some (window_mean chan h w g i j).
Proof using Hv.
  intros Hchan Hi Hj. unfold image_filters.mean_byte, round_to_int.
  rewrite (blur_mean_round h w g) by done. rewrite bind_Some.
  pose proof (window_mean_byte h w g chan i j Hv Hchan Hi Hj) as Hb.
  unfold is_BYTE in Hb. rewrite decide_True by lia. rewrite bind_Some.
  f_equal. unfold clamp. rewrite !decide_False by lia.
  by apply BYTE_of_int_id.
Qed.

Lemma blur_body i j t :
  0 ≤ i < h → 0 ≤ j < w → dims h w t →
  (acc ← blur_box h w g i j;
   r ← round_to_BYTE (float.div (float.of_int (totalRed acc)) (pixelCount acc));
   copy ← modify t i j (set_rgbtRed r);
   g ← round_to_BYTE (float.div (float.of_int (totalGreen acc)) (pixelCount acc));
   copy ← modify copy i j (set_rgbtGreen g);
   b ← round_to_BYTE (float.div (float.of_int (totalBlue acc)) (pixelCount acc));
   modify copy i j (set_rgbtBlue b))
  = modify t i j (λ _, blur_pixel h w g i j).
Proof using Hv.
  intros Hi Hj Hdt. pose proof Hv as [Hd _].
  rewrite (blur_box_fold h w g Hd), bind_Some.
  destruct (blur_box_result i j) as (-> & -> & -> & ->).
  rewrite !blur_byte by auto using chan_red_byte, chan_green_byte, chan_blue_byte.
  rewrite bind_Some. cbn [mbind option_bind]. rewrite modify_modify3.
  destruct (at_Some _ _ _ i j Hdt Hi Hj) as [p Hp].
  by apply (modify_ext _ _ _ _ _ p).
Qed.

Lemma ns_blur_body i j t :
  0 ≤ i < h → 0 ≤ j < w → dims h w t →
  (a ← image_filters.blur_box h w g i j;
   r ← image_filters.mean_byte (image_filters.totalRed a) (image_filters.count a);
   copy ← modify t i j (set_rgbtRed r);
   g ← image_filters.mean_byte (image_filters.totalGreen a) (image_filters.count a);
   copy ← modify copy i j (set_rgbtGreen g);
   b ← image_filters.mean_byte (image_filters.totalBlue a) (image_filters.count a);
   modify copy i j (set_rgbtBlue b))
  = modify t i j (λ _, blur_pixel h w g i j).
Proof using Hv.
  intros Hi Hj Hdt. pose proof Hv as [Hd _].
  rewrite (ns_blur_box_fold h w g Hd), bind_Some.
  destruct (ns_blur_box_result i j) as (-> & -> & -> & ->).
  rewrite !ns_blur_byte by auto using chan_red_byte, chan_green_byte, chan_blue_byte.
  rewrite bind_Some. cbn [mbind option_bind]. rewrite modify_modify3.
  destruct (at_Some _ _ _ i j Hdt Hi Hj) as [p Hp].
  by apply (modify_ext _ _ _ _ _ p).
Qed.

(** [blur] runs to completion and writes the rounded window mean of
    every channel at every position. *)
Lemma blur_spec :
  ∃ g', blur h w g = Some g' ∧ dims h w g' ∧
        ∀ i j, 0 ≤ i < h → 0 ≤ j < w →
               at_ g' i j = Some (blur_pixel h w g i j).
Proof using Hv.
  pose proof Hv as [Hd _]. pose proof Hd as (Hw & Hh & _).
  edestruct (grid_loop h w) with (f := λ i j (_ : RGBTRIPLE), blur_pixel h w g i j)
    as (g' & Hrun & Hd' & Hg'); [exact Hd| |].
  { intros i j t Hi Hj Hdt _. by apply blur_body. }
  exists g'. split; [|split; [done|]].
  - unfold blur, vector_new. rewrite decide_True by lia.
    rewrite bind_Some, decide_True by lia. rewrite bind_Some.
    rewrite copy_into_spec; [|done|apply dims_replicate; lia].
    rewrite bind_Some, Hrun, bind_Some. by apply copy_into_spec.
  - intros i j Hi Hj.
    destruct (at_Some _ _ _ i j Hd Hi Hj) as [p Hp]. by apply (Hg' _ _ p).
Qed.

(** [image_filters::blur] does the same. *)
Lemma ns_blur_spec :
  ∃ g', image_filters.blur g = Some g' ∧ dims h w g' ∧
        ∀ i j, 0 ≤ i < h → 0 ≤ j < w →
               at_ g' i j = Some (blur_pixel h w g i j).
Proof using Hv.
  pose proof Hv as [Hd _]. pose proof Hd as (Hw & Hh & _).
  unfold image_filters.blur. rewrite Hh. case_decide as Hz.
  { exists g. split; [done|]. split; [done|]. intros; lia. }
  destruct (lookup_lt_is_Some_2 g 0%nat) as [row0 Hrow0]; [lia|].
  rewrite Hrow0, bind_Some.
  rewrite (dims_row _ _ _ _ _ Hd Hrow0).
  edestruct (grid_loop h w) with (f := λ i j (_ : RGBTRIPLE), blur_pixel h w g i j)
    as (g' & Hrun & Hd' & Hg'); [exact Hd| |].
  { intros i j t Hi Hj Hdt _. by apply ns_blur_body. }
  exists g'. split; [|split; [done|]].
  - by rewrite Hrun, bind_Some.
  - intros i j Hi Hj.
    destruct (at_Some _ _ _ i j Hd Hi Hj) as [p Hp]. by apply (Hg' _ _ p).
Qed.
End BlurSpec.

(* ================================================================== *)
(** ** Facts about [double] *)

Lemma double_emin : SpecFloat.emin double.prec double.emax = -1074.
Proof. reflexivity. Qed.

Lemma log2_digits n :
  0 < n → 2 ^ (Z.log2 n + 1 - 1) ≤ n < 2 ^ (Z.log2 n + 1) ∧ 0 < Z.log2 n + 1.
Proof.
  intros Hn. replace (Z.log2 n + 1 - 1) with (Z.log2 n) by lia.
  pose proof (Z.log2_spec n Hn). pose proof (Z.log2_nonneg n).
  unfold Z.succ in *. lia.
Qed.

(** An integer below [2^53] converts exactly, to a full mantissa. *)
Lemma double_of_int_pos n :
  0 < n < 2 ^ 53 →
  ∃ m, double.of_int n = S754_finite false m (Z.log2 n + 1 - 53) ∧
       Z.pos m = n * 2 ^ (53 - (Z.log2 n + 1)) ∧
       2 ^ 52 ≤ Z.pos m < 2 ^ 53.
Proof.
  intros Hn. destruct (log2_digits n) as [Hd Hd0]; [lia|].
  assert (Z.log2 n < 53) as Hlt by (apply Z.log2_lt_pow2; lia).
  destruct (binary_normalize_int double.prec double.emax) with (n := n) (d := Z.log2 n + 1)
    as (m & Heq & Hm); [done|done|done|unfold double.prec; lia|rewrite double_emin; unfold double.prec; lia|].
  exists m. split; [exact Heq|]. split; [exact Hm|].
  unfold double.prec in Hm. rewrite Hm.
  set (d := Z.log2 n + 1) in *.
  pose proof (pow2_pos (53 - d) ltac:(lia)).
  assert (2 ^ 52 = 2 ^ (d - 1) * 2 ^ (53 - d)) as ->
    by (rewrite <- pow2_split by lia; f_equal; lia).
  assert (2 ^ 53 = 2 ^ d * 2 ^ (53 - d)) as ->
    by (rewrite <- pow2_split by lia; f_equal; lia).
  nia.
Qed.

Lemma double_of_int_0 : double.of_int 0 = S754_zero false.
Proof. reflexivity. Qed.

Lemma double_add_0_l x :
  (x = S754_zero false ∨ ∃ m e, x = S754_finite false m e) →
  double.add (S754_zero false) x = x.
Proof. by intros [->|(m & e & ->)]. Qed.

Lemma double_add_0_r x :
  (x = S754_zero false ∨ ∃ m e, x = S754_finite false m e) →
  double.add x (S754_zero false) = x.
Proof. by intros [->|(m & e & ->)]. Qed.

(** Adding two integers whose sum is below [2^53] is exact. *)
Lemma double_add_int p q :
  0 ≤ p → 0 ≤ q → p + q < 2 ^ 53 →
  double.add (double.of_int p) (double.of_int q) = double.of_int (p + q).
Proof.
  intros Hp Hq Hs.
  destruct (decide (p = 0)) as [->|Hp0].
  { rewrite double_of_int_0, Z.add_0_l. apply double_add_0_l.
    destruct (decide (q = 0)) as [->|?]; [by left|right].
    destruct (double_of_int_pos q) as (m & -> & _); [lia|]. eauto. }
  destruct (decide (q = 0)) as [->|Hq0].
  { rewrite double_of_int_0, Z.add_0_r. apply double_add_0_r. right.
    destruct (double_of_int_pos p) as (m & -> & _); [lia|]. eauto. }
  destruct (double_of_int_pos p) as (mp & -> & Hmp & Hcp); [lia|].
  destruct (double_of_int_pos q) as (mq & -> & Hmq & Hcq); [lia|].
  destruct (double_of_int_pos (p + q)) as (ms & -> & Hms & Hcs); [lia|].
  destruct (log2_digits p) as [Hdp Hdp0]; [lia|].
  destruct (log2_digits q) as [Hdq Hdq0]; [lia|].
  destruct (log2_digits (p + q)) as [Hds Hds0]; [lia|].
  set (dp := Z.log2 p + 1) in *. set (dq := Z.log2 q + 1) in *.
  set (ds := Z.log2 (p + q) + 1) in *.
  assert (dp ≤ ds ∧ dq ≤ ds ∧ ds ≤ 53) as (Hps & Hqs & Hs53).
  { unfold dp, dq, ds. pose proof (Z.log2_le_mono p (p + q)).
    pose proof (Z.log2_le_mono q (p + q)).
    assert (Z.log2 (p + q) < 53) by (apply Z.log2_lt_pow2; lia). lia. }
  set (ez := Z.min (dp - 53) (dq - 53)).
  set (M := Z.pos mp * 2 ^ (dp - 53 - ez) + Z.pos mq * 2 ^ (dq - 53 - ez)).
  assert (M = (p + q) * 2 ^ (- ez)) as HM.
  { unfold M. rewrite Hmp, Hmq, <- !Z.mul_assoc, <- !pow2_split by lia.
    replace (53 - dp + (dp - 53 - ez)) with (- ez) by lia.
    replace (53 - dq + (dq - 53 - ez)) with (- ez) by lia. ring. }
  pose proof (pow2_pos (- ez) ltac:(lia)) as Hpez.
  assert (2 ^ (ds - ez - 1) ≤ M < 2 ^ (ds - ez)) as HMb.
  { rewrite HM.
    replace (ds - ez - 1) with (ds - 1 + - ez) by lia.
    replace (ds - ez) with (ds + - ez) by lia.
    rewrite !pow2_split by lia. nia. }
  destruct (SFadd_pos_unfold double.prec double.emax) with
    (mx := mp) (ex := dp - 53) (my := mq) (ey := dq - 53) (D := ds - ez)
    as [HD Hadd]; [done|done|exact (proj1 Hcp)|rewrite double_emin; lia|
                   rewrite double_emin; lia|exact HMb|].
  unfold double.add. fold ez in Hadd. fold M in Hadd. rewrite Hadd.
  destruct (binary_round_aux_exact double.prec double.emax) with
    (sx := false) (mx := M) (ex := ez) (d := ds - ez) as (m' & -> & Hm');
    [done|exact HMb|exact HD|rewrite double_emin; lia|unfold double.emax; lia| |].
  - unfold double.prec. rewrite HM.
    replace (- ez) with (53 - ds + (ds - ez - 53)) by lia.
    rewrite pow2_split, Z.mul_assoc by lia. apply Z.mod_mul.
    pose proof (pow2_pos (ds - ez - 53) ltac:(lia)). lia.
  - unfold double.prec in *.
    replace (ez + (ds - ez - 53)) with (ds - 53) by lia. f_equal.
    apply Pos2Z.inj. rewrite Hm', Hms, HM.
    replace (- ez) with (53 - ds + (ds - ez - 53)) by lia.
    rewrite pow2_split, Z.mul_assoc by lia. apply Z.div_mul.
    pose proof (pow2_pos (ds - ez - 53) ltac:(lia)). lia.
Qed.

(* ================================================================== *)
(** ** The rounding error of a sepia row *)

Lemma sv60_nonneg x : 0 ≤ sv60 x.
Proof.
  destruct x as [| | |[] m e]; simpl; lia.
Qed.

(** One addition loses at most [2^-43]. *)
Lemma canon60_add x y :
  canon60 x → canon60 y → sv60 x + sv60 y < 2 ^ 69 →
  canon60 (double.add x y) ∧
  Z.abs (sv60 (double.add x y) - (sv60 x + sv60 y)) ≤ 2 ^ 17.
Proof.
  intros Hx Hy Hsum.
  destruct Hx as [->|(mx & ex & -> & Hmx & Hex)].
  { rewrite double_add_0_l.
    - split; [done|]. simpl. lia.
    - destruct Hy as [->|(my & ey & -> & _)]; eauto. }
  destruct Hy as [->|(my & ey & -> & Hmy & Hey)].
  { rewrite double_add_0_r by eauto. split; [right; eauto 10|]. simpl. lia. }
  set (ez := Z.min ex ey).
  set (M := Z.pos mx * 2 ^ (ex - ez) + Z.pos my * 2 ^ (ey - ez)).
  pose proof (pow2_pos (ex - ez) ltac:(lia)) as H1.
  pose proof (pow2_pos (ey - ez) ltac:(lia)) as H2.
  pose proof (pow2_pos (ez + 60) ltac:(lia)) as H3.
  assert (sv60 (S754_finite false mx ex) + sv60 (S754_finite false my ey)
          = M * 2 ^ (ez + 60)) as Hsv.
  { unfold M. simpl. rewrite Z.mul_add_distr_r, <- !Z.mul_assoc, <- !pow2_split by lia.
    replace (ex - ez + (ez + 60)) with (ex + 60) by lia.
    replace (ey - ez + (ez + 60)) with (ey + 60) by lia. done. }
  rewrite Hsv in *.
  assert (0 < M) as HMpos by (unfold M; nia).
  destruct (log2_digits M HMpos) as [HD HD0].
  set (D := Z.log2 M + 1) in *.
  destruct (SFadd_pos_unfold double.prec double.emax) with
    (mx := mx) (ex := ex) (my := my) (ey := ey) (D := D)
    as [HD53 Hadd]; [done|done|exact (proj1 Hmx)|rewrite double_emin; lia|
                     rewrite double_emin; lia|exact HD|].
  unfold double.prec in HD53.
  assert (D ≤ 9 - ez) as HDub.
  { destruct (decide (D ≤ 9 - ez)) as [|Hn]; [done|].
    assert (2 ^ (9 - ez) ≤ 2 ^ (D - 1)) by (apply Z.pow_le_mono_r; lia).
    assert (2 ^ 69 = 2 ^ (9 - ez) * 2 ^ (ez + 60)) as Heq
      by (rewrite <- pow2_split by lia; f_equal; lia).
    rewrite Heq in Hsum. nia. }
  unfold double.add. fold ez M in Hadd. rewrite Hadd.
  destruct (binary_round_aux_spec double.prec double.emax) with
    (sx := false) (mx := M) (ex := ez) (lx := loc_Exact) (d := D)
    as (m' & n & c & -> & Hn & Hm' & Hc & Hval & _);
    [done|exact HD|exact HD53|rewrite double_emin; lia|unfold double.emax; lia|].
  unfold double.prec in *. split.
  { right. exists m', (ez + n). split; [done|]. split; [done|]. lia. }
  cbn [sv60].
  replace (ez + n + 60) with (n + (ez + 60)) by lia.
  rewrite pow2_split, Z.mul_assoc, Hval by lia.
  set (X := 2 ^ (D - 53)) in *.
  assert (0 < X) as HX by (apply pow2_pos; lia).
  pose proof (Z.div_mod M X ltac:(lia)) as Hdm.
  pose proof (Z.mod_pos_bound M X HX) as Hmod.
  assert (X * 2 ^ (ez + 60) ≤ 2 ^ 17) as Hscale.
  { unfold X. rewrite <- pow2_split by lia. apply Z.pow_le_mono_r; lia. }
  nia.
Qed.

(** [std::round] of such a double is the half-up quotient of its scaled
    value. *)
Lemma canon60_round x :
  canon60 x → round_half_away x = Some ((sv60 x + 2 ^ 59) / 2 ^ 60).
Proof.
  intros [->|(m & e & -> & Hm & He)]; [done|].
  unfold round_half_away. rewrite decide_False by lia. f_equal. cbn [sv60].
  pose proof (pow2_pos (e + 60) ltac:(lia)) as H1.
  rewrite <- (Z.div_mul_cancel_r _ _ (2 ^ (e + 60))) by (try apply Z.pow_nonzero; lia).
  f_equal.
  - rewrite Z.mul_add_distr_r, <- pow2_split by lia. f_equal. f_equal. lia.
  - rewrite <- pow2_split by lia. f_equal. lia.
Qed.

Lemma product_facts n r :
  n ∈ sepia_coefficients → 0 ≤ r ≤ 255 →
  let x := double.mul (double.milli n) (double.of_int r) in
  canon60 x ∧ Z.abs (1000 * sv60 x - n * r * 2 ^ 60) ≤ 2 ^ 27.
Proof.
  intros Hn Hr.
  assert (forallb (λ n, all_below 256 (product_check n)) sepia_coefficients = true)
    as Hall by (by vm_compute).
  rewrite forallb_forall in Hall. specialize (Hall n).
  rewrite <- list_elem_of_In in Hall. specialize (Hall Hn).
  apply (all_below_spec _ _ r) in Hall; [|lia].
  unfold product_check in Hall. cbv zeta.
  destruct (double.mul (double.milli n) (double.of_int r)) as [[]| | |[] m e];
    try done.
  - apply bool_decide_eq_true in Hall as ->. split; [by left|]. simpl. lia.
  - apply bool_decide_eq_true in Hall as (Hm & He & Herr).
    split; [right; eauto 10|]. exact Herr.
Qed.

(* ================================================================== *)
(** ** Sepia *)

(** A row of the matrix, evaluated in [double] and rounded, is an integer
    nearest to the exact value of the row. *)
Lemma sepia_channel_spec n1 n2 n3 p :
  n1 ∈ sepia_coefficients → n2 ∈ sepia_coefficients →
  n3 ∈ sepia_coefficients →
  0 ≤ n1 → 0 ≤ n2 → 0 ≤ n3 → n1 + n2 + n3 ≤ 1400 →
  pixel_ok p →
  ∃ v, sepia_channel n1 n2 n3 p = Some v ∧
       0 ≤ v ≤ 400 ∧
       nearest_to (n1 * rgbtRed p + n2 * rgbtGreen p + n3 * rgbtBlue p) 1000 v.
Proof.
  intros H1 H2 H3 Hn1 Hn2 Hn3 Hsum (Hb & Hg & Hr). unfold is_BYTE in *.
  destruct (product_facts n1 (rgbtRed p) H1 Hr) as [C1 E1].
  destruct (product_facts n2 (rgbtGreen p) H2 Hg) as [C2 E2].
  destruct (product_facts n3 (rgbtBlue p) H3 Hb) as [C3 E3].
  unfold sepia_channel.
  set (P1 := double.mul (double.milli n1) (double.of_int (rgbtRed p))) in *.
  set (P2 := double.mul (double.milli n2) (double.of_int (rgbtGreen p))) in *.
  set (P3 := double.mul (double.milli n3) (double.of_int (rgbtBlue p))) in *.
  assert (0 ≤ n1 * rgbtRed p ≤ 255 * n1) as B1 by nia.
  assert (0 ≤ n2 * rgbtGreen p ≤ 255 * n2) as B2 by nia.
  assert (0 ≤ n3 * rgbtBlue p ≤ 255 * n3) as B3 by nia.
  set (t1 := n1 * rgbtRed p) in *. set (t2 := n2 * rgbtGreen p) in *.
  set (t3 := n3 * rgbtBlue p) in *.
  destruct (canon60_add P1 P2 C1 C2) as [C12 E12]; [lia|].
  set (S12 := double.add P1 P2) in *.
  destruct (canon60_add S12 P3 C12 C3) as [C123 E123]; [lia|].
  set (x := double.add S12 P3) in *.
  unfold round_to_int. rewrite (canon60_round x C123), bind_Some.
  set (v := (sv60 x + 2 ^ 59) / 2 ^ 60).
  pose proof (Z.div_mod (sv60 x + 2 ^ 59) (2 ^ 60) ltac:(lia)) as Hdm.
  pose proof (Z.mod_pos_bound (sv60 x + 2 ^ 59) (2 ^ 60) ltac:(lia)) as Hmod.
  fold v in Hdm.
  assert (0 ≤ v ≤ 400 ∧ nearest_to (t1 + t2 + t3) 1000 v) as [Hv Hnear].
  { unfold nearest_to. lia. }
  exists v. rewrite decide_True by lia. done.
Qed.

Lemma sepia_value_spec n1 n2 n3 p :
  n1 ∈ sepia_coefficients → n2 ∈ sepia_coefficients →
  n3 ∈ sepia_coefficients →
  0 ≤ n1 → 0 ≤ n2 → 0 ≤ n3 → n1 + n2 + n3 ≤ 1400 →
  pixel_ok p →
  ∃ v, sepia_channel n1 n2 n3 p = Some v ∧
       sepia_value n1 n2 n3 p = clamp_byte v ∧
       nearest_to (n1 * rgbtRed p + n2 * rgbtGreen p + n3 * rgbtBlue p) 1000 v.
Proof.
  intros. destruct (sepia_channel_spec n1 n2 n3 p) as (v & Hv & _ & Hn);
    [done..|].
  exists v. unfold sepia_value. by rewrite Hv.
Qed.

Lemma clamp_byte_is_BYTE v : is_BYTE (clamp_byte v).
Proof. unfold is_BYTE, clamp_byte. lia. Qed.

Ltac coefficient := unfold sepia_coefficients; rewrite !elem_of_cons; tauto.

Lemma sepia_spec h w g :
  valid h w g →
  ∃ g', sepia h w g = Some g' ∧ dims h w g' ∧
        ∀ i j p, at_ g i j = Some p → at_ g' i j = Some (sepia_pixel p).
Proof.
  intros Hv. pose proof Hv as [Hd _]. unfold sepia.
  apply (grid_loop h w _ (λ _ _ p, sepia_pixel p) g Hd).
  intros i j t Hi Hj Hdt Hsame.
  destruct (at_Some _ _ _ i j Hd Hi Hj) as [p Hp].
  rewrite Hsame, Hp, bind_Some.
  pose proof (valid_pixel _ _ _ _ _ _ Hv Hp) as Hok.
  destruct (sepia_value_spec 393 769 189 p) as (vr & Hcr & Hvr & _);
    [coefficient..|lia|lia|lia|lia|done|].
  destruct (sepia_value_spec 349 686 168 p) as (vg & Hcg & Hvg & _);
    [coefficient..|lia|lia|lia|lia|done|].
  destruct (sepia_value_spec 272 534 131 p) as (vb & Hcb & Hvb & _);
    [coefficient..|lia|lia|lia|lia|done|].
  rewrite Hcr, bind_Some, Hcg, bind_Some, Hcb, bind_Some. cbv zeta.
  rewrite modify_modify3. apply (modify_ext _ _ _ _ _ p); [congruence|].
  unfold sepia_pixel. rewrite Hvr, Hvg, Hvb. unfold compose.
  assert (∀ v, BYTE_of_int (Z.max (Z.min v 255) 0) = clamp_byte v) as Hcl.
  { intros v. rewrite Z.max_comm. apply BYTE_of_int_id, clamp_byte_is_BYTE. }
  by rewrite !Hcl.
Qed.

(* ================================================================== *)
(** ** The rounded square root *)

Lemma div2_even_part hh b : 0 ≤ b ≤ 1 → Z.div2 (2 * hh + b) = hh.
Proof.
  intros Hb. rewrite Z.div2_div. symmetry.
  apply (Z.div_unique _ _ _ b); lia.
Qed.

(** The integer square root the specification extracts for a full
    mantissa [m] with exponent [2 * hh + b - 52]. *)
Lemma sqrt_core_spec m hh b :
  2 ^ 52 ≤ Z.pos m < 2 ^ 53 → 0 ≤ b ≤ 1 → -400 ≤ hh ≤ 400 →
  ∃ l, SFsqrt_core_binary double.prec double.emax (Z.pos m) (2 * hh + b - 52)
       = (Z.sqrt (Z.pos m * 2 ^ (52 + b)), hh - 52, l).
Proof.
  intros Hm Hb Hh. unfold SFsqrt_core_binary. cbn [Zdigits2].
  rewrite (Zdigits2_unique m 53) by (done || lia).
  replace (53 + (2 * hh + b - 52) + 1) with (2 * (hh + 1) + b) by lia.
  replace (2 * hh + b - 52) with (2 * (hh - 26) + b) by lia.
  rewrite !div2_even_part by lia.
  unfold fexp. rewrite double_emin. unfold double.prec.
  rewrite Z.max_l by lia. rewrite Z.min_l by lia.
  replace (2 * (hh - 26) + b - 2 * (hh + 1 - 53)) with (52 + b) by lia.
  replace (hh + 1 - 53) with (hh - 52) by lia.
  assert (∃ s, 52 + b = Z.pos s) as [s Hs].
  { destruct (52 + b) as [|s|s] eqn:Hs; [lia|eauto|lia]. }
  rewrite Hs, Z.shiftl_mul_pow2 by lia.
  pose proof (Z.sqrtrem_sqrt (Z.pos m * 2 ^ Z.pos s)) as Hq.
  destruct (Z.sqrtrem (Z.pos m * 2 ^ Z.pos s)) as [q r]. simpl in Hq.
  rewrite Hq. eauto.
Qed.

Lemma sqrt_bounds x lo hi :
  0 ≤ lo → 0 ≤ hi → lo * lo ≤ x < hi * hi → lo ≤ Z.sqrt x < hi.
Proof.
  intros Hlo Hhi [Hx1 Hx2]. split.
  - apply Z.sqrt_le_square; lia.
  - apply Z.sqrt_lt_square; lia.
Qed.

(** The arithmetic heart: rounding a quotient [(q + c + H) / (2 H)], where
    [q] is the integer square root of [n * (2 H)^2], finds the integer
    nearest to the square root of [n]. *)
Lemma nearest_to_sqrt_scaled n q c H v :
  0 ≤ n → 0 ≤ q → 0 ≤ c ≤ 1 → 0 < H →
  q * q ≤ n * (2 * H * (2 * H)) < (q + 1) * (q + 1) →
  8 * q + 4 < 2 * H * (2 * H) →
  v = (q + c + H) / (2 * H) →
  nearest_to_sqrt n v.
Proof.
  intros Hn Hq Hc HH [Hq1 Hq2] Hbig ->.
  pose proof (Z.div_mod (q + c + H) (2 * H) ltac:(lia)) as Hdm.
  pose proof (Z.mod_pos_bound (q + c + H) (2 * H) ltac:(lia)) as Hmod.
  set (v := (q + c + H) / (2 * H)) in *.
  set (S := 2 * H) in *.
  assert (0 ≤ v) as Hv by (apply Z.div_pos; lia).
  split; [done|]. split.
  - intros Hv0.
    destruct (decide ((2 * v - 1) * (2 * v - 1) < 4 * n)) as [|Hn']; [done|].
    exfalso.
    assert (4 * n + 1 ≤ (2 * v - 1) * (2 * v - 1)) as Hodd by lia.
    assert ((2 * v - 1) * S ≤ 2 * q + 2) as Hup by nia.
    assert (0 ≤ (2 * v - 1) * S) as Hpos by nia.
    assert ((2 * v - 1) * S * ((2 * v - 1) * S) ≤ (2 * q + 2) * (2 * q + 2))
      as Hsq by (apply Z.mul_le_mono_nonneg; lia).
    assert ((4 * n + 1) * (S * S) ≤ (2 * v - 1) * (2 * v - 1) * (S * S))
      as Hmul by (apply Z.mul_le_mono_nonneg_r; nia).
    nia.
  - destruct (decide (4 * n < (2 * v + 1) * (2 * v + 1))) as [|Hn']; [done|].
    exfalso.
    assert ((2 * v + 1) * (2 * v + 1) * (S * S) ≤ 4 * n * (S * S)) as Hmul
      by (apply Z.mul_le_mono_nonneg_r; nia).
    assert ((2 * v + 1) * S * ((2 * v + 1) * S) < (2 * q + 2) * (2 * q + 2))
      as Hsq by nia.
    assert ((2 * v + 1) * S < 2 * q + 2) as Hlt
      by (apply Z.square_lt_simpl_nonneg; lia).
    assert ((2 * v + 1) * S = 2 * ((2 * v + 1) * H)) as Heven by (unfold S; ring).
    lia.
Qed.

(** [round(sqrt(n))] in [double] is the integer nearest to the square root
    of [n], for every integer the Sobel sums can produce. *)
Lemma double_sqrt_round n :
  0 ≤ n < 2 ^ 22 →
  ∃ v, round_half_away (double.sqrt (double.of_int n)) = Some v ∧
       nearest_to_sqrt n v.
Proof.
  intros Hn. destruct (decide (n = 0)) as [->|Hn0].
  { exists 0. split; [reflexivity|]. unfold nearest_to_sqrt. lia. }
  destruct (double_of_int_pos n) as (m & -> & Hm & Hcan); [lia|].
  assert (Z.log2 n < 22) as Ha by (apply Z.log2_lt_pow2; lia).
  pose proof (Z.log2_nonneg n) as Ha0.
  pose proof (Z.div_mod (Z.log2 n) 2 ltac:(lia)) as Hdm.
  pose proof (Z.mod_pos_bound (Z.log2 n) 2 ltac:(lia)) as Hmod.
  set (hh := Z.log2 n / 2) in *. set (b := Z.log2 n mod 2) in *.
  assert (0 ≤ hh ≤ 10) as Hhh by lia.
  replace (Z.log2 n + 1 - 53) with (2 * hh + b - 52) by lia.
  replace (53 - (Z.log2 n + 1)) with (52 - 2 * hh - b) in Hm by lia.
  destruct (sqrt_core_spec m hh b) as [l Hcore]; [done|lia|lia|].
  unfold double.sqrt, SFsqrt. rewrite Hcore. cbv beta iota.
  set (H := 2 ^ (51 - hh)).
  assert (0 < H) as HH by (apply pow2_pos; lia).
  assert (2 ^ (52 - hh) = 2 * H) as HS.
  { unfold H. replace (52 - hh) with (1 + (51 - hh)) by lia.
    by rewrite pow2_split by lia. }
  assert (Z.pos m * 2 ^ (52 + b) = n * (2 * H * (2 * H))) as Hval.
  { rewrite Hm, <- HS, <- Z.mul_assoc, <- !pow2_split by lia.
    f_equal. f_equal. lia. }
  assert (2 ^ 84 ≤ 2 * H * (2 * H)) as Hbig.
  { rewrite <- HS, <- pow2_split by lia. apply Z.pow_le_mono_r; lia. }
  set (q := Z.sqrt (Z.pos m * 2 ^ (52 + b))) in *.
  assert (2 ^ 52 ≤ q < 2 ^ 53) as Hq.
  { apply sqrt_bounds; [lia..|].
    assert (2 ^ 52 ≤ 2 ^ (52 + b) ≤ 2 ^ 53) as Hpb
      by (split; apply Z.pow_le_mono_r; lia).
    nia. }
  pose proof (Z.sqrt_spec (Z.pos m * 2 ^ (52 + b)) ltac:(lia)) as Hsq.
  fold q in Hsq. cbv zeta in Hsq. unfold Z.succ in Hsq. rewrite Hval in Hsq.
  destruct (binary_round_aux_spec double.prec double.emax) with
    (sx := false) (mx := q) (ex := hh - 52) (lx := l) (d := 53)
    as (m' & k & c & -> & Hk & Hm' & Hc & Hmk & _);
    [done|exact Hq|done|rewrite double_emin; lia|unfold double.emax; lia|].
  unfold double.prec in *. rewrite Z.sub_diag, Z.div_1_r, Z.mul_1_r in Hmk.
  unfold round_half_away. rewrite decide_False by lia.
  eexists. split; [reflexivity|].
  apply (nearest_to_sqrt_scaled n q c H); [lia..|exact Hsq|lia|].
  destruct (decide (k = 0)) as [->|Hk1].
  - rewrite Z.mul_1_r in Hmk. rewrite Hmk. f_equal.
    + f_equal. unfold H. f_equal. lia.
    + rewrite <- HS. f_equal. lia.
  - assert (k = 1) as -> by lia. change (2 ^ 1) with 2 in Hmk.
    replace (- (hh - 52 + 1) - 1) with (50 - hh) by lia.
    replace (- (hh - 52 + 1)) with (51 - hh) by lia. fold H.
    assert (H = 2 * 2 ^ (50 - hh)) as HH2.
    { unfold H. replace (51 - hh) with (1 + (50 - hh)) by lia.
      by rewrite pow2_split by lia. }
    rewrite <- (Z.div_mul_cancel_l _ _ 2) by lia. f_equal. lia.
Qed.

Lemma square_exact a :
  -1020 ≤ a ≤ 1020 →
  double.pow2 (double.of_int a) = double.of_int (a * a).
Proof.
  intros Ha. assert (all_below 2041 square_check = true) as Hall by (by vm_compute).
  apply (all_below_spec _ _ (a + 1020)) in Hall; [|lia].
  unfold square_check in Hall. cbv zeta in Hall.
  replace (a + 1020 - 1020) with a in Hall by lia.
  by apply bool_decide_eq_true in Hall.
Qed.

(** The gradient magnitude: the integer nearest to the square root of
    [gx^2 + gy^2], capped at 255. *)
Lemma edge_magnitude_spec gx gy :
  -1020 ≤ gx ≤ 1020 → -1020 ≤ gy ≤ 1020 →
  ∃ v, edge_magnitude gx gy = Some (Z.min v 255) ∧
       nearest_to_sqrt (gx * gx + gy * gy) v.
Proof.
  intros Hx Hy. unfold edge_magnitude.
  rewrite !square_exact by done.
  rewrite double_add_int by nia.
  destruct (double_sqrt_round (gx * gx + gy * gy)) as (v & Hv & Hnear); [nia|].
  exists v. split; [|done]. unfold round_to_int. rewrite Hv, bind_Some.
  assert (0 ≤ v ≤ 2 ^ 12) as Hvb.
  { destruct Hnear as (Hv0 & Hlo & _). split; [done|].
    destruct (decide (v ≤ 2 ^ 12)) as [|Hbig]; [done|]. nia. }
  rewrite decide_True by lia. rewrite bind_Some. f_equal.
  case_decide; lia.
Qed.

(* ================================================================== *)
(** ** The 3x3 box of edges *)

Section EdgesBox.
Variables (h w : Z) (g : grid).
Hypothesis Hd : dims h w g.

Lemma channel_or_0_outside chan y x :
  ¬ (0 ≤ y < h ∧ 0 ≤ x < w) → channel_or_0 chan g y x = 0.
Proof using Hd.
  intros Hout. unfold channel_or_0.
  destruct (at_ g y x) as [p|] eqn:Hp; [|done].
  apply (at_inv _ _ _ _ _ _ Hd) in Hp. lia.
Qed.

Lemma edges_step acc y x kx ky :
  Gx !! Z.to_nat (kernel_position acc) = Some kx →
  Gy !! Z.to_nat (kernel_position acc) = Some ky →
  (acc' ←
     (if decide (¬ (x < 0 ∨ x >= w ∨ y < 0 ∨ y >= h))
      then
        p ← at_ g y x;
        kx ← Gx !! Z.to_nat (kernel_position acc);
        ky ← Gy !! Z.to_nat (kernel_position acc);
        Some (mkEdgeAcc (GxRed acc + rgbtRed p * kx)
                        (GxBlue acc + rgbtBlue p * kx)
                        (GxGreen acc + rgbtGreen p * kx)
                        (GyRed acc + rgbtRed p * ky)
                        (GyBlue acc + rgbtBlue p * ky)
                        (GyGreen acc + rgbtGreen p * ky)
                        (kernel_position acc))
      else Some acc);
   Some (mkEdgeAcc (GxRed acc') (GxBlue acc') (GxGreen acc')
                   (GyRed acc') (GyBlue acc') (GyGreen acc')
                   (kernel_position acc' + 1)))
  = Some (edge_step g kx ky y x acc).
Proof using Hd.
  intros Hkx Hky. unfold edge_step. case_decide as Hin.
  - destruct (at_Some h w g y x Hd) as [p Hp]; [lia..|].
    unfold channel_or_0. rewrite Hp, Hkx, Hky. done.
  - rewrite !channel_or_0_outside by lia. rewrite bind_Some.
    f_equal. destruct acc. simpl. f_equal; lia.
Qed.

Lemma edges_row acc y j k kx0 ky0 kx1 ky1 kx2 ky2 :
  kernel_position acc = k → 0 ≤ k →
  Gx !! Z.to_nat k = Some kx0 → Gy !! Z.to_nat k = Some ky0 →
  Gx !! Z.to_nat (k + 1) = Some kx1 → Gy !! Z.to_nat (k + 1) = Some ky1 →
  Gx !! Z.to_nat (k + 1 + 1) = Some kx2 → Gy !! Z.to_nat (k + 1 + 1) = Some ky2 →
  for_range (j - 1) (j + 1 + 1) (λ x acc,
    acc ←
      (if decide (¬ (x < 0 ∨ x >= w ∨ y < 0 ∨ y >= h))
       then
         p ← at_ g y x;
         kx ← Gx !! Z.to_nat (kernel_position acc);
         ky ← Gy !! Z.to_nat (kernel_position acc);
         Some (mkEdgeAcc (GxRed acc + rgbtRed p * kx)
                         (GxBlue acc + rgbtBlue p * kx)
                         (GxGreen acc + rgbtGreen p * kx)
                         (GyRed acc + rgbtRed p * ky)
                         (GyBlue acc + rgbtBlue p * ky)
                         (GyGreen acc + rgbtGreen p * ky)
                         (kernel_position acc))
       else Some acc);
    Some (mkEdgeAcc (GxRed acc) (GxBlue acc) (GxGreen acc)
                    (GyRed acc) (GyBlue acc) (GyGreen acc)
                    (kernel_position acc + 1))) acc
  = Some (edge_step g kx2 ky2 y (j + 1)
            (edge_step g kx1 ky1 y j
               (edge_step g kx0 ky0 y (j - 1) acc))).
Proof using Hd.
  intros Hk Hk0 H0x H0y H1x H1y H2x H2y.
  rewrite for_range_around.
  rewrite (edges_step acc y (j - 1) kx0 ky0) by (by rewrite Hk).
  rewrite bind_Some.
  rewrite (edges_step _ y j kx1 ky1) by (by cbn [edge_step kernel_position]; rewrite Hk).
  rewrite bind_Some.
  by rewrite (edges_step _ y (j + 1) kx2 ky2)
    by (by cbn [edge_step kernel_position]; rewrite Hk).
Qed.

(** The nested loops apply the nine kernel weights in order. *)
Lemma edges_box_steps i j :
  edges_box h w g i j
  = Some (edge_step g 1 1 (i + 1) (j + 1)
         (edge_step g 0 2 (i + 1) j
         (edge_step g (-1) 1 (i + 1) (j - 1)
         (edge_step g 2 0 i (j + 1)
         (edge_step g 0 0 i j
         (edge_step g (-2) 0 i (j - 1)
         (edge_step g 1 (-1) (i - 1) (j + 1)
         (edge_step g 0 (-2) (i - 1) j
         (edge_step g (-1) (-1) (i - 1) (j - 1)
            (mkEdgeAcc 0 0 0 0 0 0 0)))))))))).
Proof using Hd.
  unfold edges_box. rewrite for_range_around.
  rewrite (edges_row _ (i - 1) j 0 (-1) (-1) 0 (-2) 1 (-1)) by (done || lia).
  rewrite bind_Some.
  rewrite (edges_row _ i j 3 (-2) 0 0 0 2 0) by (done || lia).
  rewrite bind_Some.
  by rewrite (edges_row _ (i + 1) j 6 (-1) 1 0 2 1 1) by (done || lia).
Qed.

Lemma edge_step_proj kx ky y x acc :
  GxRed (edge_step g kx ky y x acc)
    = GxRed acc + channel_or_0 rgbtRed g y x * kx ∧
  GyRed (edge_step g kx ky y x acc)
    = GyRed acc + channel_or_0 rgbtRed g y x * ky ∧
  GxGreen (edge_step g kx ky y x acc)
    = GxGreen acc + channel_or_0 rgbtGreen g y x * kx ∧
  GyGreen (edge_step g kx ky y x acc)
    = GyGreen acc + channel_or_0 rgbtGreen g y x * ky ∧
  GxBlue (edge_step g kx ky y x acc)
    = GxBlue acc + channel_or_0 rgbtBlue g y x * kx ∧
  GyBlue (edge_step g kx ky y x acc)
    = GyBlue acc + channel_or_0 rgbtBlue g y x * ky.
Proof. done. Qed.

Lemma edges_box_sums i j :
  ∃ acc, edges_box h w g i j = Some acc ∧
    GxRed acc = sobel_x (channel_or_0 rgbtRed g) i j ∧
    GyRed acc = sobel_y (channel_or_0 rgbtRed g) i j ∧
    GxGreen acc = sobel_x (channel_or_0 rgbtGreen g) i j ∧
    GyGreen acc = sobel_y (channel_or_0 rgbtGreen g) i j ∧
    GxBlue acc = sobel_x (channel_or_0 rgbtBlue g) i j ∧
    GyBlue acc = sobel_y (channel_or_0 rgbtBlue g) i j.
Proof using Hd.
  eexists. split; [apply edges_box_steps|].
  unfold sobel_x, sobel_y.
  repeat split;
    repeat (first
      [ rewrite (proj1 (edge_step_proj _ _ _ _ _))
      | rewrite (proj1 (proj2 (edge_step_proj _ _ _ _ _)))
      | rewrite (proj1 (proj2 (proj2 (edge_step_proj _ _ _ _ _))))
      | rewrite (proj1 (proj2 (proj2 (proj2 (edge_step_proj _ _ _ _ _)))))
      | rewrite (proj1 (proj2 (proj2 (proj2 (proj2 (edge_step_proj _ _ _ _ _))))))
      | rewrite (proj2 (proj2 (proj2 (proj2 (proj2 (edge_step_proj _ _ _ _ _)))))) ]);
    cbn [GxRed GxBlue GxGreen GyRed GyBlue GyGreen]; lia.
Qed.
End EdgesBox.

Lemma channel_or_0_byte h w g chan y x :
  valid h w g → (∀ p, pixel_ok p → 0 ≤ chan p ≤ 255) →
  0 ≤ channel_or_0 chan g y x ≤ 255.
Proof.
  intros Hv Hchan. unfold channel_or_0.
  destruct (at_ g y x) as [p|] eqn:Hp; simpl; [|lia].
  apply Hchan. by eapply valid_pixel.
Qed.

Lemma sobel_bounds (v : Z → Z → Z) i j :
  (∀ y x, 0 ≤ v y x ≤ 255) →
  -1020 ≤ sobel_x v i j ≤ 1020 ∧ -1020 ≤ sobel_y v i j ≤ 1020.
Proof.
  intros Hv. unfold sobel_x, sobel_y.
  pose proof (Hv (i - 1) (j - 1)). pose proof (Hv (i - 1) j).
  pose proof (Hv (i - 1) (j + 1)). pose proof (Hv i (j - 1)).
  pose proof (Hv i (j + 1)). pose proof (Hv (i + 1) (j - 1)).
  pose proof (Hv (i + 1) j). pose proof (Hv (i + 1) (j + 1)). lia.
Qed.

(* ================================================================== *)
(** ** Edges, pixel by pixel *)

Section EdgesSpec.
Variables (h w : Z) (g : grid).
Hypothesis Hv : valid h w g.

Lemma edge_value_spec chan i j :
  (∀ p, pixel_ok p → 0 ≤ chan p ≤ 255) →
  ∃ v, edge_magnitude (sobel_x (channel_or_0 chan g) i j)
                      (sobel_y (channel_or_0 chan g) i j)
       = Some (edge_value chan g i j) ∧
       edge_value chan g i j = Z.min v 255 ∧
       nearest_to_sqrt
         (sobel_x (channel_or_0 chan g) i j * sobel_x (channel_or_0 chan g) i j
          + sobel_y (channel_or_0 chan g) i j * sobel_y (channel_or_0 chan g) i j)
         v.
Proof using Hv.
  intros Hchan.
  destruct (sobel_bounds (channel_or_0 chan g) i j) as [Hx Hy].
  { intros y x. by apply (channel_or_0_byte h w). }
  destruct (edge_magnitude_spec _ _ Hx Hy) as (v & Hm & Hnear).
  exists v. unfold edge_value. rewrite Hm. done.
Qed.

Lemma edge_value_byte chan i j :
  (∀ p, pixel_ok p → 0 ≤ chan p ≤ 255) → is_BYTE (edge_value chan g i j).
Proof using Hv.
  intros Hchan. destruct (edge_value_spec chan i j Hchan) as (v & _ & -> & Hn & _).
  unfold is_BYTE. lia.
Qed.

Lemma edges_body i j t :
  0 ≤ i < h → 0 ≤ j < w → dims h w t →
  (acc ← edges_box h w g i j;
   newRed ← edge_magnitude (GxRed acc) (GyRed acc);
   newBlue ← edge_magnitude (GxBlue acc) (GyBlue acc);
   newGreen ← edge_magnitude (GxGreen acc) (GyGreen acc);
   copy ← modify t i j (set_rgbtRed (BYTE_of_int newRed));
   copy ← modify copy i j (set_rgbtBlue (BYTE_of_int newBlue));
   modify copy i j (set_rgbtGreen (BYTE_of_int newGreen)))
  = modify t i j (λ _, edges_pixel g i j).
Proof using Hv.
  intros Hi Hj Hdt. pose proof Hv as [Hd _].
  destruct (edges_box_sums h w g Hd i j)
    as (acc & -> & HxR & HyR & HxG & HyG & HxB & HyB).
  rewrite bind_Some, HxR, HyR, HxG, HyG, HxB, HyB.
  destruct (edge_value_spec rgbtRed i j chan_red_byte) as (vr & -> & _).
  rewrite bind_Some.
  destruct (edge_value_spec rgbtBlue i j chan_blue_byte) as (vb & -> & _).
  rewrite bind_Some.
  destruct (edge_value_spec rgbtGreen i j chan_green_byte) as (vg & -> & _).
  rewrite bind_Some, modify_modify3.
  rewrite !BYTE_of_int_id
    by auto using edge_value_byte, chan_red_byte, chan_green_byte, chan_blue_byte.
  destruct (at_Some _ _ _ i j Hdt Hi Hj) as [p Hp].
  by apply (modify_ext _ _ _ _ _ p).
Qed.

(** [edges] runs to completion and writes the capped gradient magnitude
    of every channel at every position. *)
Lemma edges_spec :
  ∃ g', edges h w g = Some g' ∧ dims h w g' ∧
        ∀ i j, 0 ≤ i < h → 0 ≤ j < w →
               at_ g' i j = Some (edges_pixel g i j).
Proof using Hv.
  pose proof Hv as [Hd _]. pose proof Hd as (Hw & Hh & _).
  edestruct (grid_loop h w) with (f := λ i j (_ : RGBTRIPLE), edges_pixel g i j)
    as (g' & Hrun & Hd' & Hg'); [exact Hd| |].
  { intros i j t Hi Hj Hdt _. by apply edges_body. }
  exists g'. split; [|split; [done|]].
  - unfold edges, vector_new. rewrite decide_True by lia.
    rewrite bind_Some, decide_True by lia. rewrite bind_Some.
    rewrite copy_into_spec; [|done|apply dims_replicate; lia].
    rewrite bind_Some, Hrun, bind_Some. by apply copy_into_spec.
  - intros i j Hi Hj.
    destruct (at_Some _ _ _ i j Hd Hi Hj) as [p Hp]. by apply (Hg' _ _ p).
Qed.
End EdgesSpec.

(* ================================================================== *)
(** ** The size of the window *)

Lemma length_filter_row (h w y : Z) (xs : list Z) :
  length (filter (inside h w) (x ← xs; [(y, x)]))
  = if decide (0 ≤ y < h) then length (filter (λ x, 0 ≤ x < w) xs) else 0%nat.
Proof.
  induction xs as [|x xs IH].
  { by case_decide. }
  rewrite bind_cons, filter_app, length_app, IH, !filter_cons, filter_nil.
  unfold inside at 1. cbn [fst snd].
  destruct (decide (0 ≤ y < h)), (decide (0 ≤ x < w)),
           (decide (0 ≤ y < h ∧ 0 ≤ x < w));
    simpl; (done || lia).
Qed.

Lemma length_filter_grid (h w : Z) (ys xs : list Z) :
  length (filter (inside h w) (y ← ys; x ← xs; [(y, x)]))
  = Nat.mul (length (filter (λ y, 0 ≤ y < h) ys))
            (length (filter (λ x, 0 ≤ x < w) xs)).
Proof.
  induction ys as [|y ys IH]; [done|].
  rewrite bind_cons, filter_app, length_app, IH, length_filter_row, filter_cons.
  case_decide; simpl; lia.
Qed.

Lemma length_filter_3 (n k : Z) :
  0 ≤ k < n →
  Z.of_nat (length (filter (λ y, 0 ≤ y < n) [k - 1; k; k + 1]))
  = (if decide (0 < k) then 1 else 0) + 1 + (if decide (k < n - 1) then 1 else 0).
Proof.
  intros Hk. rewrite !filter_cons, filter_nil.
  rewrite (decide_True (P := 0 ≤ k < n)) by done.
  destruct (decide (0 < k)), (decide (k < n - 1)).
  - by rewrite !decide_True by lia.
  - rewrite decide_True, decide_False by lia. done.
  - rewrite decide_False, decide_True by lia. done.
  - rewrite !decide_False by lia. done.
Qed.

(** The window holds as many positions as rows times columns fall inside
    the grid. *)
Lemma window_count h w i j :
  0 ≤ i < h → 0 ≤ j < w →
  Z.of_nat (length (window h w i j))
  = ((if decide (0 < i) then 1 else 0) + 1 + (if decide (i < h - 1) then 1 else 0))
    * ((if decide (0 < j) then 1 else 0) + 1 + (if decide (j < w - 1) then 1 else 0)).
Proof.
  intros Hi Hj. unfold window, positions.
  rewrite length_filter_grid, Nat2Z.inj_mul.
  by rewrite (length_filter_3 h i), (length_filter_3 w j).
Qed.

Lemma window_inside h w i j : Forall (inside h w) (window h w i j).
Proof.
  apply Forall_forall. intros yx Hin. unfold window in Hin.
  by apply list_elem_of_filter in Hin as [? _].
Qed.

(* ================================================================== *)
(** ** Uniform grids *)

Lemma uniform_at c g y x p : uniform c g → at_ g y x = Some p → p = c.
Proof.
  intros Hu. unfold at_. case_decide; [|done].
  destruct (g !! Z.to_nat y) as [row|] eqn:Hrow; [simpl|done]. intros Hx.
  unfold uniform in Hu. rewrite Forall_lookup in Hu. specialize (Hu _ _ Hrow).
  rewrite Forall_lookup in Hu. by eapply Hu.
Qed.

Lemma uniform_channel h w c g chan y x :
  dims h w g → uniform c g → 0 ≤ y < h → 0 ≤ x < w →
  channel_or_0 chan g y x = chan c.
Proof.
  intros Hd Hu Hy Hx. unfold channel_or_0.
  destruct (at_Some _ _ _ y x Hd Hy Hx) as [p Hp]. rewrite Hp. simpl.
  by rewrite (uniform_at c g y x p).
Qed.

Lemma uniform_channel_sum h w c g chan ps :
  dims h w g → uniform c g → Forall (inside h w) ps →
  channel_sum chan g ps = Z.of_nat (length ps) * chan c.
Proof.
  intros Hd Hu Hps. induction Hps as [|[y x] ps [Hy Hx] _ IH].
  { done. }
  unfold channel_sum in *. cbn [foldr length fst snd] in *. rewrite IH.
  fold (channel_or_0 chan g y x).
  rewrite (uniform_channel h w c) by done. lia.
Qed.

Lemma uniform_window_mean h w c g chan i j :
  dims h w g → uniform c g → 0 ≤ i < h → 0 ≤ j < w →
  window_mean chan h w g i j = chan c.
Proof.
  intros Hd Hu Hi Hj. unfold window_mean.
  rewrite (uniform_channel_sum h w c) by (done || apply window_inside).
  apply round_half_up_div_exact. by apply window_length.
Qed.

Lemma uniform_blur_pixel h w c g i j :
  dims h w g → uniform c g → 0 ≤ i < h → 0 ≤ j < w →
  blur_pixel h w g i j = c.
Proof.
  intros Hd Hu Hi Hj. unfold blur_pixel.
  rewrite !(uniform_window_mean h w c) by done. by destruct c.
Qed.

(** Both blurs return a uniform grid unchanged. *)
Lemma uniform_blur h w c g :
  valid h w g → uniform c g →
  blur h w g = Some g ∧ image_filters.blur g = Some g.
Proof.
  intros Hv Hu. pose proof Hv as [Hd _].
  destruct (blur_spec h w g Hv) as (g1 & -> & Hd1 & Hg1).
  destruct (ns_blur_spec h w g Hv) as (g2 & -> & Hd2 & Hg2).
  split; f_equal; apply (grid_ext h w); try done; intros y x Hy Hx.
  - rewrite Hg1, (uniform_blur_pixel h w c) by done.
    destruct (at_Some _ _ _ y x Hd Hy Hx) as [p Hp].
    by rewrite Hp, (uniform_at c g y x p).
  - rewrite Hg2, (uniform_blur_pixel h w c) by done.
    destruct (at_Some _ _ _ y x Hd Hy Hx) as [p Hp].
    by rewrite Hp, (uniform_at c g y x p).
Qed.

(** The two blurs agree on every valid grid. *)
Lemma blur_agree h w g :
  valid h w g → blur h w g = image_filters.blur g.
Proof.
  intros Hv.
  destruct (blur_spec h w g Hv) as (g1 & -> & Hd1 & Hg1).
  destruct (ns_blur_spec h w g Hv) as (g2 & -> & Hd2 & Hg2).
  f_equal. apply (grid_ext h w); [done..|].
  intros y x Hy Hx. by rewrite Hg1, Hg2.
Qed.

Lemma edge_magnitude_0 : edge_magnitude 0 0 = Some 0.
Proof. reflexivity. Qed.


(* ================================================================== *)
(** ** The Sobel sums of a uniform grid *)










(* ================================================================== *)
(** * The properties of the specification *)

Lemma sample_grid_valid : valid 2 2 sample_grid.
Proof.
  unfold sample_grid. split.
  - split; [lia|]. split; [done|]. by repeat constructor.
  - repeat constructor; simpl; lia.
Qed.

Lemma flat_grid_valid : valid 1 2 flat_grid.
Proof.
  unfold flat_grid. split.
  - split; [lia|]. split; [done|]. by repeat constructor.
  - repeat constructor; simpl; lia.
Qed.

Lemma flat_grid_uniform : uniform (mkRGB 1 1 1) flat_grid.
Proof. by repeat constructor. Qed.

Lemma sample_grid3_valid : valid 3 3 sample_grid3.
Proof.
  unfold sample_grid3. split.
  - split; [lia|]. split; [done|]. by repeat constructor.
  - repeat constructor; simpl; lia.
Qed.



Lemma clamp_byte_id v : is_BYTE v → clamp_byte v = v.
Proof. unfold is_BYTE, clamp_byte. lia. Qed.

Lemma window_mean_rounded h w g chan i j :
  valid h w g → (∀ p, pixel_ok p → 0 ≤ chan p ≤ 255) →
  0 ≤ i < h → 0 ≤ j < w →
  rounded_mean (channel_sum chan g (window h w i j))
               (Z.of_nat (length (window h w i j)))
               (window_mean chan h w g i j).
Proof.
  intros Hv Hchan Hi Hj. split.
  - symmetry. apply clamp_byte_id. by apply window_mean_byte.
  - apply round_half_up_div_nearest. by apply window_length.
Qed.

(** C1, as the code has it.  Blur replaces every pixel of a structurally
    valid grid by the per-channel arithmetic mean of the samples of its 3x3
    window that lie inside the grid: positions outside are left out of the
    sum and of the divisor alike, every sample is read from the grid as it
    was before the transform, and each mean is rounded to nearest (a tie
    upward) and clamped to [0, 255].  The number of samples is the number
    of rows of the window inside the grid times the number of its columns
    inside the grid: 9 for an interior pixel and, in a grid of at least two
    rows and two columns, 4 for a corner pixel and 6 for any other border
    pixel; a grid of a single row or a single column has smaller
    windows. *)
Theorem blur_is_window_mean h w g :
  valid h w g →
  ∃ g', blur h w g = Some g' ∧
    ∀ i j, 0 ≤ i < h → 0 ≤ j < w →
      let win := filter (inside h w) (positions i j) in
      let n := Z.of_nat (length win) in
      (∃ p', at_ g' i j = Some p' ∧
         rounded_mean (channel_sum rgbtRed g win) n (rgbtRed p') ∧
         rounded_mean (channel_sum rgbtGreen g win) n (rgbtGreen p') ∧
         rounded_mean (channel_sum rgbtBlue g win) n (rgbtBlue p')) ∧
      n = span h i * span w j ∧
      (0 < i < h - 1 → 0 < j < w - 1 → n = 9) ∧
      (2 ≤ h → 2 ≤ w → (i = 0 ∨ i = h - 1) → (j = 0 ∨ j = w - 1) → n = 4) ∧
      (2 ≤ h → (i = 0 ∨ i = h - 1) → 0 < j < w - 1 → n = 6) ∧
      (2 ≤ w → 0 < i < h - 1 → (j = 0 ∨ j = w - 1) → n = 6) ∧
      (h = 1 → w = 1 → n = 1) ∧
      (h = 1 → 2 ≤ w → (j = 0 ∨ j = w - 1) → n = 2) ∧
      (h = 1 → 0 < j < w - 1 → n = 3) ∧
      (w = 1 → 2 ≤ h → (i = 0 ∨ i = h - 1) → n = 2) ∧
      (w = 1 → 0 < i < h - 1 → n = 3).
Proof.
  intros Hv. destruct (blur_spec h w g Hv) as (g' & Hrun & _ & Hg').
  exists g'. split; [done|]. intros i j Hi Hj. cbv zeta.
  fold (window h w i j). split.
  - exists (blur_pixel h w g i j). split; [by apply Hg'|].
    unfold blur_pixel. cbn [rgbtRed rgbtGreen rgbtBlue].
    repeat split;
      apply (window_mean_rounded h w g);
      auto using chan_red_byte, chan_green_byte, chan_blue_byte.
  - rewrite (window_count h w i j) by done. unfold span.
    repeat split; intros; repeat case_decide; lia.
Qed.

Lemma blur_is_window_mean_witness :
  valid 3 3 sample_grid3 ∧
  ∃ g', blur 3 3 sample_grid3 = Some g' ∧
        is_Some (at_ g' 1 1) ∧
        Z.of_nat (length (filter (inside 3 3) (positions 1 1))) = 9 ∧
        Z.of_nat (length (filter (inside 3 3) (positions 0 0))) = 4 ∧
        Z.of_nat (length (filter (inside 3 3) (positions 0 1))) = 6.
Proof.
  split; [exact sample_grid3_valid|].
  destruct (blur_is_window_mean 3 3 sample_grid3 sample_grid3_valid)
    as (g' & Hrun & Hg').
  exists g'. split; [exact Hrun|].
  destruct (Hg' 1 1 ltac:(lia) ltac:(lia))
    as ((p' & Hp' & _) & _ & H9 & _).
  destruct (Hg' 0 0 ltac:(lia) ltac:(lia)) as (_ & _ & _ & H4 & _).
  destruct (Hg' 0 1 ltac:(lia) ltac:(lia)) as (_ & _ & _ & _ & H6 & _).
  split; [by exists p'|].
  split; [apply H9; lia|].
  split; [apply H4; lia|apply H6; lia].
Defined.

(** C1, as stated, fails on a grid of a single row: in the valid 1x3 grid
    [row_grid] the corner pixel (0, 0) averages 2 samples, not 4, and the
    border pixel (0, 1), which is not a corner, averages 3, not 6; the
    pixels blur writes are the means of those 2, 3 and 2 samples. *)
Lemma blur_single_row_windows :
  valid 1 3 row_grid ∧
  length (filter (inside 1 3) (positions 0 0)) = 2%nat ∧
  length (filter (inside 1 3) (positions 0 1)) = 3%nat ∧
  blur 1 3 row_grid
  = Some [[mkRGB 15 30 45; mkRGB 40 60 80; mkRGB 60 90 120]].
Proof.
  split.
  { unfold row_grid. split.
    - split; [lia|]. split; [done|]. by repeat constructor.
    - repeat constructor; simpl; lia. }
  split; [reflexivity|]. split; [reflexivity|]. by vm_compute.
Qed.

(** C2. EdgeDetect computes, for every pixel and for each channel on its
    own, the two Sobel sums over the 3x3 neighbourhood read from the grid
    as it was before the transform, a neighbour outside the grid counting
    as the value 0 (a zero term of the kernel, not a missing one), and
    writes the integer nearest to sqrt(Gx^2 + Gy^2), capped at 255. *)
Theorem edges_is_sobel_magnitude h w g :
  valid h w g →
  (∀ chan y x, ¬ inside h w (y, x) → channel_or_0 chan g y x = 0) ∧
  (∀ chan y x p, at_ g y x = Some p → channel_or_0 chan g y x = chan p) ∧
  ∃ g', edges h w g = Some g' ∧
    ∀ i j, 0 ≤ i < h → 0 ≤ j < w →
      ∃ p', at_ g' i j = Some p' ∧
        ∀ chan, chan = rgbtRed ∨ chan = rgbtGreen ∨ chan = rgbtBlue →
          let gx := sobel_x (channel_or_0 chan g) i j in
          let gy := sobel_y (channel_or_0 chan g) i j in
          ∃ v, nearest_to_sqrt (gx * gx + gy * gy) v ∧
               chan p' = Z.min v 255.
Proof.
  intros Hv. pose proof Hv as [Hd _]. split; [|split].
  - intros chan y x Hout. apply (channel_or_0_outside h w g Hd).
    unfold inside in Hout. simpl in Hout. lia.
  - intros chan y x p Hp. unfold channel_or_0. by rewrite Hp.
  - destruct (edges_spec h w g Hv) as (g' & Hrun & _ & Hg').
    exists g'. split; [done|]. intros i j Hi Hj.
    exists (edges_pixel g i j). split; [by apply Hg'|].
    intros chan [->|[->| ->]]; cbv zeta.
    + destruct (edge_value_spec h w g Hv rgbtRed i j chan_red_byte)
        as (v & _ & Hval & Hnear). by exists v.
    + destruct (edge_value_spec h w g Hv rgbtGreen i j chan_green_byte)
        as (v & _ & Hval & Hnear). by exists v.
    + destruct (edge_value_spec h w g Hv rgbtBlue i j chan_blue_byte)
        as (v & _ & Hval & Hnear). by exists v.
Qed.

Lemma edges_is_sobel_magnitude_witness :
  valid 2 2 sample_grid ∧ is_Some (edges 2 2 sample_grid).
Proof.
  split; [exact sample_grid_valid|].
  destruct (edges_is_sobel_magnitude 2 2 sample_grid sample_grid_valid)
    as (_ & _ & g' & Hrun & _).
  exists g'. exact Hrun.
Defined.




(** C4, as the code has it.  The two blur implementations take different
    casting paths (a [float] counter and a direct conversion to a byte,
    against an [int] counter, a conversion to [int] and a clamp) but
    perform the same [float] division and the same rounding: on every
    structurally valid grid they return the same grid. *)
Theorem blur_variants_agree h w g :
  valid h w g → blur h w g = image_filters.blur g.
Proof. apply blur_agree. Qed.

Lemma blur_variants_agree_witness :
  valid 2 2 sample_grid ∧ blur 2 2 sample_grid = image_filters.blur sample_grid.
Proof.
  split; [exact sample_grid_valid|].
  exact (blur_variants_agree 2 2 sample_grid sample_grid_valid).
Defined.

(** C4, as stated, fails: there is no structurally valid grid on which
    the outputs of the two blur implementations differ. *)
Lemma blur_variants_never_differ :
  ¬ ∃ h w g, valid h w g ∧ blur h w g ≠ image_filters.blur g.
Proof. intros (h & w & g & Hv & Hne). apply Hne. by apply blur_agree. Qed.

(** C5. Sepia maps every pixel with original channels (R, G, B) to the
    triple of the three rows of the sepia matrix, all three computed from
    the original values, each rounded to a nearest integer and clamped to
    [0, 255]; black maps to black and white to (255, 255, 239). *)
Theorem sepia_is_rounded_matrix h w g :
  valid h w g →
  ∃ g', sepia h w g = Some g' ∧
    ∀ i j p, at_ g i j = Some p →
      ∃ p' r gr b,
        at_ g' i j = Some p' ∧
        nearest_to (393 * rgbtRed p + 769 * rgbtGreen p + 189 * rgbtBlue p) 1000 r ∧
        nearest_to (349 * rgbtRed p + 686 * rgbtGreen p + 168 * rgbtBlue p) 1000 gr ∧
        nearest_to (272 * rgbtRed p + 534 * rgbtGreen p + 131 * rgbtBlue p) 1000 b ∧
        rgbtRed p' = clamp_byte r ∧
        rgbtGreen p' = clamp_byte gr ∧
        rgbtBlue p' = clamp_byte b ∧
        (rgbtRed p = 0 → rgbtGreen p = 0 → rgbtBlue p = 0 →
         rgbtRed p' = 0 ∧ rgbtGreen p' = 0 ∧ rgbtBlue p' = 0) ∧
        (rgbtRed p = 255 → rgbtGreen p = 255 → rgbtBlue p = 255 →
         rgbtRed p' = 255 ∧ rgbtGreen p' = 255 ∧ rgbtBlue p' = 239).
Proof.
  intros Hv. destruct (sepia_spec h w g Hv) as (g' & Hrun & _ & Hg').
  exists g'. split; [done|]. intros i j p Hp.
  pose proof (valid_pixel _ _ _ _ _ _ Hv Hp) as Hok.
  destruct (sepia_value_spec 393 769 189 p) as (r & _ & Hr & Nr);
    [coefficient..|lia|lia|lia|lia|done|].
  destruct (sepia_value_spec 349 686 168 p) as (gr & _ & Hgr & Ngr);
    [coefficient..|lia|lia|lia|lia|done|].
  destruct (sepia_value_spec 272 534 131 p) as (b & _ & Hb & Nb);
    [coefficient..|lia|lia|lia|lia|done|].
  exists (sepia_pixel p), r, gr, b. split; [by apply Hg'|].
  unfold sepia_pixel. cbn [rgbtRed rgbtGreen rgbtBlue].
  rewrite Hr, Hgr, Hb. do 6 (split; [done|]).
  split; intros HR HG HB; rewrite HR, HG, HB in *;
    unfold nearest_to, clamp_byte in *; lia.
Qed.

Lemma sepia_is_rounded_matrix_witness :
  valid 2 2 sample_grid ∧ is_Some (sepia 2 2 sample_grid).
Proof.
  split; [exact sample_grid_valid|].
  destruct (sepia_is_rounded_matrix 2 2 sample_grid sample_grid_valid)
    as (g' & Hrun & _).
  exists g'. exact Hrun.
Defined.

(** On an exact tie the [double] arithmetic can fall on either side: for
    (R, G, B) = (6, 57, 81) the red row is exactly 61.5 and the code
    stores 61. *)
Example sepia_tie_rounds_down :
  sepia_channel 393 769 189 (mkRGB 81 57 6) = Some 61 ∧
  393 * 6 + 769 * 57 + 189 * 81 = 61500.
Proof. split; [by vm_compute|done]. Qed.

(** C6. Grayscale gives the three channels of every pixel one common
    value, the unweighted average of the three original channels rounded
    to the nearest integer (a tie upward) and clamped to [0, 255]. *)
Theorem grayscale_is_rounded_average h w g :
  valid h w g →
  ∃ g', grayscale h w g = Some g' ∧
    ∀ i j p, at_ g i j = Some p →
      ∃ v, at_ g' i j = Some (mkRGB v v v) ∧
           rounded_mean (rgbtRed p + rgbtGreen p + rgbtBlue p) 3 v.
Proof.
  intros Hv. destruct (grayscale_spec h w g Hv) as (g' & Hrun & _ & Hg').
  exists g'. split; [done|]. intros i j p Hp.
  pose proof (valid_pixel _ _ _ _ _ _ Hv Hp) as Hok.
  exists (gray_value p). split; [by apply Hg'|].
  unfold gray_value.
  replace (rgbtBlue p + rgbtRed p + rgbtGreen p)
    with (rgbtRed p + rgbtGreen p + rgbtBlue p) by lia.
  split.
  - symmetry. apply clamp_byte_id.
    pose proof (gray_value_byte p Hok) as Hb. unfold gray_value in Hb.
    by replace (rgbtBlue p + rgbtRed p + rgbtGreen p)
      with (rgbtRed p + rgbtGreen p + rgbtBlue p) in Hb by lia.
  - apply round_half_up_div_nearest. lia.
Qed.

Lemma grayscale_is_rounded_average_witness :
  valid 2 2 sample_grid ∧ is_Some (grayscale 2 2 sample_grid).
Proof.
  split; [exact sample_grid_valid|].
  destruct (grayscale_is_rounded_average 2 2 sample_grid sample_grid_valid)
    as (g' & Hrun & _).
  exists g'. exact Hrun.
Defined.

(** C7. Reflect is an involution: on every structurally valid grid,
    applying it twice returns the original grid, pixel for pixel.  This
    holds of the swapping loop and of the [std::reverse] variant. *)
Theorem reflect_involutive h w g :
  valid h w g →
  (g1 ← reflect h w g; reflect h w g1) = Some g ∧
  (g1 ← image_filters.reflect g; image_filters.reflect g1) = Some g.
Proof.
  intros [Hd _]. split.
  - rewrite (reflect_is_reverse h w g Hd). unfold image_filters.reflect at 1.
    rewrite bind_Some, (reflect_is_reverse h w) by (by apply dims_reverse).
    unfold image_filters.reflect. f_equal. apply reverse_rows_twice.
  - unfold image_filters.reflect. rewrite bind_Some. f_equal.
    apply reverse_rows_twice.
Qed.

Lemma reflect_involutive_witness :
  valid 2 2 sample_grid ∧
  (g1 ← reflect 2 2 sample_grid; reflect 2 2 g1) = Some sample_grid.
Proof.
  split; [exact sample_grid_valid|].
  exact (proj1 (reflect_involutive 2 2 sample_grid sample_grid_valid)).
Defined.

(** C8. Blur is the identity on every uniform-colour grid, and leaves
    every 1x1 grid unchanged. *)
Theorem blur_uniform_identity :
  (∀ h w c g, valid h w g → uniform c g →
              blur h w g = Some g ∧ image_filters.blur g = Some g) ∧
  (∀ p, pixel_ok p →
        blur 1 1 [[p]] = Some [[p]] ∧ image_filters.blur [[p]] = Some [[p]]).
Proof.
  split.
  - intros h w c g. apply uniform_blur.
  - intros p Hp. apply (uniform_blur 1 1 p).
    + split.
      * split; [lia|]. split; [done|]. by repeat constructor.
      * constructor; [|constructor]. constructor; [exact Hp|constructor].
    + by repeat constructor.
Qed.

Lemma blur_uniform_identity_witness :
  valid 1 2 flat_grid ∧ uniform (mkRGB 1 1 1) flat_grid ∧
  blur 1 2 flat_grid = Some flat_grid.
Proof.
  split; [exact flat_grid_valid|]. split; [exact flat_grid_uniform|].
  exact (proj1 (proj1 blur_uniform_identity 1 2 (mkRGB 1 1 1) flat_grid
                  flat_grid_valid flat_grid_uniform)).
Defined.

Lemma valid_of_pixels h w g g' (F : Z → Z → RGBTRIPLE) :
  dims h w g' →
  (∀ i j, 0 ≤ i < h → 0 ≤ j < w → at_ g' i j = Some (F i j)) →
  (∀ i j, 0 ≤ i < h → 0 ≤ j < w → pixel_ok (F i j)) →
  valid h w g' ∧ (dims h w g → length g' = length g).
Proof.
  intros Hd' Hg' Hok. split.
  - apply valid_intro; [done|]. intros y x p Hp.
    destruct (at_inv _ _ _ _ _ _ Hd' Hp) as [Hy Hx].
    rewrite Hg' in Hp by done. injection Hp as <-. by apply Hok.
  - intros (_ & Hh & _). destruct Hd' as (_ & Hh' & _). lia.
Qed.

Lemma blur_pixel_ok h w g i j :
  valid h w g → 0 ≤ i < h → 0 ≤ j < w → pixel_ok (blur_pixel h w g i j).
Proof.
  intros Hv Hi Hj. unfold blur_pixel, pixel_ok. cbn [rgbtRed rgbtGreen rgbtBlue].
  split; [|split]; apply (window_mean_byte h w g);
    auto using chan_red_byte, chan_green_byte, chan_blue_byte.
Qed.

Lemma edges_pixel_ok h w g i j : valid h w g → pixel_ok (edges_pixel g i j).
Proof.
  intros Hv. unfold edges_pixel, pixel_ok. cbn [rgbtRed rgbtGreen rgbtBlue].
  split; [|split]; apply (edge_value_byte h w g);
    auto using chan_red_byte, chan_green_byte, chan_blue_byte.
Qed.

(** C9. Each of the five transforms, applied to a structurally valid
    grid, runs to completion and yields a structurally valid grid of the
    same height and the same width: as many rows, every row of length
    equal to the width, every channel a byte. *)
Theorem transforms_preserve_validity h w g :
  valid h w g →
  (∃ g', grayscale h w g = Some g' ∧ valid h w g' ∧ length g' = length g) ∧
  (∃ g', sepia h w g = Some g' ∧ valid h w g' ∧ length g' = length g) ∧
  (∃ g', reflect h w g = Some g' ∧ valid h w g' ∧ length g' = length g) ∧
  (∃ g', blur h w g = Some g' ∧ valid h w g' ∧ length g' = length g) ∧
  (∃ g', edges h w g = Some g' ∧ valid h w g' ∧ length g' = length g).
Proof.
  intros Hv. pose proof Hv as [Hd _].
  assert (∀ g' (F : Z → Z → RGBTRIPLE),
            dims h w g' →
            (∀ i j, 0 ≤ i < h → 0 ≤ j < w → at_ g' i j = Some (F i j)) →
            (∀ i j, 0 ≤ i < h → 0 ≤ j < w → pixel_ok (F i j)) →
            valid h w g' ∧ length g' = length g) as Hmk.
  { intros g' F Hd' Hg' Hok.
    destruct (valid_of_pixels h w g g' F Hd' Hg' Hok) as [? Hlen]. auto. }
  assert (∀ i j, 0 ≤ i < h → 0 ≤ j < w →
            ∃ p, at_ g i j = Some p ∧ pixel_ok p) as Hpix.
  { intros i j Hi Hj. destruct (at_Some _ _ _ i j Hd Hi Hj) as [p Hp].
    exists p. split; [done|]. by eapply valid_pixel. }
  repeat split.
  - destruct (grayscale_spec h w g Hv) as (g' & Hrun & Hd' & Hg').
    exists g'. split; [done|].
    apply (Hmk g' (λ i j, let p := default RGBTRIPLE_zero (at_ g i j) in
                          mkRGB (gray_value p) (gray_value p) (gray_value p)));
      [done| |].
    + intros i j Hi Hj. destruct (Hpix i j Hi Hj) as (p & Hp & _).
      rewrite Hp. by apply Hg'.
    + intros i j Hi Hj. destruct (Hpix i j Hi Hj) as (p & Hp & Hok).
      rewrite Hp. simpl.
      pose proof (gray_value_byte p Hok) as Hb. split; [|split]; exact Hb.
  - destruct (sepia_spec h w g Hv) as (g' & Hrun & Hd' & Hg').
    exists g'. split; [done|].
    apply (Hmk g' (λ i j, sepia_pixel (default RGBTRIPLE_zero (at_ g i j))));
      [done| |].
    + intros i j Hi Hj. destruct (Hpix i j Hi Hj) as (p & Hp & _).
      rewrite Hp. by apply Hg'.
    + intros i j Hi Hj. split; [|split]; apply clamp_byte_is_BYTE.
  - destruct (reflect_spec h w g Hd) as (g' & Hrun & Hd' & Hg').
    exists g'. split; [done|].
    apply (Hmk g' (λ i j, default RGBTRIPLE_zero (at_ g i (w - 1 - j))));
      [done| |].
    + intros i j Hi Hj. rewrite Hg'. apply (at_default h w); [done|lia..].
    + intros i j Hi Hj. destruct (Hpix i (w - 1 - j)) as (p & Hp & Hok);
        [lia..|]. by rewrite Hp.
  - destruct (blur_spec h w g Hv) as (g' & Hrun & Hd' & Hg').
    exists g'. split; [done|].
    apply (Hmk g' (blur_pixel h w g)); [done..|].
    intros i j Hi Hj. by apply blur_pixel_ok.
  - destruct (edges_spec h w g Hv) as (g' & Hrun & Hd' & Hg').
    exists g'. split; [done|].
    apply (Hmk g' (edges_pixel g)); [done..|].
    intros i j Hi Hj. by apply (edges_pixel_ok h w).
Qed.

Lemma transforms_preserve_validity_witness :
  valid 2 2 sample_grid ∧
  ∃ g', reflect 2 2 sample_grid = Some g' ∧ valid 2 2 g'.
Proof.
  split; [exact sample_grid_valid|].
  destruct (transforms_preserve_validity 2 2 sample_grid sample_grid_valid)
    as (_ & _ & (g' & Hrun & Hv' & _) & _).
  exists g'. split; [exact Hrun|exact Hv'].
Defined.

Lemma float_of_small_int_nonzero k s :
  1 ≤ k ≤ 9 → float.of_int k ≠ S754_zero s.
Proof.
  intros Hk.
  assert (k = 1 ∨ k = 2 ∨ k = 3 ∨ k = 4 ∨ k = 5 ∨ k = 6 ∨ k = 7 ∨ k = 8 ∨ k = 9)
    as Hcases by lia.
  destruct Hcases as [->|[->|[->|[->|[->|[->|[->|[->| ->]]]]]]]]; discriminate.
Qed.

(** C10. At every position of a structurally valid grid the sample
    counter of either blur implementation ends at least at 1 (the centre
    always passes the bounds check), so the divisor is never zero, and
    both blurs run to completion. *)
Theorem blur_count_positive h w g i j :
  valid h w g → 0 ≤ i < h → 0 ≤ j < w →
  ∃ acc a k,
    blur_box h w g i j = Some acc ∧
    image_filters.blur_box h w g i j = Some a ∧
    1 ≤ k ≤ 9 ∧
    pixelCount acc = float.of_int k ∧
    image_filters.count a = k ∧
    (∀ s, pixelCount acc ≠ S754_zero s) ∧
    is_Some (blur h w g) ∧ is_Some (image_filters.blur g).
Proof.
  intros Hv Hi Hj. pose proof Hv as [Hd _].
  destruct (blur_box_result h w g Hv i j) as (_ & _ & _ & Hcount).
  destruct (ns_blur_box_result h w g Hv i j) as (_ & _ & _ & Hns).
  pose proof (window_length h w i j Hi Hj) as Hlen.
  eexists _, _, (Z.of_nat (length (window h w i j))).
  split; [apply (blur_box_fold h w g Hd)|].
  split; [apply (ns_blur_box_fold h w g Hd)|].
  split; [done|]. split; [exact Hcount|]. split; [exact Hns|]. split.
  - intros s. rewrite Hcount. by apply float_of_small_int_nonzero.
  - destruct (blur_spec h w g Hv) as (g1 & -> & _).
    destruct (ns_blur_spec h w g Hv) as (g2 & -> & _). eauto.
Qed.

Lemma blur_count_positive_witness :
  valid 2 2 sample_grid ∧ 0 ≤ 0 < 2 ∧
  is_Some (blur 2 2 sample_grid) ∧ is_Some (image_filters.blur sample_grid).
Proof.
  split; [exact sample_grid_valid|]. split; [lia|].
  destruct (blur_count_positive 2 2 sample_grid 0 0 sample_grid_valid)
    as (acc & a & k & _ & _ & _ & _ & _ & _ & H1 & H2); [lia|lia|].
  split; [exact H1|exact H2].
Defined.

(* ================================================================== *)
(** ** The scenarios of the specification, evaluated *)

Example scenario_grayscale_3x3 :
  grayscale 3 3 (replicate 3 (replicate 3 (mkRGB 200 150 100)))
  = Some (replicate 3 (replicate 3 (mkRGB 150 150 150))).
Proof. by vm_compute. Qed.

Example scenario_blur_1x1 :
  blur 1 1 [[mkRGB 30 20 10]] = Some [[mkRGB 30 20 10]].
Proof. by vm_compute. Qed.

Example scenario_reflect_2x1 :
  reflect 1 2 [[mkRGB 0 0 255; mkRGB 0 255 0]]
  = Some [[mkRGB 0 255 0; mkRGB 0 0 255]].
Proof. by vm_compute. Qed.

Example scenario_sepia_white :
  sepia 1 2 [[mkRGB 255 255 255; mkRGB 0 0 0]]
  = Some [[mkRGB 239 255 255; mkRGB 0 0 0]].
Proof. by vm_compute. Qed.

(** A tie in blur: the mean of 1 and 2 is 1.5 and both variants store 2. *)
Example scenario_blur_tie :
  blur 1 2 [[mkRGB 1 1 1; mkRGB 2 2 2]] = Some [[mkRGB 2 2 2; mkRGB 2 2 2]] ∧
  image_filters.blur [[mkRGB 1 1 1; mkRGB 2 2 2]]
  = Some [[mkRGB 2 2 2; mkRGB 2 2 2]].
Proof. split; by vm_compute. Qed.

(* ================================================================== *)
(** * Further properties of the code *)

(** ** Per-pixel transforms as maps *)

Lemma at_fmap (F : RGBTRIPLE → RGBTRIPLE) (g : grid) y x :
  at_ (map_pixels F g) y x = F <$> at_ g y x.
Proof.
  unfold at_, map_pixels. case_decide; [|done]. rewrite list_lookup_fmap.
  destruct (g !! Z.to_nat y) as [row|]; simpl; [|done].
  apply list_lookup_fmap.
Qed.

Lemma dims_fmap (F : RGBTRIPLE → RGBTRIPLE) h w g :
  dims h w g → dims h w (map_pixels F g).
Proof.
  intros (Hw & Hh & Hrows). unfold map_pixels. split; [done|]. split.
  - by rewrite length_fmap.
  - apply Forall_fmap. eapply Forall_impl; [done|].
    intros row Hrow. simpl. by rewrite length_fmap.
Qed.

Lemma pixels_fmap (F : RGBTRIPLE → RGBTRIPLE) (g : grid) :
  (∀ p, pixel_ok p → pixel_ok (F p)) →
  Forall (Forall pixel_ok) g → Forall (Forall pixel_ok) (map_pixels F g).
Proof.
  intros HF Hg. unfold map_pixels. apply Forall_fmap. eapply Forall_impl; [done|].
  intros row Hrow. simpl. apply Forall_fmap. eapply Forall_impl; [done|].
  intros p Hp. by apply HF.
Qed.

Lemma valid_fmap (F : RGBTRIPLE → RGBTRIPLE) h w g :
  (∀ p, pixel_ok p → pixel_ok (F p)) →
  valid h w g → valid h w (map_pixels F g).
Proof.
  intros HF [Hd Hp]. split; [by apply dims_fmap|by apply pixels_fmap].
Qed.

Lemma gray_pixel_eq p :
  gray_pixel p = mkRGB (gray_value p) (gray_value p) (gray_value p).
Proof. done. Qed.

Lemma gray_pixel_ok p : pixel_ok p → pixel_ok (gray_pixel p).
Proof.
  intros Hp. pose proof (gray_value_byte p Hp) as Hb.
  rewrite gray_pixel_eq. split; [|split]; exact Hb.
Qed.

Lemma sepia_pixel_ok p : pixel_ok (sepia_pixel p).
Proof. split; [|split]; apply clamp_byte_is_BYTE. Qed.

Lemma grayscale_map h w g :
  valid h w g → grayscale h w g = Some (map_pixels gray_pixel g).
Proof.
  intros Hv. pose proof Hv as [Hd _].
  destruct (grayscale_spec h w g Hv) as (g' & -> & Hd' & Hg'). f_equal.
  apply (grid_ext h w); [done|by apply dims_fmap|].
  intros y x Hy Hx. destruct (at_Some _ _ _ y x Hd Hy Hx) as [p Hp].
  by rewrite at_fmap, Hp, (Hg' _ _ p).
Qed.

Lemma sepia_map h w g :
  valid h w g → sepia h w g = Some (map_pixels sepia_pixel g).
Proof.
  intros Hv. pose proof Hv as [Hd _].
  destruct (sepia_spec h w g Hv) as (g' & -> & Hd' & Hg'). f_equal.
  apply (grid_ext h w); [done|by apply dims_fmap|].
  intros y x Hy Hx. destruct (at_Some _ _ _ y x Hd Hy Hx) as [p Hp].
  by rewrite at_fmap, Hp, (Hg' _ _ p).
Qed.

Lemma reflect_map h w g : dims h w g → reflect h w g = Some (reverse <$> g).
Proof. intros Hd. by rewrite (reflect_is_reverse h w). Qed.

Lemma mapM_pointwise {A B} (f : A → option B) (F : A → B) (l : list A) :
  Forall (λ x, f x = Some (F x)) l → mapM f l = Some (F <$> l).
Proof.
  induction 1 as [|x l Hx _ IH]; [done|].
  cbn [mapM]. rewrite Hx, bind_Some, IH, bind_Some. done.
Qed.

Lemma clamp_byte_range v : is_BYTE v → clamp v 0 255 = v.
Proof.
  intros Hv. unfold clamp. unfold is_BYTE in Hv.
  rewrite !decide_False by lia. by apply BYTE_of_int_id.
Qed.

Lemma clamp_is_clamp_byte v : clamp v 0 255 = clamp_byte v.
Proof.
  unfold clamp, clamp_byte, BYTE_of_int.
  repeat case_decide; try lia.
  - rewrite Z.max_l by lia. done.
  - rewrite Z.min_r, Z.max_r by lia. done.
  - rewrite Z.min_l, Z.max_r by lia. apply Z.mod_small. lia.
Qed.

Lemma ns_gray_pixel p :
  pixel_ok p →
  (v ← round_to_int
         (double.div
            (double.of_int (rgbtRed p + rgbtGreen p + rgbtBlue p))
            (double.of_int 3));
   let gray := clamp v 0 255 in
   Some (set_rgbtRed gray (set_rgbtGreen gray (set_rgbtBlue gray p))))
  = Some (gray_pixel p).
Proof.
  intros Hp. pose proof (gray_value_byte p Hp) as Hb.
  destruct Hp as (Hpb & Hpg & Hpr). unfold is_BYTE in *.
  rewrite gray_round by lia. rewrite bind_Some. cbv zeta.
  replace (rgbtRed p + rgbtGreen p + rgbtBlue p)
    with (rgbtBlue p + rgbtRed p + rgbtGreen p) by lia.
  fold (gray_value p). rewrite clamp_byte_range by done. done.
Qed.

Lemma ns_sepia_pixel p :
  pixel_ok p →
  (sepiaRed ← sepia_channel 393 769 189 p;
   sepiaGreen ← sepia_channel 349 686 168 p;
   sepiaBlue ← sepia_channel 272 534 131 p;
   let pixel := set_rgbtRed (clamp sepiaRed 0 255) p in
   let pixel := set_rgbtGreen (clamp sepiaGreen 0 255) pixel in
   Some (set_rgbtBlue (clamp sepiaBlue 0 255) pixel))
  = Some (sepia_pixel p).
Proof.
  intros Hok.
  destruct (sepia_value_spec 393 769 189 p) as (vr & Hcr & Hvr & _);
    [coefficient..|lia|lia|lia|lia|done|].
  destruct (sepia_value_spec 349 686 168 p) as (vg & Hcg & Hvg & _);
    [coefficient..|lia|lia|lia|lia|done|].
  destruct (sepia_value_spec 272 534 131 p) as (vb & Hcb & Hvb & _);
    [coefficient..|lia|lia|lia|lia|done|].
  rewrite Hcr, bind_Some, Hcg, bind_Some, Hcb, bind_Some. cbv zeta.
  unfold sepia_pixel. rewrite Hvr, Hvg, Hvb, !clamp_is_clamp_byte. done.
Qed.

(** The row-by-row variants transform every pixel on its own, whatever the
    lengths of the rows. *)
Lemma ns_grayscale_map (g : grid) :
  Forall (Forall pixel_ok) g →
  image_filters.grayscale g = Some (map_pixels gray_pixel g).
Proof.
  intros Hg. unfold image_filters.grayscale. case_decide as Hz.
  { destruct g; [done|simpl in Hz; lia]. }
  destruct g as [|row0 g]; [done|]. cbn [lookup list_lookup].
  rewrite bind_Some. cbv zeta. unfold map_pixels.
  apply mapM_pointwise. eapply Forall_impl; [exact Hg|].
  intros row Hrow. cbv beta.
  apply mapM_pointwise. eapply Forall_impl; [exact Hrow|].
  intros p Hp. cbv beta. by apply ns_gray_pixel.
Qed.

Lemma ns_sepia_map (g : grid) :
  Forall (Forall pixel_ok) g →
  image_filters.sepia g = Some (map_pixels sepia_pixel g).
Proof.
  intros Hg. unfold image_filters.sepia, map_pixels.
  apply mapM_pointwise. eapply Forall_impl; [exact Hg|].
  intros row Hrow. cbv beta.
  apply mapM_pointwise. eapply Forall_impl; [exact Hrow|].
  intros p Hp. cbv beta. by apply ns_sepia_pixel.
Qed.

(* ================================================================== *)
(** ** Loops that do nothing *)

Lemma for_range_empty {St} (body : Z → St → option St) lo hi s :
  hi ≤ lo → for_range lo hi body s = Some s.
Proof.
  intros Hle. unfold for_range.
  replace (Z.to_nat (hi - lo)) with 0%nat by lia. done.
Qed.

Lemma for_loop_noop {St} (body : Z → St → option St) n lo s :
  (∀ i t, body i t = Some t) → for_loop n lo body s = Some s.
Proof.
  intros Hbody. revert lo. induction n as [|n IH]; intros lo; [done|].
  cbn [for_loop]. rewrite Hbody, bind_Some. apply IH.
Qed.

Lemma for_range_noop {St} (body : Z → St → option St) lo hi s :
  (∀ i t, body i t = Some t) → for_range lo hi body s = Some s.
Proof. intros Hbody. by apply for_loop_noop. Qed.

Lemma copy_into_noop h w src dst :
  h ≤ 0 ∨ w ≤ 0 → copy_into h w src dst = Some dst.
Proof.
  intros [Hh|Hw]; unfold copy_into.
  - by apply for_range_empty.
  - apply for_range_noop. intros i t. by apply for_range_empty.
Qed.

Lemma quot_2_nonpos w : w ≤ 1 → w ÷ 2 ≤ 0.
Proof.
  intros Hw. destruct (decide (0 ≤ w)) as [H0|H0].
  - rewrite Z.quot_small by lia. done.
  - replace w with (- (- w)) by lia. rewrite Z.quot_opp_l by lia.
    pose proof (Z.quot_pos (- w) 2). lia.
Qed.

(* ================================================================== *)
(** ** Pixel maps *)

Lemma map_pixels_id (F : RGBTRIPLE → RGBTRIPLE) (g : grid) :
  Forall (Forall (λ p, F p = p)) g → map_pixels F g = g.
Proof.
  unfold map_pixels. induction 1 as [|row g Hrow _ IH]; [done|].
  rewrite fmap_cons, IH. f_equal.
  induction Hrow as [|p row Hp _ IHrow]; [done|].
  by rewrite fmap_cons, Hp, IHrow.
Qed.

Lemma map_pixels_Forall (F : RGBTRIPLE → RGBTRIPLE) (P : RGBTRIPLE → Prop)
    (g : grid) :
  (∀ p, P (F p)) → Forall (Forall P) (map_pixels F g).
Proof.
  intros HF. unfold map_pixels. apply Forall_fmap, Forall_true.
  intros row. simpl. apply Forall_fmap, Forall_true. intros p. apply HF.
Qed.

Lemma map_pixels_reverse (F : RGBTRIPLE → RGBTRIPLE) (g : grid) :
  map_pixels F (reverse <$> g) = reverse <$> map_pixels F g.
Proof.
  unfold map_pixels. rewrite <- !list_fmap_compose.
  apply list_fmap_ext. intros _ row _. simpl. apply fmap_reverse.
Qed.

Lemma valid_reverse h w g : valid h w g → valid h w (reverse <$> g).
Proof.
  intros [Hd Hp]. split; [by apply dims_reverse|].
  apply Forall_fmap. eapply Forall_impl; [done|].
  intros row Hrow. simpl. by apply Forall_reverse.
Qed.

Lemma gray_pixel_fixed p : is_gray p → gray_pixel p = p.
Proof.
  destruct p as [b g r]. intros [Hbg Hgr]. simpl in *. subst.
  unfold gray_pixel, round_half_up_div. cbn [rgbtBlue rgbtGreen rgbtRed].
  assert ((2 * (r + r + r) + 3) / (2 * 3) = r) as ->; [|done].
  symmetry. apply (Z.div_unique _ _ _ 3); lia.
Qed.

Lemma gray_pixel_is_gray p : is_gray (gray_pixel p).
Proof. done. Qed.

Lemma sepia_pixel_ordered p :
  pixel_ok p →
  rgbtBlue (sepia_pixel p) ≤ rgbtGreen (sepia_pixel p) ∧
  rgbtGreen (sepia_pixel p) ≤ rgbtRed (sepia_pixel p).
Proof.
  intros Hok.
  destruct (sepia_value_spec 393 769 189 p) as (vr & _ & Hvr & Hnr);
    [coefficient..|lia|lia|lia|lia|done|].
  destruct (sepia_value_spec 349 686 168 p) as (vg & _ & Hvg & Hng);
    [coefficient..|lia|lia|lia|lia|done|].
  destruct (sepia_value_spec 272 534 131 p) as (vb & _ & Hvb & Hnb);
    [coefficient..|lia|lia|lia|lia|done|].
  unfold sepia_pixel. cbn [rgbtBlue rgbtGreen rgbtRed].
  rewrite Hvr, Hvg, Hvb.
  destruct Hok as (Hb & Hg & Hr). unfold is_BYTE, nearest_to, clamp_byte in *.
  split; lia.
Qed.

(* ================================================================== *)
(** ** The mirror image, position by position *)

(** X1. [reflect] runs to completion on every rectangular grid and puts at
    column [j] of every row the pixel that was at column [width - 1 - j];
    the middle column of an odd width stays where it is. *)
Theorem reflect_mirrors h w g :
  dims h w g →
  ∃ g', reflect h w g = Some g' ∧ dims h w g' ∧
        (∀ i j, at_ g' i j = at_ g i (w - 1 - j)) ∧
        (∀ i j, 2 * j = w - 1 → at_ g' i j = at_ g i j).
Proof.
  intros Hd. destruct (reflect_spec h w g Hd) as (g' & Hrun & Hd' & Hg').
  exists g'. split; [done|]. split; [done|]. split; [done|].
  intros i j Hj. rewrite Hg'. f_equal. lia.
Qed.

Lemma reflect_mirrors_witness :
  dims 2 2 sample_grid ∧ is_Some (reflect 2 2 sample_grid).
Proof.
  split; [exact (proj1 sample_grid_valid)|].
  destruct (reflect_mirrors 2 2 sample_grid (proj1 sample_grid_valid))
    as (g' & Hrun & _).
  exists g'. exact Hrun.
Defined.

(* ================================================================== *)
(** ** The two families of transforms *)

(** X2. On a structurally valid grid the namespaced [image_filters]
    variants of grayscale, sepia and reflect return the grid their
    top-level counterparts return. *)
Theorem pixel_variants_agree h w g :
  valid h w g →
  image_filters.grayscale g = grayscale h w g ∧
  image_filters.sepia g = sepia h w g ∧
  image_filters.reflect g = reflect h w g.
Proof.
  intros Hv. pose proof Hv as [Hd Hp].
  rewrite grayscale_map, sepia_map, (reflect_is_reverse h w) by done.
  rewrite ns_grayscale_map, ns_sepia_map by done. done.
Qed.

Lemma pixel_variants_agree_witness :
  valid 2 2 sample_grid ∧
  image_filters.grayscale sample_grid = grayscale 2 2 sample_grid.
Proof.
  split; [exact sample_grid_valid|].
  exact (proj1 (pixel_variants_agree 2 2 sample_grid sample_grid_valid)).
Defined.

(** X3. [image_filters::grayscale] and [image_filters::sepia] never index
    the grid: on any list of rows of byte pixels, whatever the lengths of
    the rows, they run to completion, keep every row's length, and write at
    each position a function of the pixel that was there. *)
Theorem ns_pixel_filters_any_shape (g : grid) :
  Forall (Forall pixel_ok) g →
  ∃ g1 g2, image_filters.grayscale g = Some g1 ∧
           image_filters.sepia g = Some g2 ∧
           length g1 = length g ∧ length g2 = length g ∧
           ∀ (y : nat) row, g !! y = Some row →
             ∃ row1 row2, g1 !! y = Some row1 ∧ g2 !! y = Some row2 ∧
                          length row1 = length row ∧
                          length row2 = length row ∧
                          ∀ (x : nat) p, row !! x = Some p →
                            row1 !! x = Some (gray_pixel p) ∧
                            row2 !! x = Some (sepia_pixel p).
Proof.
  intros Hg. exists (map_pixels gray_pixel g), (map_pixels sepia_pixel g).
  rewrite ns_grayscale_map, ns_sepia_map by done.
  split; [done|]. split; [done|]. unfold map_pixels.
  rewrite !length_fmap. split; [done|]. split; [done|].
  intros y row Hrow. exists (gray_pixel <$> row), (sepia_pixel <$> row).
  rewrite !list_lookup_fmap, Hrow, !length_fmap.
  split; [done|]. split; [done|]. split; [done|]. split; [done|].
  intros x p Hp. by rewrite !list_lookup_fmap, Hp.
Qed.

Lemma ns_pixel_filters_any_shape_witness :
  Forall (Forall pixel_ok) [[mkRGB 1 2 3]; []; [mkRGB 4 5 6; mkRGB 7 8 9]] ∧
  is_Some (image_filters.grayscale
             [[mkRGB 1 2 3]; []; [mkRGB 4 5 6; mkRGB 7 8 9]]).
Proof.
  assert (Forall (Forall pixel_ok)
            [[mkRGB 1 2 3]; []; [mkRGB 4 5 6; mkRGB 7 8 9]]) as Hg.
  { repeat constructor; simpl; lia. }
  split; [exact Hg|].
  destruct (ns_pixel_filters_any_shape _ Hg) as (g1 & g2 & Hrun & _).
  exists g1. exact Hrun.
Defined.

(* ================================================================== *)
(** ** Grayscale *)

(** X4. Grayscale leaves a grid of gray pixels (three equal channels) as it
    is. *)
Theorem grayscale_fixes_gray h w g :
  valid h w g → Forall (Forall is_gray) g → grayscale h w g = Some g.
Proof.
  intros Hv Hgray. rewrite grayscale_map by done. f_equal.
  apply map_pixels_id. eapply Forall_impl; [exact Hgray|].
  intros row Hrow. simpl. eapply Forall_impl; [exact Hrow|].
  intros p Hp. by apply gray_pixel_fixed.
Qed.

Lemma grayscale_fixes_gray_witness :
  valid 1 2 flat_grid ∧ Forall (Forall is_gray) flat_grid ∧
  grayscale 1 2 flat_grid = Some flat_grid.
Proof.
  assert (Forall (Forall is_gray) flat_grid) as Hgray.
  { by repeat constructor. }
  split; [exact flat_grid_valid|]. split; [exact Hgray|].
  exact (grayscale_fixes_gray 1 2 flat_grid flat_grid_valid Hgray).
Defined.

(** X5. Grayscale is idempotent: applied to its own output it changes
    nothing. *)
Theorem grayscale_idempotent h w g :
  valid h w g →
  ∃ g1, grayscale h w g = Some g1 ∧ grayscale h w g1 = Some g1.
Proof.
  intros Hv. exists (map_pixels gray_pixel g).
  split; [by apply grayscale_map|].
  rewrite grayscale_map by (apply valid_fmap; [apply gray_pixel_ok|done]).
  f_equal. apply map_pixels_id.
  apply (map_pixels_Forall gray_pixel (λ p, gray_pixel p = p)).
  intros p. apply gray_pixel_fixed, gray_pixel_is_gray.
Qed.

Lemma grayscale_idempotent_witness :
  valid 2 2 sample_grid ∧
  ∃ g1, grayscale 2 2 sample_grid = Some g1 ∧ grayscale 2 2 g1 = Some g1.
Proof.
  split; [exact sample_grid_valid|].
  exact (grayscale_idempotent 2 2 sample_grid sample_grid_valid).
Defined.

(* ================================================================== *)
(** ** Sepia *)

(** X6. Sepia never writes more blue than green, nor more green than red:
    the output is ordered blue <= green <= red at every pixel. *)
Theorem sepia_channels_ordered h w g :
  valid h w g →
  ∃ g', sepia h w g = Some g' ∧
        ∀ i j q, at_ g' i j = Some q →
                 rgbtBlue q ≤ rgbtGreen q ∧ rgbtGreen q ≤ rgbtRed q.
Proof.
  intros Hv. exists (map_pixels sepia_pixel g).
  split; [by apply sepia_map|].
  intros i j q. rewrite at_fmap.
  destruct (at_ g i j) as [p|] eqn:Hp; [|done].
  intros [= <-]. apply sepia_pixel_ordered.
  by apply (valid_pixel h w g i j).
Qed.

Lemma sepia_channels_ordered_witness :
  valid 2 2 sample_grid ∧ is_Some (sepia 2 2 sample_grid).
Proof.
  split; [exact sample_grid_valid|].
  destruct (sepia_channels_ordered 2 2 sample_grid sample_grid_valid)
    as (g' & Hrun & _).
  exists g'. exact Hrun.
Defined.

(* ================================================================== *)
(** ** Degenerate dimensions *)

(** X7. With a zero height or a zero width none of the five transforms
    touches the grid, whatever the grid is. *)
Theorem empty_image_unchanged h w g :
  0 ≤ h → 0 ≤ w → h = 0 ∨ w = 0 →
  grayscale h w g = Some g ∧ sepia h w g = Some g ∧
  reflect h w g = Some g ∧ blur h w g = Some g ∧ edges h w g = Some g.
Proof.
  intros Hh Hw Hz.
  assert (∀ (body : Z → Z → grid → option grid) wd (s : grid),
            wd ≤ w →
            for_range 0 h (λ i s, for_range 0 wd (body i) s) s = Some s)
    as Hloop.
  { intros body wd s Hwd. destruct Hz as [->| ->].
    - by apply for_range_empty.
    - apply for_range_noop. intros i t. apply for_range_empty. lia. }
  split; [apply (Hloop (λ row col image, _)); lia|].
  split; [apply (Hloop (λ i j image, _)); lia|].
  split.
  { apply (Hloop (λ i j image, _)).
    pose proof (quot_2_nonpos w). destruct (decide (w ≤ 1)); [lia|].
    apply Z.quot_le_upper_bound; lia. }
  assert (h ≤ 0 ∨ w ≤ 0) as Hz' by lia.
  split.
  - unfold blur, vector_new. rewrite decide_True by done. rewrite bind_Some.
    rewrite decide_True by done. rewrite bind_Some.
    rewrite copy_into_noop by done. rewrite bind_Some.
    rewrite (Hloop (λ i j copy, _)) by lia. rewrite bind_Some.
    by apply copy_into_noop.
  - unfold edges, vector_new. rewrite decide_True by done. rewrite bind_Some.
    rewrite decide_True by done. rewrite bind_Some.
    rewrite copy_into_noop by done. rewrite bind_Some.
    rewrite (Hloop (λ i j copy, _)) by lia. rewrite bind_Some.
    by apply copy_into_noop.
Qed.

Lemma empty_image_unchanged_witness :
  blur 3 0 sample_grid = Some sample_grid.
Proof.
  apply (empty_image_unchanged 3 0 sample_grid); [lia|lia|by right].
Defined.

(** X8. With a negative height or width the three in-place transforms
    return at once with the grid untouched, while [blur] and [edges] do not
    return: the construction of their working copy fails. *)
Theorem negative_dimension h w g :
  h < 0 ∨ w < 0 →
  grayscale h w g = Some g ∧ sepia h w g = Some g ∧
  reflect h w g = Some g ∧ blur h w g = None ∧ edges h w g = None.
Proof.
  intros Hneg.
  assert (∀ (body : Z → Z → grid → option grid) wd (s : grid),
            wd ≤ Z.max w 0 →
            for_range 0 h (λ i s, for_range 0 wd (body i) s) s = Some s)
    as Hloop.
  { intros body wd s Hwd. destruct (decide (h < 0)).
    - apply for_range_empty. lia.
    - apply for_range_noop. intros i t. apply for_range_empty. lia. }
  split; [apply (Hloop (λ row col image, _)); lia|].
  split; [apply (Hloop (λ i j image, _)); lia|].
  split.
  { apply (Hloop (λ i j image, _)).
    destruct (decide (w ≤ 1)) as [Hw|Hw].
    - pose proof (quot_2_nonpos w Hw). lia.
    - rewrite Z.max_l by lia. apply Z.quot_le_upper_bound; lia. }
  unfold blur, edges, vector_new.
  destruct (decide (0 ≤ w)) as [Hw|Hw]; [|done].
  rewrite !bind_Some. rewrite !decide_False by lia. done.
Qed.

Lemma negative_dimension_witness :
  blur 2 (-1) sample_grid = None.
Proof.
  apply (negative_dimension 2 (-1) sample_grid). right. lia.
Defined.

(* ================================================================== *)
(** ** The helpers *)

(** X9. [clamp] with bounds inside the byte range returns a value between
    the bounds, returns a value already between them unchanged, and is
    idempotent. *)
Theorem clamp_range value min max :
  0 ≤ min → min ≤ max → max ≤ 255 →
  min ≤ clamp value min max ≤ max ∧
  (min ≤ value ≤ max → clamp value min max = value) ∧
  clamp (clamp value min max) min max = clamp value min max.
Proof.
  intros H0 Hle H255. unfold clamp, BYTE_of_int.
  repeat case_decide; rewrite ?Z.mod_small by lia; try lia.
  all: rewrite ?Z.mod_small in * by lia; lia.
Qed.

Lemma clamp_range_witness : 0 ≤ clamp 300 0 255 ≤ 255.
Proof. apply (clamp_range 300 0 255); lia. Defined.

(** X10. [inBounds] accepts exactly the positions at which a rectangular
    grid holds a pixel, so the accesses it guards are all in range. *)
Theorem inBounds_iff_pixel h w g x y :
  dims h w g →
  image_filters.inBounds x y h w = true ↔ is_Some (at_ g x y).
Proof.
  intros Hd. unfold image_filters.inBounds.
  rewrite !andb_true_iff, !bool_decide_eq_true. split.
  - intros (((Hx0 & Hxh) & Hy0) & Hyw).
    destruct (at_Some h w g x y Hd) as [p Hp]; [lia..|]. by exists p.
  - intros [p Hp]. apply (at_inv _ _ _ _ _ _ Hd) in Hp. lia.
Qed.

Lemma inBounds_iff_pixel_witness :
  dims 2 2 sample_grid ∧
  (image_filters.inBounds 1 1 2 2 = true ↔ is_Some (at_ sample_grid 1 1)).
Proof.
  split; [exact (proj1 sample_grid_valid)|].
  exact (inBounds_iff_pixel 2 2 sample_grid 1 1 (proj1 sample_grid_valid)).
Defined.

(** X11. The scanline padding of [main] is 0, 1, 2 or 3 and completes the
    row of [3 * width] bytes to a multiple of four, the wrap-around of the
    unsigned arithmetic notwithstanding. *)
Theorem padding_aligns width :
  0 ≤ padding width < 4 ∧ (3 * width + padding width) mod 4 = 0.
Proof.
  unfold padding, size_t_of_int. cbv zeta.
  change (2 ^ 64) with 18446744073709551616.
  Z.div_mod_to_equations. lia.
Qed.

(* ================================================================== *)
(** ** Windows and sums *)

Lemma positions_near i j yx :
  yx ∈ positions i j →
  i - 1 ≤ yx.1 ≤ i + 1 ∧ j - 1 ≤ yx.2 ≤ j + 1.
Proof.
  rewrite positions_rows. cbn [app]. rewrite !elem_of_cons, elem_of_nil.
  intros H. repeat (destruct H as [->|H]; [simpl; lia|]). done.
Qed.

Lemma window_near h w i j yx :
  yx ∈ window h w i j →
  inside h w yx ∧ i - 1 ≤ yx.1 ≤ i + 1 ∧ j - 1 ≤ yx.2 ≤ j + 1.
Proof.
  unfold window. intros Hin. apply list_elem_of_filter in Hin as [Hin Hpos].
  split; [done|]. by apply positions_near.
Qed.

Lemma channel_sum_cons chan g yx ps :
  channel_sum chan g (yx :: ps)
  = from_option chan 0 (at_ g yx.1 yx.2) + channel_sum chan g ps.
Proof. done. Qed.

Lemma channel_sum_ext chan g1 g2 ps :
  (∀ yx, yx ∈ ps → at_ g1 yx.1 yx.2 = at_ g2 yx.1 yx.2) →
  channel_sum chan g1 ps = channel_sum chan g2 ps.
Proof.
  induction ps as [|yx ps IH]; intros Hsame; [done|].
  rewrite !channel_sum_cons, Hsame, IH; [done| |left].
  intros yx' Hin. apply Hsame. by right.
Qed.

Lemma channel_sum_range chan g ps lo hi :
  (∀ yx, yx ∈ ps →
         ∃ p, at_ g yx.1 yx.2 = Some p ∧ lo ≤ chan p ≤ hi) →
  lo * Z.of_nat (length ps) ≤ channel_sum chan g ps
  ≤ hi * Z.of_nat (length ps).
Proof.
  induction ps as [|yx ps IH]; intros Hps.
  { unfold channel_sum. simpl. lia. }
  rewrite channel_sum_cons.
  destruct (Hps yx) as (p & -> & Hp); [left|].
  cbn [from_option length]. rewrite Nat2Z.inj_succ.
  assert (lo * Z.of_nat (length ps) ≤ channel_sum chan g ps
          ≤ hi * Z.of_nat (length ps)) as IH'.
  { apply IH. intros yx' Hin. apply Hps. by right. }
  lia.
Qed.

Lemma channel_sum_filter chan g (P : Z * Z → Prop) `{!∀ yx, Decision (P yx)}
    ps :
  (∀ yx, yx ∈ ps → ¬ P yx → at_ g yx.1 yx.2 = None) →
  channel_sum chan g (filter P ps) = channel_sum chan g ps.
Proof.
  induction ps as [|yx ps IH]; intros Hout; [done|].
  rewrite filter_cons, (channel_sum_cons _ _ yx ps).
  assert (channel_sum chan g (filter P ps) = channel_sum chan g ps) as IH'.
  { apply IH. intros yx' Hin. apply Hout. by right. }
  case_decide as HP.
  - by rewrite channel_sum_cons, IH'.
  - rewrite IH', (Hout yx); [done|left|done].
Qed.

Lemma channel_sum_window h w g chan i j :
  dims h w g →
  channel_sum chan g (window h w i j) = sum9 (channel_or_0 chan g) i j.
Proof.
  intros Hd. unfold window. rewrite channel_sum_filter.
  - rewrite positions_rows. unfold channel_sum, sum9, channel_or_0.
    cbn [app foldr fst snd]. lia.
  - intros [y x] _ Hout. cbn [fst snd].
    destruct (at_ g y x) as [p|] eqn:Hp; [|done].
    apply (at_inv _ _ _ _ _ _ Hd) in Hp. destruct Hout. split; simpl; lia.
Qed.

Lemma round_half_up_div_between lo hi s n :
  1 ≤ n → lo * n ≤ s ≤ hi * n → lo ≤ round_half_up_div s n ≤ hi.
Proof.
  intros Hn Hs. unfold round_half_up_div. split.
  - apply Z.div_le_lower_bound; nia.
  - apply Z.lt_succ_r, Z.div_lt_upper_bound; nia.
Qed.

Lemma blur_pixel_chan chan h w g i j :
  chan = rgbtRed ∨ chan = rgbtGreen ∨ chan = rgbtBlue →
  chan (blur_pixel h w g i j) = window_mean chan h w g i j.
Proof. by intros [->|[->| ->]]. Qed.

Lemma window_mean_ext chan h w g1 g2 i j :
  (∀ y x, i - 1 ≤ y ≤ i + 1 → j - 1 ≤ x ≤ j + 1 →
          at_ g1 y x = at_ g2 y x) →
  window_mean chan h w g1 i j = window_mean chan h w g2 i j.
Proof.
  intros Hsame. unfold window_mean. f_equal.
  apply channel_sum_ext. intros yx Hin.
  apply window_near in Hin as (_ & Hy & Hx). by apply Hsame.
Qed.

Lemma channel_or_0_reverse h w g chan y x :
  dims h w g →
  channel_or_0 chan (reverse <$> g) y x = channel_or_0 chan g y (w - 1 - x).
Proof. intros Hd. unfold channel_or_0. by rewrite (at_reverse h w). Qed.

Lemma window_mean_reverse chan h w g i j :
  dims h w g → 0 ≤ i < h → 0 ≤ j < w →
  window_mean chan h w (reverse <$> g) i j
  = window_mean chan h w g i (w - 1 - j).
Proof.
  intros Hd Hi Hj. unfold window_mean. f_equal.
  - rewrite !(channel_sum_window h w)
      by (done || by apply dims_reverse).
    unfold sum9. rewrite !(channel_or_0_reverse h w) by done.
    replace (w - 1 - (j - 1)) with (w - 1 - j + 1) by lia.
    replace (w - 1 - (j + 1)) with (w - 1 - j - 1) by lia. lia.
  - rewrite !window_count by lia. repeat case_decide; lia.
Qed.

Lemma blur_pixel_reverse h w g i j :
  dims h w g → 0 ≤ i < h → 0 ≤ j < w →
  blur_pixel h w (reverse <$> g) i j = blur_pixel h w g i (w - 1 - j).
Proof.
  intros Hd Hi Hj. unfold blur_pixel.
  by rewrite !(window_mean_reverse _ h w g i j).
Qed.

Lemma edge_magnitude_neg gx gy :
  -1020 ≤ gx ≤ 1020 → edge_magnitude (- gx) gy = edge_magnitude gx gy.
Proof.
  intros Hx. unfold edge_magnitude.
  rewrite (square_exact (- gx)), (square_exact gx) by lia.
  by replace (- gx * - gx) with (gx * gx) by ring.
Qed.

Lemma edge_value_reverse h w g chan i j :
  valid h w g → (∀ p, pixel_ok p → 0 ≤ chan p ≤ 255) →
  edge_value chan (reverse <$> g) i j = edge_value chan g i (w - 1 - j).
Proof.
  intros Hv Hchan. pose proof Hv as [Hd _]. unfold edge_value.
  assert (sobel_x (channel_or_0 chan (reverse <$> g)) i j
          = - sobel_x (channel_or_0 chan g) i (w - 1 - j)) as ->.
  { unfold sobel_x. rewrite !(channel_or_0_reverse h w) by done.
    replace (w - 1 - (j - 1)) with (w - 1 - j + 1) by lia.
    replace (w - 1 - (j + 1)) with (w - 1 - j - 1) by lia. lia. }
  assert (sobel_y (channel_or_0 chan (reverse <$> g)) i j
          = sobel_y (channel_or_0 chan g) i (w - 1 - j)) as ->.
  { unfold sobel_y. rewrite !(channel_or_0_reverse h w) by done.
    replace (w - 1 - (j - 1)) with (w - 1 - j + 1) by lia.
    replace (w - 1 - (j + 1)) with (w - 1 - j - 1) by lia. lia. }
  rewrite edge_magnitude_neg; [done|].
  apply sobel_bounds. intros y x. by apply (channel_or_0_byte h w).
Qed.

Lemma edges_pixel_reverse h w g i j :
  valid h w g →
  edges_pixel (reverse <$> g) i j = edges_pixel g i (w - 1 - j).
Proof.
  intros Hv. unfold edges_pixel.
  rewrite !(edge_value_reverse h w g);
    [done|done|apply chan_red_byte|done|apply chan_green_byte
    |done|apply chan_blue_byte].
Qed.

Lemma edge_value_ext chan g1 g2 i j :
  (∀ y x, i - 1 ≤ y ≤ i + 1 → j - 1 ≤ x ≤ j + 1 → (y, x) ≠ (i, j) →
          at_ g1 y x = at_ g2 y x) →
  edge_value chan g1 i j = edge_value chan g2 i j.
Proof.
  intros Hsame.
  assert (∀ y x, i - 1 ≤ y ≤ i + 1 → j - 1 ≤ x ≤ j + 1 → (y, x) ≠ (i, j) →
                 channel_or_0 chan g1 y x = channel_or_0 chan g2 y x) as Hc.
  { intros y x Hy Hx Hne. unfold channel_or_0. by rewrite Hsame. }
  unfold edge_value, sobel_x, sobel_y.
  rewrite !(Hc (i - 1)), !(Hc i), !(Hc (i + 1));
    (done || lia || (intros [=]; lia)).
Qed.

(* ================================================================== *)
(** ** Blur stays within its neighbourhood *)

(** X12. Blur neither overshoots nor undershoots: if a channel of every
    pixel in the 3x3 neighbourhood of a position lies between [lo] and
    [hi], so does that channel of the blurred pixel, for both blur
    implementations. *)
Theorem blur_within_neighbourhood h w g chan lo hi i j :
  valid h w g →
  chan = rgbtRed ∨ chan = rgbtGreen ∨ chan = rgbtBlue →
  0 ≤ i < h → 0 ≤ j < w →
  (∀ y x p, i - 1 ≤ y ≤ i + 1 → j - 1 ≤ x ≤ j + 1 →
            at_ g y x = Some p → lo ≤ chan p ≤ hi) →
  ∃ g' q, blur h w g = Some g' ∧ image_filters.blur g = Some g' ∧
          at_ g' i j = Some q ∧ lo ≤ chan q ≤ hi.
Proof.
  intros Hv Hchan Hi Hj Hrange. pose proof Hv as [Hd _].
  destruct (blur_spec h w g Hv) as (g' & Hrun & _ & Hg').
  exists g', (blur_pixel h w g i j).
  split; [done|]. split; [by rewrite <- (blur_agree h w)|].
  split; [by apply Hg'|]. rewrite blur_pixel_chan by done.
  unfold window_mean. apply round_half_up_div_between.
  - by apply window_length.
  - apply channel_sum_range. intros [y x] Hin.
    apply window_near in Hin as ([Hy Hx] & Hy' & Hx'). cbn [fst snd] in *.
    destruct (at_Some h w g y x Hd Hy Hx) as [p Hp].
    exists p. split; [done|]. by apply (Hrange y x).
Qed.

Lemma blur_within_neighbourhood_witness :
  ∃ g' q, blur 2 2 sample_grid = Some g' ∧
          at_ g' 0 0 = Some q ∧ 10 ≤ rgbtRed q ≤ 100.
Proof.
  destruct (blur_within_neighbourhood 2 2 sample_grid rgbtRed 10 100 0 0)
    as (g' & q & Hrun & _ & Hq & Hb).
  - exact sample_grid_valid.
  - by left.
  - lia.
  - lia.
  - intros y x p Hy Hx.
    assert (y = -1 ∨ y = 0 ∨ y = 1) as Hy' by lia.
    assert (x = -1 ∨ x = 0 ∨ x = 1) as Hx' by lia.
    destruct Hy' as [->|[->| ->]], Hx' as [->|[->| ->]];
      vm_compute; intros [= <-]; vm_compute; split; discriminate.
  - exists g', q. split; [exact Hrun|]. split; [exact Hq|exact Hb].
Defined.

(** X13. Blur is local: the blurred pixel at a position is determined by
    the 3x3 neighbourhood of that position in the input. *)
Theorem blur_local h w g1 g2 i j :
  valid h w g1 → valid h w g2 → 0 ≤ i < h → 0 ≤ j < w →
  (∀ y x, i - 1 ≤ y ≤ i + 1 → j - 1 ≤ x ≤ j + 1 →
          at_ g1 y x = at_ g2 y x) →
  ∃ b1 b2, blur h w g1 = Some b1 ∧ blur h w g2 = Some b2 ∧
           at_ b1 i j = at_ b2 i j.
Proof.
  intros Hv1 Hv2 Hi Hj Hsame.
  destruct (blur_spec h w g1 Hv1) as (b1 & Hrun1 & _ & Hb1).
  destruct (blur_spec h w g2 Hv2) as (b2 & Hrun2 & _ & Hb2).
  exists b1, b2. split; [done|]. split; [done|].
  rewrite Hb1, Hb2 by done. f_equal. unfold blur_pixel.
  by rewrite !(window_mean_ext _ h w g1 g2 i j).
Qed.

Lemma blur_local_witness :
  ∃ b1 b2, blur 1 3 [[mkRGB 1 1 1; mkRGB 1 1 1; mkRGB 1 1 1]] = Some b1 ∧
           blur 1 3 [[mkRGB 1 1 1; mkRGB 1 1 1; mkRGB 9 9 9]] = Some b2 ∧
           at_ b1 0 0 = at_ b2 0 0.
Proof.
  apply (blur_local 1 3 [[mkRGB 1 1 1; mkRGB 1 1 1; mkRGB 1 1 1]]
                        [[mkRGB 1 1 1; mkRGB 1 1 1; mkRGB 9 9 9]] 0 0).
  - split.
    + split; [lia|]. split; [done|]. by repeat constructor.
    + repeat constructor; simpl; lia.
  - split.
    + split; [lia|]. split; [done|]. by repeat constructor.
    + repeat constructor; simpl; lia.
  - lia.
  - lia.
  - intros y x Hy Hx.
    assert (y = -1 ∨ y = 0 ∨ y = 1) as Hy' by lia.
    assert (x = -1 ∨ x = 0 ∨ x = 1) as Hx' by lia.
    destruct Hy' as [->|[->| ->]], Hx' as [->|[->| ->]]; reflexivity.
Defined.

(* ================================================================== *)
(** ** Edge detection *)

(** X14. The gradient at a position does not look at the position itself:
    the pixel [edges] writes there is determined by the eight neighbours,
    so two grids that differ only at that position get the same output
    there. *)
Theorem edges_ignores_centre h w g1 g2 i j :
  valid h w g1 → valid h w g2 → 0 ≤ i < h → 0 ≤ j < w →
  (∀ y x, i - 1 ≤ y ≤ i + 1 → j - 1 ≤ x ≤ j + 1 → (y, x) ≠ (i, j) →
          at_ g1 y x = at_ g2 y x) →
  ∃ e1 e2, edges h w g1 = Some e1 ∧ edges h w g2 = Some e2 ∧
           at_ e1 i j = at_ e2 i j.
Proof.
  intros Hv1 Hv2 Hi Hj Hsame.
  destruct (edges_spec h w g1 Hv1) as (e1 & Hrun1 & _ & He1).
  destruct (edges_spec h w g2 Hv2) as (e2 & Hrun2 & _ & He2).
  exists e1, e2. split; [done|]. split; [done|].
  rewrite He1, He2 by done. f_equal. unfold edges_pixel.
  by rewrite !(edge_value_ext _ g1 g2 i j).
Qed.

Lemma edges_ignores_centre_witness :
  ∃ e1 e2, edges 1 2 flat_grid = Some e1 ∧
           edges 1 2 [[mkRGB 9 9 9; mkRGB 1 1 1]] = Some e2 ∧
           at_ e1 0 0 = at_ e2 0 0.
Proof.
  apply (edges_ignores_centre 1 2 flat_grid [[mkRGB 9 9 9; mkRGB 1 1 1]] 0 0).
  - exact flat_grid_valid.
  - split.
    + split; [lia|]. split; [done|]. by repeat constructor.
    + repeat constructor; simpl; lia.
  - lia.
  - lia.
  - intros y x Hy Hx Hne.
    assert (y = -1 ∨ y = 0 ∨ y = 1) as Hy' by lia.
    assert (x = -1 ∨ x = 0 ∨ x = 1) as Hx' by lia.
    destruct Hy' as [->|[->| ->]], Hx' as [->|[->| ->]];
      done || reflexivity.
Defined.

(** X15. Edge detection maps an all-black grid to itself, border pixels
    included. *)
Theorem edges_black h w g :
  valid h w g → uniform (mkRGB 0 0 0) g → edges h w g = Some g.
Proof.
  intros Hv Hu. pose proof Hv as [Hd _].
  destruct (edges_spec h w g Hv) as (g' & -> & Hd' & Hg'). f_equal.
  apply (grid_ext h w); [done..|]. intros i j Hi Hj. rewrite Hg' by done.
  destruct (at_Some h w g i j Hd Hi Hj) as [p Hp]. rewrite Hp.
  rewrite (uniform_at _ _ _ _ _ Hu Hp). f_equal.
  assert (∀ chan, chan (mkRGB 0 0 0) = 0 → ∀ y x, channel_or_0 chan g y x = 0)
    as Hzero.
  { intros chan Hc y x. unfold channel_or_0.
    destruct (at_ g y x) as [q|] eqn:Hq; [|done].
    by rewrite (uniform_at _ _ _ _ _ Hu Hq). }
  assert (∀ chan, chan (mkRGB 0 0 0) = 0 → edge_value chan g i j = 0) as Hval.
  { intros chan Hc. unfold edge_value, sobel_x, sobel_y.
    rewrite !(Hzero chan Hc).
    change (default 0 (edge_magnitude 0 0) = 0).
    by rewrite edge_magnitude_0. }
  unfold edges_pixel. by rewrite !Hval.
Qed.

Lemma edges_black_witness :
  edges 1 1 [[mkRGB 0 0 0]] = Some [[mkRGB 0 0 0]].
Proof.
  apply (edges_black 1 1 [[mkRGB 0 0 0]]).
  - split.
    + split; [lia|]. split; [done|]. by repeat constructor.
    + repeat constructor; simpl; lia.
  - by repeat constructor.
Defined.

(* ================================================================== *)
(** ** Mirroring commutes with the other transforms *)

(** X16. Grayscale and sepia commute with reflect: mirroring before or
    after the transform gives the same grid. *)
Theorem reflect_commutes_pixelwise h w g :
  valid h w g →
  (∃ r, (t ← grayscale h w g; reflect h w t) = Some r ∧
        (m ← reflect h w g; grayscale h w m) = Some r) ∧
  (∃ r, (t ← sepia h w g; reflect h w t) = Some r ∧
        (m ← reflect h w g; sepia h w m) = Some r).
Proof.
  intros Hv. pose proof Hv as [Hd _].
  pose proof (valid_reverse h w g Hv) as Hvr.
  rewrite (reflect_map h w g Hd), !bind_Some.
  rewrite (grayscale_map h w g Hv), (sepia_map h w g Hv), !bind_Some.
  rewrite (grayscale_map h w _ Hvr), (sepia_map h w _ Hvr).
  rewrite !(reflect_map h w) by by apply dims_fmap.
  rewrite !map_pixels_reverse. split; eexists; done.
Qed.

Lemma reflect_commutes_pixelwise_witness :
  valid 2 2 sample_grid ∧
  ∃ r, (t ← sepia 2 2 sample_grid; reflect 2 2 t) = Some r ∧
       (m ← reflect 2 2 sample_grid; sepia 2 2 m) = Some r.
Proof.
  split; [exact sample_grid_valid|].
  exact (proj2 (reflect_commutes_pixelwise 2 2 sample_grid sample_grid_valid)).
Defined.

(** X17. Blur commutes with reflect: the blur of the mirror image is the
    mirror image of the blur. *)
Theorem reflect_commutes_with_blur h w g :
  valid h w g →
  ∃ r, (b ← blur h w g; reflect h w b) = Some r ∧
       (m ← reflect h w g; blur h w m) = Some r.
Proof.
  intros Hv. pose proof Hv as [Hd _].
  pose proof (valid_reverse h w g Hv) as Hvr.
  destruct (blur_spec h w g Hv) as (b & Hrun & Hdb & Hb).
  destruct (blur_spec h w _ Hvr) as (b' & Hrun' & Hdb' & Hb').
  exists b'. rewrite Hrun, bind_Some, (reflect_map h w b Hdb).
  rewrite (reflect_map h w g Hd), bind_Some. split; [|done]. f_equal.
  apply (grid_ext h w); [by apply dims_reverse|done|].
  intros i j Hi Hj. rewrite (at_reverse h w) by done.
  rewrite Hb, Hb' by lia. f_equal. symmetry. by apply blur_pixel_reverse.
Qed.

Lemma reflect_commutes_with_blur_witness :
  valid 2 2 sample_grid ∧
  ∃ r, (b ← blur 2 2 sample_grid; reflect 2 2 b) = Some r ∧
       (m ← reflect 2 2 sample_grid; blur 2 2 m) = Some r.
Proof.
  split; [exact sample_grid_valid|].
  exact (reflect_commutes_with_blur 2 2 sample_grid sample_grid_valid).
Defined.

(** X18. Edge detection commutes with reflect: mirroring negates the
    horizontal Sobel sum and keeps the vertical one, and the magnitude
    does not see the sign. *)
Theorem reflect_commutes_with_edges h w g :
  valid h w g →
  ∃ r, (e ← edges h w g; reflect h w e) = Some r ∧
       (m ← reflect h w g; edges h w m) = Some r.
Proof.
  intros Hv. pose proof Hv as [Hd _].
  pose proof (valid_reverse h w g Hv) as Hvr.
  destruct (edges_spec h w g Hv) as (e & Hrun & Hde & He).
  destruct (edges_spec h w _ Hvr) as (e' & Hrun' & Hde' & He').
  exists e'. rewrite Hrun, bind_Some, (reflect_map h w e Hde).
  rewrite (reflect_map h w g Hd), bind_Some. split; [|done]. f_equal.
  apply (grid_ext h w); [by apply dims_reverse|done|].
  intros i j Hi Hj. rewrite (at_reverse h w) by done.
  rewrite He, He' by lia. f_equal. symmetry. by apply (edges_pixel_reverse h w).
Qed.

Lemma reflect_commutes_with_edges_witness :
  valid 2 2 sample_grid ∧
  ∃ r, (e ← edges 2 2 sample_grid; reflect 2 2 e) = Some r ∧
       (m ← reflect 2 2 sample_grid; edges 2 2 m) = Some r.
Proof.
  split; [exact sample_grid_valid|].
  exact (reflect_commutes_with_edges 2 2 sample_grid sample_grid_valid).
Defined.

(* ================================================================== *)
(** ** Gray grids *)

Lemma Forall_at (P : RGBTRIPLE → Prop) (g : grid) y x p :
  Forall (Forall P) g → at_ g y x = Some p → P p.
Proof.
  intros HP. unfold at_. case_decide; [|done].
  destruct (g !! Z.to_nat y) as [row|] eqn:Hrow; [simpl|done]. intros Hx.
  rewrite Forall_lookup in HP. specialize (HP _ _ Hrow).
  rewrite Forall_lookup in HP. by eapply HP.
Qed.

Lemma channel_or_0_chan chan1 chan2 (g : grid) y x :
  (∀ p, at_ g y x = Some p → chan1 p = chan2 p) →
  channel_or_0 chan1 g y x = channel_or_0 chan2 g y x.
Proof.
  intros Hsame. unfold channel_or_0.
  destruct (at_ g y x) as [p|]; [simpl|done]. by apply Hsame.
Qed.

Lemma channel_sum_chan chan1 chan2 (g : grid) ps :
  (∀ y x p, at_ g y x = Some p → chan1 p = chan2 p) →
  channel_sum chan1 g ps = channel_sum chan2 g ps.
Proof.
  intros Hsame. induction ps as [|yx ps IH]; [done|].
  rewrite !channel_sum_cons, IH. f_equal.
  apply (channel_or_0_chan chan1 chan2 g yx.1 yx.2). apply Hsame.
Qed.

Lemma gray_blur_pixel h w g i j :
  Forall (Forall is_gray) g → is_gray (blur_pixel h w g i j).
Proof.
  intros Hgray. unfold is_gray, blur_pixel, window_mean.
  cbn [rgbtBlue rgbtGreen rgbtRed].
  split; f_equal; apply channel_sum_chan; intros y x p Hp;
    apply (Forall_at _ _ _ _ _ Hgray) in Hp as [? ?]; congruence.
Qed.

Lemma gray_edges_pixel g i j :
  Forall (Forall is_gray) g → is_gray (edges_pixel g i j).
Proof.
  intros Hgray.
  assert (∀ y x, channel_or_0 rgbtBlue g y x = channel_or_0 rgbtGreen g y x)
    as Hbg.
  { intros y x. apply channel_or_0_chan. intros p Hp.
    by apply (Forall_at _ _ _ _ _ Hgray) in Hp as [? ?]. }
  assert (∀ y x, channel_or_0 rgbtGreen g y x = channel_or_0 rgbtRed g y x)
    as Hgr.
  { intros y x. apply channel_or_0_chan. intros p Hp.
    by apply (Forall_at _ _ _ _ _ Hgray) in Hp as [? ?]. }
  unfold is_gray, edges_pixel, edge_value, sobel_x, sobel_y.
  cbn [rgbtBlue rgbtGreen rgbtRed]. by rewrite !Hbg, !Hgr.
Qed.

(** X19. Gray grids (three equal channels at every pixel) are closed under
    blur, edge detection and reflection: the output of each is again
    gray. *)
Theorem gray_grids_closed h w g :
  valid h w g → Forall (Forall is_gray) g →
  ∃ b e r, blur h w g = Some b ∧ edges h w g = Some e ∧
           reflect h w g = Some r ∧
           ∀ i j q, at_ b i j = Some q ∨ at_ e i j = Some q ∨
                    at_ r i j = Some q → is_gray q.
Proof.
  intros Hv Hgray. pose proof Hv as [Hd _].
  destruct (blur_spec h w g Hv) as (b & Hb & Hdb & Hatb).
  destruct (edges_spec h w g Hv) as (e & He & Hde & Hate).
  exists b, e, (reverse <$> g).
  split; [done|]. split; [done|]. split; [by apply reflect_map|].
  intros i j q [Hq|[Hq|Hq]].
  - pose proof (at_inv _ _ _ _ _ _ Hdb Hq) as [Hi Hj].
    rewrite Hatb in Hq by done. injection Hq as <-.
    by apply gray_blur_pixel.
  - pose proof (at_inv _ _ _ _ _ _ Hde Hq) as [Hi Hj].
    rewrite Hate in Hq by done. injection Hq as <-.
    by apply gray_edges_pixel.
  - rewrite (at_reverse h w) in Hq by done.
    by apply (Forall_at _ _ _ _ _ Hgray) in Hq.
Qed.

Lemma gray_grids_closed_witness :
  valid 1 2 flat_grid ∧ Forall (Forall is_gray) flat_grid ∧
  is_Some (blur 1 2 flat_grid).
Proof.
  assert (Forall (Forall is_gray) flat_grid) as Hgray.
  { by repeat constructor. }
  split; [exact flat_grid_valid|]. split; [exact Hgray|].
  destruct (gray_grids_closed 1 2 flat_grid flat_grid_valid Hgray)
    as (b & _ & _ & Hrun & _).
  exists b. exact Hrun.
Defined.

(* ================================================================== *)
(** ** The luma of [bmp::RgbTriple] *)

Lemma gray_product_facts n r :
  n ∈ gray_coefficients → 0 ≤ r ≤ 255 →
  let x := double.mul (double.milli n) (double.of_int r) in
  canon60 x ∧ Z.abs (1000 * sv60 x - n * r * 2 ^ 60) ≤ 2 ^ 27.
Proof.
  intros Hn Hr.
  assert (forallb (λ n, all_below 256 (product_check n)) gray_coefficients = true)
    as Hall by (by vm_compute).
  rewrite forallb_forall in Hall. specialize (Hall n).
  rewrite <- list_elem_of_In in Hall. specialize (Hall Hn).
  apply (all_below_spec _ _ r) in Hall; [|lia].
  unfold product_check in Hall. cbv zeta.
  destruct (double.mul (double.milli n) (double.of_int r)) as [[]| | |[] m e];
    try done.
  - apply bool_decide_eq_true in Hall as ->. split; [by left|]. simpl. lia.
  - apply bool_decide_eq_true in Hall as (Hm & He & Herr).
    split; [right; eauto 10|]. exact Herr.
Qed.

(** The truncation of such a double is the floor of its scaled value. *)
Lemma canon60_truncate x :
  canon60 x → truncate x = Some (sv60 x / 2 ^ 60).
Proof.
  intros [->|(m & e & -> & Hm & He)]; [done|].
  unfold truncate. rewrite decide_False by lia. f_equal. cbn [sv60].
  pose proof (pow2_pos (e + 60) ltac:(lia)) as H1.
  rewrite <- (Z.div_mul_cancel_r _ _ (2 ^ (e + 60)))
    by (try apply Z.pow_nonzero; lia).
  f_equal. rewrite <- pow2_split by lia. f_equal. lia.
Qed.

(** X20. [bmp::RgbTriple::toGrayscale] is defined on every pixel and
    returns a byte: the weighted sum (299 R + 587 G + 114 B) / 1000
    truncated, which is the floor of the exact value whenever that is not
    an integer, and the exact value or one less when it is. *)
Theorem toGrayscale_truncated_luma p :
  is_BYTE (bmp.red p) → is_BYTE (bmp.green p) → is_BYTE (bmp.blue p) →
  let T := 299 * bmp.red p + 587 * bmp.green p + 114 * bmp.blue p in
  ∃ v, bmp.toGrayscale p = Some v ∧ is_BYTE v ∧
       T / 1000 - 1 ≤ v ≤ T / 1000 ∧
       (T mod 1000 ≠ 0 → v = T / 1000).
Proof.
  intros Hr Hg Hb. unfold is_BYTE in *.
  assert (299 ∈ gray_coefficients ∧ 587 ∈ gray_coefficients ∧
          114 ∈ gray_coefficients) as (H1 & H2 & H3).
  { unfold gray_coefficients. rewrite !elem_of_cons. tauto. }
  destruct (gray_product_facts 299 (bmp.red p) H1 Hr) as [C1 E1].
  destruct (gray_product_facts 587 (bmp.green p) H2 Hg) as [C2 E2].
  destruct (gray_product_facts 114 (bmp.blue p) H3 Hb) as [C3 E3].
  unfold bmp.toGrayscale.
  set (P1 := double.mul (double.milli 299) (double.of_int (bmp.red p))) in *.
  set (P2 := double.mul (double.milli 587) (double.of_int (bmp.green p))) in *.
  set (P3 := double.mul (double.milli 114) (double.of_int (bmp.blue p))) in *.
  destruct (canon60_add P1 P2 C1 C2) as [C12 E12]; [lia|].
  set (S12 := double.add P1 P2) in *.
  destruct (canon60_add S12 P3 C12 C3) as [C123 E123]; [lia|].
  set (x := double.add S12 P3) in *.
  unfold double_to_BYTE. rewrite (canon60_truncate x C123), bind_Some.
  cbv zeta.
  set (T := 299 * bmp.red p + 587 * bmp.green p + 114 * bmp.blue p) in *.
  set (v := sv60 x / 2 ^ 60).
  pose proof (Z.div_mod (sv60 x) (2 ^ 60) ltac:(lia)) as Hdm.
  pose proof (Z.mod_pos_bound (sv60 x) (2 ^ 60) ltac:(lia)) as Hmod.
  fold v in Hdm.
  pose proof (Z.div_mod T 1000 ltac:(lia)) as HdT.
  pose proof (Z.mod_pos_bound T 1000 ltac:(lia)) as HmT.
  pose proof (sv60_nonneg x) as Hx0.
  assert (0 ≤ T ≤ 255000) as HT by (unfold T; lia).
  assert (Z.abs (1000 * sv60 x - T * 2 ^ 60) ≤ 2 ^ 30) as Herr.
  { unfold T. lia. }
  assert (T / 1000 - 1 ≤ v ≤ T / 1000 ∧ (T mod 1000 ≠ 0 → v = T / 1000))
    as [Hv Hfloor] by lia.
  assert (0 ≤ v) as Hv0 by lia.
  exists v. rewrite decide_True by lia.
  split; [done|]. split; [unfold is_BYTE; lia|]. split; [exact Hv|exact Hfloor].
Qed.

Lemma toGrayscale_truncated_luma_witness :
  ∃ v, bmp.toGrayscale (bmp.mkRgbTriple 30 20 10) = Some v ∧ is_BYTE v.
Proof.
  destruct (toGrayscale_truncated_luma (bmp.mkRgbTriple 30 20 10))
    as (v & Hrun & Hbyte & _).
  - unfold is_BYTE. simpl. lia.
  - unfold is_BYTE. simpl. lia.
  - unfold is_BYTE. simpl. lia.
  - exists v. split; [exact Hrun|exact Hbyte].
Defined.

(** The lower value is taken: the gray pixel (1, 1, 1) has luma exactly 1,
    the sum of the three rounded products falls just below it, and the
    truncation gives 0. *)
Example toGrayscale_gray_one :
  bmp.toGrayscale (bmp.mkRgbTriple 1 1 1) = Some 0.
Proof. by vm_compute. Qed.
